(** * Otter Browser: the Adblock content-filters profile

    A shallow embedding of [src/core/AdblockContentFiltersProfile.cpp]:
    the rule parser ([parseRuleLine]), the character trie it fills, the
    matcher ([checkUrl], [checkUrlSubstring], [evaluateNodeRules],
    [checkRuleMatch]), the header scanner ([loadHeader]) and the update
    handler ([handleJobFinished]).

    Conventions.
    - A [QChar] is modelled by its Latin-1 range (one [ascii] code unit) and a
      [QString] by the list of its characters; Qt's character classes are
      written out for that range.
    - A C++ loop becomes a recursive function over the part of the input
      that is still to be visited; a [return] from inside a loop is the
      [Returned] constructor of [Flow].
    - Mutable members of the profile are threaded explicitly through the
      [Profile] record. *)

From Stdlib Require Import List Bool Ascii String ZArith Lia Arith.
Import ListNotations.

Local Open Scope Z_scope.
Local Open Scope list_scope.

(* ================================================================= *)
(** ** Characters and strings (QChar, QString) *)

Definition QChar := ascii.
Definition QString := list QChar.
Definition QByteArray := list Byte.byte.

(** String literals of the source, [QLatin1String("...")]. *)
Definition qs (s : string) : QString := list_ascii_of_string s.

Definition unicode (c : QChar) : Z := Z.of_nat (nat_of_ascii c).

Definition inRange (lo hi : Z) (c : QChar) : bool :=
  (lo <=? unicode c) && (unicode c <=? hi).

(** [QChar::isDigit]: category Nd, which in Latin-1 is '0'..'9'. *)
Definition isDigit (c : QChar) : bool := inRange 48 57 c.

(** [QChar::isLetter]: categories Lu, Ll, Lt, Lm, Lo; in Latin-1 these are
    A-Z, a-z, U+00AA, U+00B5, U+00BA, U+00C0-U+00D6, U+00D8-U+00F6 and
    U+00F8-U+00FF. *)
Definition isLetter (c : QChar) : bool :=
  inRange 65 90 c || inRange 97 122 c
  || (unicode c =? 170) || (unicode c =? 181) || (unicode c =? 186)
  || inRange 192 214 c || inRange 216 246 c || inRange 248 255 c.

(** [QChar::isSpace]: U+0009-U+000D, U+0020, U+0085 and U+00A0. *)
Definition isSpace (c : QChar) : bool :=
  inRange 9 13 c || (unicode c =? 32) || (unicode c =? 133) || (unicode c =? 160).

(** Case folding used by the [Qt::CaseInsensitive] comparisons. *)
Definition toCaseFolded (c : QChar) : QChar :=
  if inRange 65 90 c || inRange 192 214 c || inRange 216 222 c
  then ascii_of_nat (nat_of_ascii c + 32)
  else c.

Definition isEmpty (s : QString) : bool :=
  match s with [] => true | _ :: _ => false end.

Fixpoint QString_eqb (a b : QString) : bool :=
  match a, b with
  | [], [] => true
  | x :: a', y :: b' => Ascii.eqb x y && QString_eqb a' b'
  | _, _ => false
  end.

(** [s.startsWith(p)] *)
Fixpoint startsWith (s p : QString) {struct p} : bool :=
  match p with
  | [] => true
  | c :: p' =>
      match s with
      | [] => false
      | d :: s' => Ascii.eqb d c && startsWith s' p'
      end
  end.

(** [s.endsWith(p)] *)
Definition endsWith (s p : QString) : bool := startsWith (rev s) (rev p).

(** [s.contains(p)] *)
Fixpoint contains (s p : QString) : bool :=
  startsWith s p ||
  match s with
  | [] => false
  | _ :: s' => contains s' p
  end.

(** [s.contains(p, Qt::CaseInsensitive)] *)
Definition containsCaseInsensitive (s p : QString) : bool :=
  contains (map toCaseFolded s) (map toCaseFolded p).

(** [s.indexOf(c)] for a predicate on characters: the position of the first
    character that satisfies it, or -1. *)
Fixpoint indexOfFrom (f : QChar -> bool) (s : QString) (i : Z) : Z :=
  match s with
  | [] => -1
  | c :: s' => if f c then i else indexOfFrom f s' (i + 1)
  end.

Definition indexOf (s : QString) (c : QChar) : Z :=
  indexOfFrom (Ascii.eqb c) s 0.

(** [s.left(n)]: the whole string when [n] is negative or past the end. *)
Definition left (s : QString) (n : Z) : QString :=
  if (n <? 0) || (Z.of_nat (List.length s) <=? n) then s
  else firstn (Z.to_nat n) s.

(** [s.right(n)]: the whole string when [n] is negative or past the end. *)
Definition right (s : QString) (n : Z) : QString :=
  if (n <? 0) || (Z.of_nat (List.length s) <=? n) then s
  else skipn (List.length s - Z.to_nat n) s.

(** [s.mid(pos)]: empty past the end, from the start for a negative [pos]. *)
Definition mid (s : QString) (pos : Z) : QString :=
  if Z.of_nat (List.length s) <? pos then []
  else skipn (Z.to_nat pos) s.

Fixpoint dropSpaces (s : QString) : QString :=
  match s with
  | [] => []
  | c :: s' => if isSpace c then dropSpaces s' else s
  end.

(** [s.trimmed()] *)
Definition trimmed (s : QString) : QString :=
  rev (dropSpaces (rev (dropSpaces s))).

(** [s.split(sep)] on a character, keeping empty parts. *)
Fixpoint split (sep : QChar) (s : QString) : list QString :=
  match s with
  | [] => [[]]
  | c :: s' =>
      if Ascii.eqb c sep then [] :: split sep s'
      else match split sep s' with
           | field :: fields => (c :: field) :: fields
           | [] => [[c]]
           end
  end.

(** [s.split(sep, QString::SkipEmptyParts)] *)
Definition splitSkipEmpty (sep : QChar) (s : QString) : list QString :=
  filter (fun field => negb (isEmpty field)) (split sep s).

(** [s.split(sep)] on a non-empty string: occurrences are found from left
    to right and do not overlap; [skip] counts the characters of the
    separator still to be dropped. *)
Fixpoint splitStringFrom (sep s : QString) (skip : nat) : list QString :=
  match s with
  | [] => [[]]
  | c :: s' =>
      match skip with
      | S k => splitStringFrom sep s' k
      | O =>
          if startsWith s sep
          then [] :: splitStringFrom sep s' (List.length sep - 1)
          else match splitStringFrom sep s' 0 with
               | field :: fields => (c :: field) :: fields
               | [] => [[c]]
               end
      end
  end.

Definition splitString (sep s : QString) : list QString :=
  splitStringFrom sep s 0.

(** [s.remove(needle)]: every occurrence is removed; after a removal the
    search resumes at the position of the removal. *)
Fixpoint removeFuel (fuel : nat) (needle s : QString) : QString :=
  match fuel with
  | O => s
  | S fuel' =>
      match s with
      | [] => []
      | c :: s' =>
          if startsWith s needle && negb (isEmpty needle)
          then removeFuel fuel' needle (skipn (List.length needle) s)
          else c :: removeFuel fuel' needle s'
      end
  end.

Definition remove (s needle : QString) : QString :=
  removeFuel (List.length s) needle s.

(** [list.contains(s)] of a QStringList. *)
Definition listContains (l : list QString) (s : QString) : bool :=
  existsb (QString_eqb s) l.

(* ================================================================= *)
(** ** Flags (QFlags over an enumeration of single bits) *)

(** [flags.testFlag(flag)] *)
Definition testFlag (flags flag : Z) : bool :=
  (Z.land flags flag =? flag) && (negb (flag =? 0) || (flags =? flag)).

(* ================================================================= *)
(** ** The rule model *)

Inductive RuleOption :=
| ThirdPartyOption | StyleSheetOption | ImageOption | ScriptOption
| ObjectOption | ObjectSubRequestOption | SubDocumentOption
| XmlHttpRequestOption | WebSocketOption | PopupOption
| ElementHideOption | GenericHideOption.

Definition RuleOption_eqb (a b : RuleOption) : bool :=
  match a, b with
  | ThirdPartyOption, ThirdPartyOption | StyleSheetOption, StyleSheetOption
  | ImageOption, ImageOption | ScriptOption, ScriptOption
  | ObjectOption, ObjectOption
  | ObjectSubRequestOption, ObjectSubRequestOption
  | SubDocumentOption, SubDocumentOption
  | XmlHttpRequestOption, XmlHttpRequestOption
  | WebSocketOption, WebSocketOption | PopupOption, PopupOption
  | ElementHideOption, ElementHideOption
  | GenericHideOption, GenericHideOption => true
  | _, _ => false
  end.

(** Modelled from the spec: the enumerators of [RuleOption] are declared in
    AdblockContentFiltersProfile.h; the spec fixes one bit per token of the
    option vocabulary, in the order in which it lists them. *)
Definition optionIndex (o : RuleOption) : Z :=
  match o with
  | ThirdPartyOption => 0 | StyleSheetOption => 1 | ImageOption => 2
  | ScriptOption => 3 | ObjectOption => 4 | ObjectSubRequestOption => 5
  | SubDocumentOption => 6 | XmlHttpRequestOption => 7
  | WebSocketOption => 8 | PopupOption => 9
  | ElementHideOption => 10 | GenericHideOption => 11
  end.

Definition optionBit (o : RuleOption) : Z := Z.shiftl 1 (optionIndex o).

Definition NoOption : Z := 0.

Definition RuleOptions := Z.

Definition hasOption (flags : RuleOptions) (o : RuleOption) : bool :=
  testFlag flags (optionBit o).

(** The match modes; [ContainsMatch] is the mode of a rule without anchors
    (the [default:] branch of [checkRuleMatch]). *)
Inductive RuleMatch := ContainsMatch | StartMatch | EndMatch | ExactMatch.

(** [Node::Rule] *)
Record Rule := mkRule {
  rule : QString;
  isException : bool;
  needsDomainCheck : bool;
  ruleMatch : RuleMatch;
  ruleOptions : RuleOptions;
  ruleExceptions : RuleOptions;
  blockedDomains : list QString;
  allowedDomains : list QString
}.

(** [Node]: a character, the children in order, the rules that end here.
    The induction principle that reaches the children is [Node_ind'] below. *)
#[local] Unset Elimination Schemes.
Inductive Node := mkNode {
  value : QChar;
  children : list Node;
  rules : list Rule
}.

#[local] Set Elimination Schemes.

(** [new Node()] *)
Definition newNode : Node := mkNode zero [] [].

(** [m_options] *)
Definition m_options : list (QString * RuleOption) :=
  [ (qs "third-party", ThirdPartyOption);
    (qs "stylesheet", StyleSheetOption);
    (qs "image", ImageOption);
    (qs "script", ScriptOption);
    (qs "object", ObjectOption);
    (qs "object-subrequest", ObjectSubRequestOption);
    (qs "object_subrequest", ObjectSubRequestOption);
    (qs "subdocument", SubDocumentOption);
    (qs "xmlhttprequest", XmlHttpRequestOption);
    (qs "websocket", WebSocketOption);
    (qs "popup", PopupOption);
    (qs "elemhide", ElementHideOption);
    (qs "generichide", GenericHideOption) ].

(** [m_options.contains(name)] and [m_options.value(name)] in one lookup. *)
Fixpoint lookupOption (table : list (QString * RuleOption)) (name : QString)
  : option RuleOption :=
  match table with
  | [] => None
  | (key, o) :: table' =>
      if QString_eqb key name then Some o else lookupOption table' name
  end.

(** [m_separators] *)
Definition m_separators : list QChar :=
  ["_"%char; "-"%char; "."%char; "%"%char].

Definition isSeparatorPlace (c : QChar) : bool :=
  negb (isDigit c) && negb (isLetter c)
  && negb (existsb (Ascii.eqb c) m_separators).

(* ================================================================= *)
(** ** The profile object *)

Inductive CosmeticFiltersMode := NoFilters | DomainOnlyFilters | AllFilters.

(** What the parser asks of [ContentFiltersManager]. *)
Record Settings := mkSettings {
  getCosmeticFiltersMode : CosmeticFiltersMode;
  areWildcardsEnabled : bool
}.

Inductive ProfileError :=
| NoError | ReadError | DownloadError | ChecksumError | ParseError.

Inductive QUrl :=
| EmptyUrl
| InvalidUrl (text : QString)
| ValidUrl (text : QString).

Definition urlIsValid (u : QUrl) : bool :=
  match u with ValidUrl _ => true | _ => false end.

Definition urlIsEmpty (u : QUrl) : bool :=
  match u with EmptyUrl => true | _ => false end.

(** A [QDateTime]: [None] is the invalid date, [Some d] a day count. *)
Definition QDateTime := option Z.

(** Modelled from the spec: the enumerators of [ProfileFlags] are declared
    in ContentFiltersProfile.h; the spec lists a custom-title and a
    custom-update-URL flag, each taken here as one bit. *)
Definition NoFlags : Z := 0.
Definition HasCustomTitleFlag : Z := 1.
Definition HasCustomUpdateUrlFlag : Z := 2.

(** The members of [AdblockContentFiltersProfile].  [m_root] is only read
    while [m_wasLoaded] holds ([loadRules] allocates it); [m_dataFetchJob]
    is [Some url] while a fetch of [url] is in flight; [console] collects
    the messages [raiseError] hands to [Console::addMessage]. *)
Record Profile := mkProfile {
  m_root : Node;
  m_cosmeticFiltersRules : list QString;
  m_cosmeticFiltersDomainRules : list (QString * QString);
  m_cosmeticFiltersDomainExceptions : list (QString * QString);
  m_dataFetchJob : option QUrl;
  m_name : QString;
  m_title : QString;
  m_updateUrl : QUrl;
  m_lastUpdate : QDateTime;
  m_languages : list Z;
  m_category : Z;
  m_error : ProfileError;
  m_flags : Z;
  m_updateInterval : Z;
  m_isEmpty : bool;
  m_wasLoaded : bool;
  console : list ProfileError
}.

Definition set_root (n : Node) (p : Profile) : Profile :=
  mkProfile n (m_cosmeticFiltersRules p) (m_cosmeticFiltersDomainRules p)
    (m_cosmeticFiltersDomainExceptions p) (m_dataFetchJob p) (m_name p)
    (m_title p) (m_updateUrl p) (m_lastUpdate p) (m_languages p)
    (m_category p) (m_error p) (m_flags p) (m_updateInterval p)
    (m_isEmpty p) (m_wasLoaded p) (console p).

Definition set_cosmeticFiltersRules (l : list QString) (p : Profile) : Profile :=
  mkProfile (m_root p) l (m_cosmeticFiltersDomainRules p)
    (m_cosmeticFiltersDomainExceptions p) (m_dataFetchJob p) (m_name p)
    (m_title p) (m_updateUrl p) (m_lastUpdate p) (m_languages p)
    (m_category p) (m_error p) (m_flags p) (m_updateInterval p)
    (m_isEmpty p) (m_wasLoaded p) (console p).

Definition set_cosmeticFiltersDomainRules (l : list (QString * QString))
  (p : Profile) : Profile :=
  mkProfile (m_root p) (m_cosmeticFiltersRules p) l
    (m_cosmeticFiltersDomainExceptions p) (m_dataFetchJob p) (m_name p)
    (m_title p) (m_updateUrl p) (m_lastUpdate p) (m_languages p)
    (m_category p) (m_error p) (m_flags p) (m_updateInterval p)
    (m_isEmpty p) (m_wasLoaded p) (console p).

Definition set_cosmeticFiltersDomainExceptions (l : list (QString * QString))
  (p : Profile) : Profile :=
  mkProfile (m_root p) (m_cosmeticFiltersRules p)
    (m_cosmeticFiltersDomainRules p) l (m_dataFetchJob p) (m_name p)
    (m_title p) (m_updateUrl p) (m_lastUpdate p) (m_languages p)
    (m_category p) (m_error p) (m_flags p) (m_updateInterval p)
    (m_isEmpty p) (m_wasLoaded p) (console p).

Definition set_dataFetchJob (j : option QUrl) (p : Profile) : Profile :=
  mkProfile (m_root p) (m_cosmeticFiltersRules p)
    (m_cosmeticFiltersDomainRules p) (m_cosmeticFiltersDomainExceptions p)
    j (m_name p) (m_title p) (m_updateUrl p) (m_lastUpdate p)
    (m_languages p) (m_category p) (m_error p) (m_flags p)
    (m_updateInterval p) (m_isEmpty p) (m_wasLoaded p) (console p).

Definition set_title (t : QString) (p : Profile) : Profile :=
  mkProfile (m_root p) (m_cosmeticFiltersRules p)
    (m_cosmeticFiltersDomainRules p) (m_cosmeticFiltersDomainExceptions p)
    (m_dataFetchJob p) (m_name p) t (m_updateUrl p) (m_lastUpdate p)
    (m_languages p) (m_category p) (m_error p) (m_flags p)
    (m_updateInterval p) (m_isEmpty p) (m_wasLoaded p) (console p).

Definition set_lastUpdate (d : QDateTime) (p : Profile) : Profile :=
  mkProfile (m_root p) (m_cosmeticFiltersRules p)
    (m_cosmeticFiltersDomainRules p) (m_cosmeticFiltersDomainExceptions p)
    (m_dataFetchJob p) (m_name p) (m_title p) (m_updateUrl p) d
    (m_languages p) (m_category p) (m_error p) (m_flags p)
    (m_updateInterval p) (m_isEmpty p) (m_wasLoaded p) (console p).

Definition set_error (e : ProfileError) (p : Profile) : Profile :=
  mkProfile (m_root p) (m_cosmeticFiltersRules p)
    (m_cosmeticFiltersDomainRules p) (m_cosmeticFiltersDomainExceptions p)
    (m_dataFetchJob p) (m_name p) (m_title p) (m_updateUrl p)
    (m_lastUpdate p) (m_languages p) (m_category p) e (m_flags p)
    (m_updateInterval p) (m_isEmpty p) (m_wasLoaded p) (console p).

Definition set_isEmpty (b : bool) (p : Profile) : Profile :=
  mkProfile (m_root p) (m_cosmeticFiltersRules p)
    (m_cosmeticFiltersDomainRules p) (m_cosmeticFiltersDomainExceptions p)
    (m_dataFetchJob p) (m_name p) (m_title p) (m_updateUrl p)
    (m_lastUpdate p) (m_languages p) (m_category p) (m_error p) (m_flags p)
    (m_updateInterval p) b (m_wasLoaded p) (console p).

Definition set_wasLoaded (b : bool) (p : Profile) : Profile :=
  mkProfile (m_root p) (m_cosmeticFiltersRules p)
    (m_cosmeticFiltersDomainRules p) (m_cosmeticFiltersDomainExceptions p)
    (m_dataFetchJob p) (m_name p) (m_title p) (m_updateUrl p)
    (m_lastUpdate p) (m_languages p) (m_category p) (m_error p) (m_flags p)
    (m_updateInterval p) (m_isEmpty p) b (console p).

Definition add_console (e : ProfileError) (p : Profile) : Profile :=
  mkProfile (m_root p) (m_cosmeticFiltersRules p)
    (m_cosmeticFiltersDomainRules p) (m_cosmeticFiltersDomainExceptions p)
    (m_dataFetchJob p) (m_name p) (m_title p) (m_updateUrl p)
    (m_lastUpdate p) (m_languages p) (m_category p) (m_error p) (m_flags p)
    (m_updateInterval p) (m_isEmpty p) (m_wasLoaded p) (console p ++ [e]).

(* ================================================================= *)
(** ** The parser: [parseRuleLine] *)

Definition addOption (o : RuleOption) (d : Rule) : Rule :=
  mkRule (rule d) (isException d) (needsDomainCheck d) (ruleMatch d)
    (Z.lor (ruleOptions d) (optionBit o)) (ruleExceptions d)
    (blockedDomains d) (allowedDomains d).

Definition addException (o : RuleOption) (d : Rule) : Rule :=
  mkRule (rule d) (isException d) (needsDomainCheck d) (ruleMatch d)
    (ruleOptions d) (Z.lor (ruleExceptions d) (optionBit o))
    (blockedDomains d) (allowedDomains d).

Definition addBlockedDomain (domain : QString) (d : Rule) : Rule :=
  mkRule (rule d) (isException d) (needsDomainCheck d) (ruleMatch d)
    (ruleOptions d) (ruleExceptions d)
    (blockedDomains d ++ [domain]) (allowedDomains d).

Definition addAllowedDomain (domain : QString) (d : Rule) : Rule :=
  mkRule (rule d) (isException d) (needsDomainCheck d) (ruleMatch d)
    (ruleOptions d) (ruleExceptions d)
    (blockedDomains d) (allowedDomains d ++ [domain]).

(** Lines 295-305: the entries of a [domain=] option. *)
Fixpoint parseDomains (parsedDomains : list QString) (d : Rule) : Rule :=
  match parsedDomains with
  | [] => d
  | domain :: rest =>
      if startsWith domain (qs "~")
      then parseDomains rest (addAllowedDomain (mid domain 1) d)
      else parseDomains rest (addBlockedDomain domain d)
  end.

Definition isHideOption (o : RuleOption) : bool :=
  RuleOption_eqb o ElementHideOption || RuleOption_eqb o GenericHideOption.

(** Lines 268-311: the loop over the option tokens.  [None] is the
    [return] that discards the line on an unknown token. *)
Fixpoint parseOptions (options : list QString) (d : Rule) : option Rule :=
  match options with
  | [] => Some d
  | token :: rest =>
      let optionException := startsWith token (qs "~") in
      let optionName := if optionException then mid token 1 else token in
      match lookupOption m_options optionName with
      | Some o =>
          if (negb (isException d) || optionException) && isHideOption o
          then parseOptions rest d
          else if negb optionException
          then parseOptions rest (addOption o d)
          else if negb (RuleOption_eqb o WebSocketOption)
                  && negb (RuleOption_eqb o PopupOption)
          then parseOptions rest (addException o d)
          else parseOptions rest d
      | None =>
          if startsWith optionName (qs "domain")
          then
            let parsedDomains :=
              splitSkipEmpty "|"%char (mid token (indexOf token "="%char + 1)) in
            parseOptions rest (parseDomains parsedDomains d)
          else None
      end
  end.

(** Lines 214-311: from the raw line to the rule and the residual pattern
    that is inserted into the trie; [None] when the line is dropped. *)
Definition parseNetworkRule (wildcards : bool) (raw : QString)
  : option (Rule * QString) :=
  let optionsSeparator := indexOf raw "$"%char in
  let options :=
    if 0 <=? optionsSeparator
    then splitSkipEmpty ","%char (mid raw (optionsSeparator + 1))
    else [] in
  let line := raw in
  let line := if 0 <=? optionsSeparator then left line optionsSeparator else line in
  let line :=
    if endsWith line (qs "*")
    then left line (Z.of_nat (List.length line) - 1) else line in
  let line := if startsWith line (qs "*") then mid line 1 else line in
  if negb wildcards && contains line (qs "*") then None
  else
    let exception := startsWith line (qs "@@") in
    let line := if exception then mid line 2 else line in
    let domainCheck := startsWith line (qs "||") in
    let line := if domainCheck then mid line 2 else line in
    let startAnchor := startsWith line (qs "|") in
    let mode := if startAnchor then StartMatch else ContainsMatch in
    let line := if startAnchor then mid line 1 else line in
    let endAnchor := endsWith line (qs "|") in
    let mode :=
      if endAnchor
      then match mode with StartMatch => ExactMatch | _ => EndMatch end
      else mode in
    let line :=
      if endAnchor then left line (Z.of_nat (List.length line) - 1) else line in
    (* new Node::Rule() with the fields set so far; no option, no domain *)
    let definition :=
      mkRule raw exception domainCheck mode NoOption NoOption [] [] in
    match parseOptions options definition with
    | Some definition => Some (definition, line)
    | None => None
    end.

(** Lines 320-332: the first child that carries [c] is replaced by its
    image under [f]; [None] when no child carries [c]. *)
Fixpoint descendChild (f : Node -> Node) (c : QChar) (cs : list Node)
  : option (list Node) :=
  match cs with
  | [] => None
  | nextNode :: cs' =>
      if Ascii.eqb (value nextNode) c then Some (f nextNode :: cs')
      else option_map (cons nextNode) (descendChild f c cs')
  end.

(** Lines 313-352: the walk that creates the missing nodes and appends the
    rule to the last one.  A new '^' child goes first, any other last. *)
Fixpoint insertRule (node : Node) (line : QString) (definition : Rule) : Node :=
  match line with
  | [] => mkNode (value node) (children node) (rules node ++ [definition])
  | c :: line' =>
      match descendChild (fun n => insertRule n line' definition) c
              (children node) with
      | Some cs => mkNode (value node) cs (rules node)
      | None =>
          let created := insertRule (mkNode c [] []) line' definition in
          if Ascii.eqb c "^"%char
          then mkNode (value node) (created :: children node) (rules node)
          else mkNode (value node) (children node ++ [created]) (rules node)
      end
  end.

(** [parseStyleSheetRule]: every domain of the left part is bound to the
    selector; [QMultiHash::insert] puts the newest binding first. *)
Definition parseStyleSheetRule (line : list QString)
  (table : list (QString * QString)) : list (QString * QString) :=
  let domains := split ","%char (nth 0 line []) in
  fold_left (fun acc domain => (domain, nth 1 line []) :: acc) domains table.

(** [parseRuleLine] *)
Definition parseRuleLine (settings : Settings) (raw : QString) (p : Profile)
  : Profile :=
  if isEmpty raw || (indexOf raw "!"%char =? 0) then p
  else if startsWith raw (qs "##") then
    match getCosmeticFiltersMode settings with
    | AllFilters =>
        set_cosmeticFiltersRules (m_cosmeticFiltersRules p ++ [mid raw 2]) p
    | _ => p
    end
  else if contains raw (qs "##") then
    match getCosmeticFiltersMode settings with
    | NoFilters => p
    | _ =>
        set_cosmeticFiltersDomainRules
          (parseStyleSheetRule (splitString (qs "##") raw)
             (m_cosmeticFiltersDomainRules p)) p
    end
  else if contains raw (qs "#@#") then
    match getCosmeticFiltersMode settings with
    | NoFilters => p
    | _ =>
        set_cosmeticFiltersDomainExceptions
          (parseStyleSheetRule (splitString (qs "#@#") raw)
             (m_cosmeticFiltersDomainExceptions p)) p
    end
  else
    match parseNetworkRule (areWildcardsEnabled settings) raw with
    | Some (definition, line) =>
        set_root (insertRule (m_root p) line definition) p
    | None => p
    end.

(* ================================================================= *)
(** ** The matcher *)

Inductive ResourceType :=
| OtherType | MainFrameType | SubFrameType | PopupType | StyleSheetType
| ScriptType | ImageType | ObjectType | ObjectSubrequestType
| XmlHttpRequestType | WebSocketType.

Definition ResourceType_eqb (a b : ResourceType) : bool :=
  match a, b with
  | OtherType, OtherType | MainFrameType, MainFrameType
  | SubFrameType, SubFrameType | PopupType, PopupType
  | StyleSheetType, StyleSheetType | ScriptType, ScriptType
  | ImageType, ImageType | ObjectType, ObjectType
  | ObjectSubrequestType, ObjectSubrequestType
  | XmlHttpRequestType, XmlHttpRequestType
  | WebSocketType, WebSocketType => true
  | _, _ => false
  end.

(** [m_resourceTypes], in the order of its initialiser. *)
Definition m_resourceTypes : list (ResourceType * RuleOption) :=
  [ (ImageType, ImageOption);
    (ScriptType, ScriptOption);
    (StyleSheetType, StyleSheetOption);
    (ObjectType, ObjectOption);
    (XmlHttpRequestType, XmlHttpRequestOption);
    (SubFrameType, SubDocumentOption);
    (PopupType, PopupOption);
    (ObjectSubrequestType, ObjectSubRequestOption);
    (WebSocketType, WebSocketOption) ].

(** The [Request] the matcher works on: the request URL as a string, the
    host of the request and the host of the page that issued it. *)
Record Request := mkRequest {
  requestUrl : QString;
  requestHost : QString;
  baseHost : QString;
  resourceType : ResourceType
}.

Module CheckResult.
(** Modelled from the spec: [ContentFiltersManager::CheckResult] is declared
    in ContentFiltersManager.h; the spec gives it the fields below, the
    cosmetic mode being an optional override. *)
Record t := mk {
  rule : QString;
  comesticFiltersMode : option CosmeticFiltersMode;
  isBlocked : bool;
  isException : bool
}.

(** The default-constructed result, [{}]: the request passes. *)
Definition pass : t := mk [] None false false.
End CheckResult.

(** Modelled from the spec: [ContentFiltersManager::createSubdomainList] is
    not part of this file; the spec describes it as the list of the host's
    suffixes at label boundaries (for a.b.c: a.b.c, b.c, c). *)
Fixpoint hostSuffixes (host : QString) : list QString :=
  match host with
  | [] => []
  | c :: host' =>
      if Ascii.eqb c "."%char then host' :: hostSuffixes host'
      else hostSuffixes host'
  end.

Definition createSubdomainList (host : QString) : list QString :=
  host :: hostSuffixes host.

(** [m_domainExpression], the character class [[:?&/=]]. *)
Definition m_domainExpression (c : QChar) : bool :=
  existsb (Ascii.eqb c) [":"%char; "?"%char; "&"%char; "/"%char; "="%char].

(** [resolveDomainExceptions] *)
Definition resolveDomainExceptions (url : QString) (ruleList : list QString)
  : bool :=
  existsb (fun domain => contains url domain) ruleList.

(** Lines 560-579: one entry of [m_resourceTypes]. *)
Definition resourceTypeStep (d : Rule) (request : Request) (isBlocked : bool)
  (entry : ResourceType * RuleOption) : bool :=
  let (key, option) := entry in
  let supportsException :=
    negb (RuleOption_eqb option WebSocketOption)
    && negb (RuleOption_eqb option PopupOption) in
  if hasOption (ruleOptions d) option
     || (supportsException && hasOption (ruleExceptions d) option)
  then
    if ResourceType_eqb (resourceType request) key
    then (if isBlocked then hasOption (ruleOptions d) option else isBlocked)
    else if supportsException
    then (if isBlocked then hasOption (ruleExceptions d) option else isBlocked)
    else false
  else isBlocked.

(** Lines 489-519: the test of the match mode. *)
Definition patternMatches (d : Rule) (currentRule : QString) (request : Request)
  : bool :=
  match ruleMatch d with
  | StartMatch => startsWith (requestUrl request) currentRule
  | EndMatch => endsWith (requestUrl request) currentRule
  | ExactMatch => QString_eqb (requestUrl request) currentRule
  | ContainsMatch => contains (requestUrl request) currentRule
  end.

(** [checkRuleMatch] *)
Definition checkRuleMatch (d : Rule) (currentRule : QString) (request : Request)
  : CheckResult.t :=
  if negb (patternMatches d currentRule request) then CheckResult.pass
  else
    let requestSubdomainList := createSubdomainList (requestHost request) in
    if needsDomainCheck d
       && negb (listContains requestSubdomainList
                  (left currentRule (indexOfFrom m_domainExpression currentRule 0)))
    then CheckResult.pass
    else
      let hasBlockedDomains := negb (Nat.eqb (List.length (blockedDomains d)) 0) in
      let hasAllowedDomains := negb (Nat.eqb (List.length (allowedDomains d)) 0) in
      let isBlocked :=
        if hasBlockedDomains
        then resolveDomainExceptions (baseHost request) (blockedDomains d)
        else true in
      if hasBlockedDomains && negb isBlocked then CheckResult.pass
      else
        let isBlocked :=
          if hasAllowedDomains
          then negb (resolveDomainExceptions (baseHost request) (allowedDomains d))
          else isBlocked in
        let isBlocked :=
          if hasOption (ruleOptions d) ThirdPartyOption
             || hasOption (ruleExceptions d) ThirdPartyOption
          then
            if isEmpty (baseHost request)
               || listContains requestSubdomainList (baseHost request)
            then hasOption (ruleExceptions d) ThirdPartyOption
            else if negb hasBlockedDomains && negb hasAllowedDomains
            then hasOption (ruleOptions d) ThirdPartyOption
            else isBlocked
          else isBlocked in
        let isBlocked :=
          if negb (ruleOptions d =? NoOption) || negb (ruleExceptions d =? NoOption)
          then fold_left (resourceTypeStep d request) m_resourceTypes isBlocked
          else if ResourceType_eqb (resourceType request) PopupType
          then false
          else isBlocked in
        if isBlocked
        then
          if isException d
          then
            CheckResult.mk (rule d)
              (if hasOption (ruleOptions d) ElementHideOption
               then Some NoFilters
               else if hasOption (ruleOptions d) GenericHideOption
               then Some DomainOnlyFilters
               else None)
              false true
          else CheckResult.mk (rule d) None true false
        else CheckResult.pass.

(** The idiom that follows every evaluation in the matcher:
    [if (currentResult.isBlocked) result = currentResult;
     else if (currentResult.isException) return currentResult;] *)
Inductive Flow :=
| Returned (r : CheckResult.t)
| Running (result : CheckResult.t).

Definition absorb (result currentResult : CheckResult.t) : Flow :=
  if CheckResult.isBlocked currentResult then Running currentResult
  else if CheckResult.isException currentResult then Returned currentResult
  else Running result.

(** [evaluateNodeRules]: the loop over [node->rules] (the entries are never
    null), then the function itself. *)
Fixpoint evaluateRules (rs : list Rule) (currentRule : QString)
  (request : Request) (result : CheckResult.t) : CheckResult.t :=
  match rs with
  | [] => result
  | d :: rs' =>
      match absorb result (checkRuleMatch d currentRule request) with
      | Returned r => r
      | Running result' => evaluateRules rs' currentRule request result'
      end
  end.

Definition evaluateNodeRules (node : Node) (currentRule : QString)
  (request : Request) : CheckResult.t :=
  evaluateRules (rules node) currentRule request CheckResult.pass.

(** Lines 407-421: the wildcard child is tried on every suffix of the
    unread slice, [k] running over [0 .. length - 1]; [check] is the
    recursive call on the wildcard child. *)
Fixpoint wildcardLoop (check : QString -> QString -> CheckResult.t)
  (wildcardSubString currentRule : QString) (ks : list nat)
  (result : CheckResult.t) : Flow :=
  match ks with
  | [] => Running result
  | k :: ks' =>
      match absorb result
              (check (right wildcardSubString
                        (Z.of_nat (List.length wildcardSubString) - Z.of_nat k))
                     (currentRule ++ left wildcardSubString (Z.of_nat k))) with
      | Returned r => Returned r
      | Running result' =>
          wildcardLoop check wildcardSubString currentRule ks' result'
      end
  end.

(** Lines 467-482: once more the rules of [node] for every '^' child. *)
Fixpoint separatorLoop (node : Node) (cs : list Node) (currentRule : QString)
  (request : Request) (result : CheckResult.t) : CheckResult.t :=
  match cs with
  | [] => result
  | child :: cs' =>
      if Ascii.eqb (value child) "^"%char
      then
        match absorb result (evaluateNodeRules node currentRule request) with
        | Returned r => r
        | Running result' => separatorLoop node cs' currentRule request result'
        end
      else separatorLoop node cs' currentRule request result
  end.

(** Lines 456-484: what happens once the slice is used up. *)
Definition finishSubstring (node : Node) (currentRule : QString)
  (request : Request) (result : CheckResult.t) : CheckResult.t :=
  match absorb result (evaluateNodeRules node currentRule request) with
  | Returned r => r
  | Running result' =>
      separatorLoop node (children node) currentRule request result'
  end.

(** The loop of [checkUrlSubstring] in the state [(node, subString.mid(i),
    currentRule, result)].  The inner [fix] is the loop over the children
    of the current node (lines 401-446). *)
Fixpoint descend (node : Node) (subString currentRule : QString)
  (request : Request) (result : CheckResult.t) {struct node} : CheckResult.t :=
  match subString with
  | [] => finishSubstring node currentRule request result
  | treeChar :: rest =>
      match absorb result (evaluateNodeRules node currentRule request) with
      | Returned r => r
      | Running result1 =>
          match node with
          | mkNode _ cs0 _ =>
              (fix childrenLoop (cs : list Node) (result : CheckResult.t)
                 {struct cs} : CheckResult.t :=
                 match cs with
                 | [] => result
                 | nextNode :: cs' =>
                     match
                       (if Ascii.eqb (value nextNode) "*"%char
                        then
                          wildcardLoop
                            (fun s cur => descend nextNode s cur request CheckResult.pass)
                            subString currentRule
                            (seq 0 (List.length subString)) result
                        else Running result)
                     with
                     | Returned r => r
                     | Running result2 =>
                         match
                           (if Ascii.eqb (value nextNode) "^"%char
                               && isSeparatorPlace treeChar
                            then
                              absorb result2
                                (descend nextNode subString currentRule request
                                   CheckResult.pass)
                            else Running result2)
                         with
                         | Returned r => r
                         | Running result3 =>
                             if Ascii.eqb (value nextNode) treeChar
                             then descend nextNode rest (currentRule ++ [treeChar])
                                    request result3
                             else childrenLoop cs' result3
                         end
                     end
                 end) cs0 result1
          end
      end
  end.

(** [checkUrlSubstring] *)
Definition checkUrlSubstring (node : Node) (subString currentRule : QString)
  (request : Request) : CheckResult.t :=
  descend node subString currentRule request CheckResult.pass.

(** Lines 816-830 of [checkUrl]: the trie is tried on every non-empty
    suffix of the request URL, [suffix] being [requestUrl.right(length - i)]. *)
Fixpoint checkUrlFrom (root : Node) (request : Request) (suffix : QString)
  (result : CheckResult.t) : CheckResult.t :=
  match suffix with
  | [] => result
  | _ :: suffix' =>
      match absorb result (checkUrlSubstring root suffix [] request) with
      | Returned r => r
      | Running result' => checkUrlFrom root request suffix' result'
      end
  end.

(* ================================================================= *)
(** ** The header scanner: [loadHeader(path)] *)

(** What the scanner finds at [getPath()]: nothing, a file that cannot be
    opened, or the lines [QTextStream::readLine] delivers. *)
Inductive FileState :=
| FileMissing
| FileUnreadable
| FileLines (lines : list QString).

(** [HeaderInformation]; the translated message texts are left out. *)
Module HeaderInformation.
Record t := mk {
  title : QString;
  error : ProfileError;
  isEmpty : bool
}.

(** A fresh [HeaderInformation]: no title, no error, and marked empty until
    the scan meets a line that is neither blank nor a comment. *)
Definition initial : t := mk [] NoError true.
End HeaderInformation.

Definition ProfileError_eqb (a b : ProfileError) : bool :=
  match a, b with
  | NoError, NoError | ReadError, ReadError | DownloadError, DownloadError
  | ChecksumError, ChecksumError | ParseError, ParseError => true
  | _, _ => false
  end.

(** Lines 146-170: the loop over the lines after the header.  [stream] is
    what the text stream still holds; the second component of the result
    is what it holds when the loop is left, so that the lines consumed by
    [readLine] can be counted. *)
Fixpoint scanLines (stream : list QString) (lineNumber : Z)
  (information : HeaderInformation.t) : HeaderInformation.t * list QString :=
  match stream with
  | [] => (information, [])
  | l :: stream' =>
      let line := trimmed l in
      let information :=
        if HeaderInformation.isEmpty information
           && negb (isEmpty line) && negb (startsWith line (qs "!"))
        then HeaderInformation.mk (HeaderInformation.title information)
               (HeaderInformation.error information) false
        else information in
      if startsWith line (qs "! Title: ")
      then
        scanLines stream' lineNumber
          (HeaderInformation.mk (trimmed (remove line (qs "! Title: ")))
             (HeaderInformation.error information)
             (HeaderInformation.isEmpty information))
      else if 50 <? lineNumber then (information, stream')
      else scanLines stream' (lineNumber + 1) information
  end.

(** Lines 133-174 on an opened file: the header line, then the loop. *)
Definition scanStream (stream : list QString)
  : HeaderInformation.t * list QString :=
  let header := hd [] stream in
  if negb (containsCaseInsensitive header (qs "[Adblock"))
  then (HeaderInformation.mk [] ParseError true, tl stream)
  else scanLines (tl stream) 1 HeaderInformation.initial.

(** [loadHeader(const QString &path)] *)
Definition loadHeaderPath (file : FileState) : HeaderInformation.t :=
  match file with
  | FileMissing => HeaderInformation.initial
  | FileUnreadable => HeaderInformation.mk [] ReadError true
  | FileLines lines => fst (scanStream lines)
  end.

(** The number of lines the scan takes from a file of [lines]. *)
Definition linesRead (lines : list QString) : nat :=
  (List.length lines - List.length (snd (scanStream lines)))%nat.

(* ================================================================= *)
(** ** The profile's life cycle *)

(** The surroundings of a call: the file system (by profile name, as
    [getPath] depends on [m_name] only), the clock in days, and whether the
    caller runs on the thread that owns the profile. *)
Record Env := mkEnv {
  files : QString -> FileState;
  currentDateTimeUtc : Z;
  onOwnThread : bool
}.

(** [raiseError] *)
Definition raiseError (error : ProfileError) (p : Profile) : Profile :=
  add_console error (set_error error p).

Definition hasJob (p : Profile) : bool :=
  match m_dataFetchJob p with Some _ => true | None => false end.

(** [update] *)
Definition update (env : Env) (url : QUrl) (p : Profile) : bool * Profile :=
  if hasJob p || negb (onOwnThread env) then (false, p)
  else
    let updateUrl := if urlIsValid url then url else m_updateUrl p in
    if negb (urlIsValid updateUrl) then (false, raiseError DownloadError p)
    else (true, set_dataFetchJob (Some updateUrl) p).

(** [loadHeader()] *)
Definition loadHeader (env : Env) (p : Profile) : Profile :=
  let information := loadHeaderPath (files env (m_name p)) in
  if negb (ProfileError_eqb (HeaderInformation.error information) NoError)
  then raiseError (HeaderInformation.error information) p
  else
    let p1 :=
      if negb (testFlag (m_flags p) HasCustomTitleFlag)
         && negb (isEmpty (HeaderInformation.title information))
      then set_title (HeaderInformation.title information) p
      else p in
    let p2 := set_isEmpty (HeaderInformation.isEmpty information) p1 in
    if negb (hasJob p2) && (0 <? m_updateInterval p2)
       && match m_lastUpdate p2 with
          | None => true
          | Some lastUpdate =>
              m_updateInterval p2 <? currentDateTimeUtc env - lastUpdate
          end
    then snd (update env EmptyUrl p2)
    else p2.

(** [clear] *)
Definition clear (p : Profile) : Profile :=
  if negb (m_wasLoaded p) then p
  else
    set_wasLoaded false
      (set_cosmeticFiltersDomainRules []
         (set_cosmeticFiltersDomainExceptions []
            (set_cosmeticFiltersRules [] p))).

(** [loadRules] *)
Definition loadRules (env : Env) (settings : Settings) (p : Profile)
  : bool * Profile :=
  let p := set_error NoError p in
  if m_isEmpty p && negb (urlIsEmpty (m_updateUrl p))
  then (false, snd (update env EmptyUrl p))
  else
    let p := set_wasLoaded true p in
    let stream :=
      match files env (m_name p) with
      | FileLines lines => tl lines
      | _ => []
      end in
    (true, fold_left (fun q line => parseRuleLine settings line q) stream
             (set_root newNode p)).

(** [checkUrl], on the [Request] built from its arguments. *)
Definition checkUrl (env : Env) (settings : Settings) (p : Profile)
  (request : Request) : CheckResult.t * Profile :=
  if m_wasLoaded p
  then (checkUrlFrom (m_root p) request (requestUrl request) CheckResult.pass, p)
  else
    let (loaded, p') := loadRules env settings p in
    if loaded
    then (checkUrlFrom (m_root p') request (requestUrl request) CheckResult.pass, p')
    else (CheckResult.pass, p').

(* ================================================================= *)
(** ** The update handler: [handleJobFinished] *)

(** [QString::toUtf8] on the Latin-1 range: one byte below U+0080, two
    bytes from there on. *)
Definition utf8 (c : QChar) : QByteArray :=
  let n := nat_of_ascii c in
  if (n <? 128)%nat then [byte_of_ascii c]
  else [byte_of_ascii (ascii_of_nat (192 + n / 64));
        byte_of_ascii (ascii_of_nat (128 + n mod 64))].

Definition toUtf8 (s : QString) : QByteArray := flat_map utf8 s.

(** [remove(pos, len)] of QString and QByteArray. *)
Definition removeAt {A : Type} (pos len : nat) (l : list A) : list A :=
  if (List.length l <=? pos)%nat then l
  else firstn pos l ++ skipn (pos + len) l.

(** Lines 659-674: the loop that builds the buffer [data] and captures
    [checksum]. *)
Fixpoint readBody (stream : list QString) (data checksum : QByteArray)
  : QByteArray * QByteArray :=
  match stream with
  | [] => (data, checksum)
  | line :: stream' =>
      if negb (isEmpty line)
      then
        if Nat.eqb (List.length checksum) 0
           && startsWith line (qs "! Checksum:")
        then readBody stream' data (toUtf8 (trimmed (removeAt 0 11 line)))
        else readBody stream' (data ++ toUtf8 ("010"%char :: line)) checksum
      else readBody stream' data checksum
  end.

Definition QByteArray_eqb (a b : QByteArray) : bool :=
  if list_eq_dec Byte.byte_eq_dec a b then true else false.

(** What the finished job delivers: its success flag, the lines of its
    device, and whether the save file can be opened for writing. *)
Record Download := mkDownload {
  isSuccess : bool;
  deviceLines : list QString;
  canOpenSaveFile : bool
}.

(** The buffer handed to [QSaveFile::write] for a response, and the
    checksum the response declares (empty when it declares none). *)
Definition canonicalBuffer (lines : list QString) : QByteArray :=
  fst (readBody (tl lines) (toUtf8 (hd [] lines)) []).

Definition declaredChecksum (lines : list QString) : QByteArray :=
  snd (readBody (tl lines) (toUtf8 (hd [] lines)) []).

Section Update.

(** [QCryptographicHash::hash(data, QCryptographicHash::Md5).toBase64()],
    a function of the Qt library. *)
Variable md5Base64 : QByteArray -> QByteArray.

(** Line 676: the test that raises [ChecksumError]. *)
Definition checksumMismatch (data checksum : QByteArray) : bool :=
  negb (Nat.eqb (List.length checksum) 0)
  && negb (QByteArray_eqb (removeAt 22 2 (md5Base64 data)) checksum).

(** [handleJobFinished].  [env] is the world as the re-scan of line 704
    finds it, that is with the file the handler has just saved. *)
Definition handleJobFinished (env : Env) (settings : Settings)
  (job : Download) (p : Profile) : Profile :=
  if negb (hasJob p) then p
  else
    let p := set_dataFetchJob None p in
    if negb (isSuccess job) then raiseError DownloadError p
    else
      let header := hd [] (deviceLines job) in
      if negb (contains header (qs "[Adblock")) then raiseError ParseError p
      else
        let data := canonicalBuffer (deviceLines job) in
        let checksum := declaredChecksum (deviceLines job) in
        if checksumMismatch data checksum then raiseError ChecksumError p
        else if negb (canOpenSaveFile job) then raiseError DownloadError p
        else
          let p := set_lastUpdate (Some (currentDateTimeUtc env)) p in
          let p := clear p in
          let p := loadHeader env p in
          if m_wasLoaded p then snd (loadRules env settings p) else p.

End Update.

(* ================================================================= *)
(** ** The walk of the matcher, as a sequence of rule evaluations *)

(** Which children are followed depends on the trie and on the URL only,
    never on the results of the rules met on the way.  The functions below
    list, in the order of the source, every evaluation
    [checkRuleMatch(rule, currentRule, request)] that a walk performs when
    no [return] cuts it short: a [Visit] is the rule and the accumulated
    text it is tried on. *)
Definition Visit := (Rule * QString)%type.

Definition nodeVisits (node : Node) (currentRule : QString) : list Visit :=
  map (fun d => (d, currentRule)) (rules node).

Fixpoint wildcardVisits (visits : QString -> QString -> list Visit)
  (wildcardSubString currentRule : QString) (ks : list nat) : list Visit :=
  match ks with
  | [] => []
  | k :: ks' =>
      visits (right wildcardSubString
                (Z.of_nat (List.length wildcardSubString) - Z.of_nat k))
             (currentRule ++ left wildcardSubString (Z.of_nat k))
      ++ wildcardVisits visits wildcardSubString currentRule ks'
  end.

Fixpoint separatorVisits (node : Node) (cs : list Node) (currentRule : QString)
  : list Visit :=
  match cs with
  | [] => []
  | child :: cs' =>
      (if Ascii.eqb (value child) "^"%char then nodeVisits node currentRule
       else [])
      ++ separatorVisits node cs' currentRule
  end.

Definition finishVisits (node : Node) (currentRule : QString) : list Visit :=
  nodeVisits node currentRule
  ++ separatorVisits node (children node) currentRule.

Fixpoint descendVisits (node : Node) (subString currentRule : QString)
  {struct node} : list Visit :=
  match subString with
  | [] => finishVisits node currentRule
  | treeChar :: rest =>
      nodeVisits node currentRule ++
      match node with
      | mkNode _ cs0 _ =>
          (fix childrenVisits (cs : list Node) {struct cs} : list Visit :=
             match cs with
             | [] => []
             | nextNode :: cs' =>
                 (if Ascii.eqb (value nextNode) "*"%char
                  then wildcardVisits (descendVisits nextNode) subString
                         currentRule (seq 0 (List.length subString))
                  else [])
                 ++ (if Ascii.eqb (value nextNode) "^"%char
                        && isSeparatorPlace treeChar
                     then descendVisits nextNode subString currentRule
                     else [])
                 ++ (if Ascii.eqb (value nextNode) treeChar
                     then descendVisits nextNode rest (currentRule ++ [treeChar])
                     else childrenVisits cs')
             end) cs0
      end
  end.

Fixpoint checkUrlVisits (root : Node) (suffix : QString) : list Visit :=
  match suffix with
  | [] => []
  | _ :: suffix' =>
      descendVisits root suffix [] ++ checkUrlVisits root suffix'
  end.

(** The result of one evaluation, and the results of the evaluations of a
    walk, in order. *)
Definition evaluate (request : Request) (v : Visit) : CheckResult.t :=
  checkRuleMatch (fst v) (snd v) request.

Definition walkResults (root : Node) (request : Request) : list CheckResult.t :=
  map (evaluate request) (checkUrlVisits root (requestUrl request)).

(** The decision the specification assigns to a sequence of results: the
    first exception if there is one, otherwise the most recent block,
    otherwise a pass. *)
Definition verdict (results : list CheckResult.t) : CheckResult.t :=
  match find CheckResult.isException results with
  | Some exception => exception
  | None => last (filter CheckResult.isBlocked results) CheckResult.pass
  end.

(** The source's way of combining results, run over a whole sequence. *)
Fixpoint settle (results : list CheckResult.t) (result : CheckResult.t) : Flow :=
  match results with
  | [] => Running result
  | r :: results' =>
      match absorb result r with
      | Returned x => Returned x
      | Running result' => settle results' result'
      end
  end.

Definition outcome (f : Flow) : CheckResult.t :=
  match f with
  | Returned r => r
  | Running r => r
  end.

(** Every rule stored in a trie. *)
Fixpoint allRules (node : Node) : list Rule :=
  match node with
  | mkNode _ cs rs =>
      rs ++ (fix childrenRules (l : list Node) : list Rule :=
               match l with
               | [] => []
               | child :: l' => allRules child ++ childrenRules l'
               end) cs
  end.

(** Induction over a trie, with the hypothesis for every child. *)
Section NodeInduction.

Variable P : Node -> Prop.
Hypothesis step : forall v cs rs, Forall P cs -> P (mkNode v cs rs).

Fixpoint Node_ind' (node : Node) : P node :=
  match node with
  | mkNode v cs rs =>
      step v cs rs
        ((fix all (l : list Node) : Forall P l :=
            match l with
            | [] => Forall_nil P
            | child :: l' => Forall_cons child (Node_ind' child) (all l')
            end) cs)
  end.

End NodeInduction.

(* ================================================================= *)
(** ** Vocabulary for the statements about [checkRuleMatch] *)

(** A result that is not a pass: the rule blocks the request or, for an
    exception rule, allows it explicitly. *)
Definition applies (r : CheckResult.t) : bool :=
  CheckResult.isBlocked r || CheckResult.isException r.




(** The options that stand for a resource type. *)
Definition isTypeOption (o : RuleOption) : bool :=
  existsb (fun entry => RuleOption_eqb (snd entry) o) m_resourceTypes.

(** Lines 560-579 started on a decision that is still "blocked": whether
    the resource-type options of the rule admit the request. *)
Definition typesAllow (d : Rule) (request : Request) : bool :=
  fold_left (resourceTypeStep d request) m_resourceTypes true.

(* ================================================================= *)
(** ** Vocabulary for the statements about the parser *)

(** Lines 179-212 of [parseRuleLine]: the line is neither blank, nor a
    comment, nor a cosmetic rule, so that it is parsed as a network rule. *)
Definition isNetworkLine (raw : QString) : bool :=
  negb (isEmpty raw || (indexOf raw "!"%char =? 0))
  && negb (startsWith raw (qs "##"))
  && negb (contains raw (qs "##"))
  && negb (contains raw (qs "#@#")).

(* ================================================================= *)
(** ** The canonical buffer as the specification words it *)

(** One line of the buffer: a line feed, then the line. *)
Definition bufferLine (line : QString) : QByteArray :=
  toUtf8 ("010"%char :: line).

(** The header line followed by every remaining line except those that
    begin with [! Checksum:]. *)
Definition canonicalBufferSpec (lines : list QString) : QByteArray :=
  toUtf8 (hd [] lines)
  ++ flat_map bufferLine
       (filter (fun line => negb (startsWith line (qs "! Checksum:")))
          (tl lines)).

(** The lines of a body that are not empty. *)
Definition nonEmptyLines (body : list QString) : list QString :=
  filter (fun line => negb (isEmpty line)) body.

(** The lines of a body that are neither empty nor checksum lines. *)
Definition plainLines (body : list QString) : list QString :=
  filter (fun line =>
            negb (isEmpty line) && negb (startsWith line (qs "! Checksum:")))
         body.

(** The value a checksum line declares. *)
Definition checksumValue (line : QString) : QString :=
  trimmed (removeAt 0 11 line).

(* ================================================================= *)
(** ** The ordering of siblings *)

(** Among the children of a node only the first may carry '^'. *)
Definition separatorFirst (cs : list Node) : bool :=
  forallb (fun child => negb (Ascii.eqb (value child) "^"%char)) (tl cs).

(** The ordering holds at every node of a trie. *)
Fixpoint wellOrdered (node : Node) : bool :=
  match node with
  | mkNode _ cs _ =>
      separatorFirst cs
      && (fix all (l : list Node) : bool :=
            match l with
            | [] => true
            | child :: l' => wellOrdered child && all l'
            end) cs
  end.

(* ================================================================= *)
(** ** Cosmetic filters: [getCosmeticFilters] *)

(** [QMultiHash::values(key)]: the values bound to [key], the most
    recently inserted first. *)
Definition valuesOf (table : list (QString * QString)) (key : QString)
  : list QString :=
  map snd (filter (fun entry => QString_eqb (fst entry) key) table).

(** [ContentFiltersManager::CosmeticFiltersResult] *)
Module CosmeticFiltersResult.
Record t := mk {
  rules : list QString;
  exceptions : list QString
}.
End CosmeticFiltersResult.

(** [getCosmeticFilters]: the rules are loaded first when they are not;
    the outcome of that load is not looked at. *)
Definition getCosmeticFilters (env : Env) (settings : Settings) (p : Profile)
  (domains : list QString) (isDomainOnly : bool)
  : CosmeticFiltersResult.t * Profile :=
  let p := if m_wasLoaded p then p else snd (loadRules env settings p) in
  (CosmeticFiltersResult.mk
     ((if isDomainOnly then [] else m_cosmeticFiltersRules p)
      ++ flat_map (valuesOf (m_cosmeticFiltersDomainRules p)) domains)
     (flat_map (valuesOf (m_cosmeticFiltersDomainExceptions p)) domains),
   p).

(* ================================================================= *)
(** ** Setters, getters and removal *)

Definition set_flags (f : Z) (p : Profile) : Profile :=
  mkProfile (m_root p) (m_cosmeticFiltersRules p)
    (m_cosmeticFiltersDomainRules p) (m_cosmeticFiltersDomainExceptions p)
    (m_dataFetchJob p) (m_name p) (m_title p) (m_updateUrl p)
    (m_lastUpdate p) (m_languages p) (m_category p) (m_error p) f
    (m_updateInterval p) (m_isEmpty p) (m_wasLoaded p) (console p).

Definition set_updateUrl (u : QUrl) (p : Profile) : Profile :=
  mkProfile (m_root p) (m_cosmeticFiltersRules p)
    (m_cosmeticFiltersDomainRules p) (m_cosmeticFiltersDomainExceptions p)
    (m_dataFetchJob p) (m_name p) (m_title p) u
    (m_lastUpdate p) (m_languages p) (m_category p) (m_error p) (m_flags p)
    (m_updateInterval p) (m_isEmpty p) (m_wasLoaded p) (console p).

Definition set_category (c : Z) (p : Profile) : Profile :=
  mkProfile (m_root p) (m_cosmeticFiltersRules p)
    (m_cosmeticFiltersDomainRules p) (m_cosmeticFiltersDomainExceptions p)
    (m_dataFetchJob p) (m_name p) (m_title p) (m_updateUrl p)
    (m_lastUpdate p) (m_languages p) c (m_error p) (m_flags p)
    (m_updateInterval p) (m_isEmpty p) (m_wasLoaded p) (console p).

Definition set_updateInterval (i : Z) (p : Profile) : Profile :=
  mkProfile (m_root p) (m_cosmeticFiltersRules p)
    (m_cosmeticFiltersDomainRules p) (m_cosmeticFiltersDomainExceptions p)
    (m_dataFetchJob p) (m_name p) (m_title p) (m_updateUrl p)
    (m_lastUpdate p) (m_languages p) (m_category p) (m_error p) (m_flags p)
    i (m_isEmpty p) (m_wasLoaded p) (console p).

Definition QUrl_eqb (a b : QUrl) : bool :=
  match a, b with
  | EmptyUrl, EmptyUrl => true
  | InvalidUrl s, InvalidUrl t => QString_eqb s t
  | ValidUrl s, ValidUrl t => QString_eqb s t
  | _, _ => false
  end.

(** [setUpdateInterval] *)
Definition setUpdateInterval (interval : Z) (p : Profile) : Profile :=
  if negb (interval =? m_updateInterval p) then set_updateInterval interval p
  else p.

(** [setUpdateUrl] *)
Definition setUpdateUrl (url : QUrl) (p : Profile) : Profile :=
  if urlIsValid url && negb (QUrl_eqb url (m_updateUrl p))
  then set_flags (Z.lor (m_flags p) HasCustomUpdateUrlFlag)
         (set_updateUrl url p)
  else p.

(** [setCategory] *)
Definition setCategory (category : Z) (p : Profile) : Profile :=
  if negb (category =? m_category p) then set_category category p else p.

(** [setTitle] *)
Definition setTitle (title : QString) (p : Profile) : Profile :=
  if negb (QString_eqb title (m_title p))
  then set_flags (Z.lor (m_flags p) HasCustomTitleFlag) (set_title title p)
  else p.

(** [getTitle], with the untranslated text of [tr("(Unknown)")]. *)
Definition getTitle (p : Profile) : QString :=
  if isEmpty (m_title p) then qs "(Unknown)" else m_title p.

(** [isUpdating] *)
Definition isUpdating (p : Profile) : bool := hasJob p.

(** [AdblockContentFiltersProfile::remove] (the name [remove] is taken by
    the string operation): the job in flight is cancelled and released,
    the file of the profile is deleted when it exists.  [removable] is the
    answer of [QFile::remove]; the result carries the file system
    afterwards. *)
Definition removeProfile (env : Env) (removable : bool) (p : Profile)
  : bool * Profile * Env :=
  let p' := if hasJob p then set_dataFetchJob None p else p in
  match files env (m_name p) with
  | FileMissing => (true, p', env)
  | _ =>
      if removable
      then (true, p',
            mkEnv (fun name =>
                     if QString_eqb name (m_name p) then FileMissing
                     else files env name)
                  (currentDateTimeUtc env) (onOwnThread env))
      else (false, p', env)
  end.

(* ================================================================= *)
(** ** The constructor *)

Section Construction.

(** [QLocale(name).language()] and [QLocale::AnyLanguage], from Qt. *)
Variable language : QString -> Z.
Variable AnyLanguage : Z.

(** The constructor of [AdblockContentFiltersProfile]: the members are
    initialised, then the header is scanned. *)
Definition construct (env : Env) (name title : QString) (updateUrl : QUrl)
  (lastUpdate : QDateTime) (languages : list QString) (updateInterval : Z)
  (category flags : Z) : Profile :=
  loadHeader env
    (mkProfile newNode [] [] [] None name title updateUrl lastUpdate
       (match languages with
        | [] => [AnyLanguage]
        | _ => map language languages
        end)
       category NoError flags updateInterval true false []).

End Construction.

(* ================================================================= *)
(** ** Vocabulary for the statements about the trie *)

(** The rules at the end of the path that spells [line], following at
    every node the first child that carries the character, as lines
    320-332 do; no rule when the path leaves the trie. *)
Fixpoint lookupPath (node : Node) (line : QString) : list Rule :=
  match line with
  | [] => rules node
  | c :: line' =>
      match find (fun child => Ascii.eqb (value child) c) (children node) with
      | Some child => lookupPath child line'
      | None => []
      end
  end.

(** The pattern holds neither '*' nor '^'. *)
Definition isLiteral (line : QString) : bool :=
  forallb (fun c => negb (Ascii.eqb c "*"%char) && negb (Ascii.eqb c "^"%char))
          line.

(** The tables of cosmetic rules are empty while the rules are not
    loaded. *)
Definition tablesEmptyWhileUnloaded (p : Profile) : Prop :=
  m_wasLoaded p = false ->
  m_cosmeticFiltersRules p = []
  /\ m_cosmeticFiltersDomainRules p = []
  /\ m_cosmeticFiltersDomainExceptions p = [].

(* ================================================================= *)
(** ** Vocabulary for the statements about cosmetic rules *)

(** The left part of a rule [ds##sel] or [ds#@#sel]: it is not empty, does
    not begin with '!' and holds no '#'. *)
Definition domainPart (ds : QString) : bool :=
  negb (isEmpty ds) && negb (startsWith ds (qs "!"))
  && forallb (fun c => negb (Ascii.eqb c "#"%char)) ds.

(** How many times [key] stands in a list of domains. *)
Definition occurrences (key : QString) (domains : list QString) : nat :=
  List.length (filter (QString_eqb key) domains).

(* ================================================================= *)
(** ** Vocabulary for the statements about the header scan *)

(** Line 150: the line, trimmed, is blank or a comment. *)
Definition holdsNoRule (l : QString) : bool :=
  isEmpty (trimmed l) || startsWith (trimmed l) (qs "!").

(* ================================================================= *)
(** ** Vocabulary for the statements about anchors *)

(** The characters the parser gives a meaning to. *)
Definition specialCharacters : list QChar :=
  ["$"%char; "*"%char; "^"%char; "|"%char; "#"%char; "!"%char; "@"%char].

(** A pattern that is not empty and holds none of them. *)
Definition plainPattern (p : QString) : bool :=
  negb (isEmpty p)
  && forallb (fun c => negb (existsb (Ascii.eqb c) specialCharacters)) p.

(** The line that asks for [p] as an exception ([@@]) or not, anchored at
    the start of the address ([|p]) or not, and at its end ([p|]) or
    not. *)
Definition anchored (exception startAnchor endAnchor : bool) (p : QString)
  : QString :=
  (if exception then qs "@@" else [])
  ++ (if startAnchor then qs "|" else [])
  ++ p
  ++ (if endAnchor then qs "|" else []).

(** What the anchors ask of the address. *)
Definition anchorsMatch (startAnchor endAnchor : bool) (url p : QString)
  : bool :=
  match startAnchor, endAnchor with
  | true, true => QString_eqb url p
  | true, false => startsWith url p
  | false, true => endsWith url p
  | false, false => contains url p
  end.

(* ================================================================= *)
(** ** Worked inputs *)

Definition settingsAll : Settings := mkSettings AllFilters true.

(** A loaded profile with an empty trie. *)
Definition loadedProfile : Profile :=
  mkProfile newNode [] [] [] None (qs "list") (qs "List") EmptyUrl None []
    0 NoError NoFlags 0 false true [].

(** The profile after the lines [raws] went through [parseRuleLine]. *)
Definition profileOf (raws : list QString) : Profile :=
  fold_left (fun p raw => parseRuleLine settingsAll raw p) raws loadedProfile.

Definition quietEnv : Env := mkEnv (fun _ => FileMissing) 0 true.

(* ================================================================= *)
(** * Properties *)

(** Case analysis on every condition of the goal. *)
Ltac case_conditions :=
  repeat match goal with
         | |- context [if ?c then _ else _] => destruct c
         end.

(** ** Strings *)

Lemma QString_eqb_eq (a b : QString) : QString_eqb a b = true <-> a = b.
Proof.
  revert b; induction a as [|x a IH]; intros [|y b]; simpl; split;
    try congruence; try discriminate.
  - intros H. apply andb_true_iff in H as [Hx Hab].
    apply Ascii.eqb_eq in Hx. apply IH in Hab. congruence.
  - intros H. injection H as -> ->.
    apply andb_true_iff; split; [apply Ascii.eqb_refl | now apply IH].
Qed.

Lemma startsWith_app (p s : QString) : startsWith (p ++ s) p = true.
Proof.
  induction p as [|c p IH]; simpl; [reflexivity|].
  now rewrite Ascii.eqb_refl, IH.
Qed.

Lemma startsWith_inv (s p : QString) :
  startsWith s p = true -> exists t, s = p ++ t.
Proof.
  revert s; induction p as [|c p IH]; intros s H; simpl in *.
  - now exists s.
  - destruct s as [|d s]; [discriminate|].
    apply andb_true_iff in H as [Hc Hs].
    apply Ascii.eqb_eq in Hc; subst d.
    destruct (IH _ Hs) as [t ->]. now exists t.
Qed.

Lemma startsWith_contains (s p : QString) :
  startsWith s p = true -> contains s p = true.
Proof. intros H. destruct s; simpl; now rewrite H. Qed.

Lemma contains_app (pre p post : QString) :
  contains (pre ++ p ++ post) p = true.
Proof.
  induction pre as [|c pre IH]; simpl.
  - apply startsWith_contains, startsWith_app.
  - rewrite IH. apply orb_true_r.
Qed.

Lemma contains_inv (s p : QString) :
  contains s p = true -> exists pre post, s = pre ++ p ++ post.
Proof.
  induction s as [|c s IH]; simpl; intros H.
  - rewrite orb_false_r in H. apply startsWith_inv in H as [t Ht].
    now exists [], t.
  - apply orb_true_iff in H as [H|H].
    + apply startsWith_inv in H as [t Ht]. now exists [], t.
    + destruct (IH H) as (pre & post & ->). now exists (c :: pre), post.
Qed.

(** ** Option flags *)

Lemma optionBit_pow (o : RuleOption) : optionBit o = 2 ^ optionIndex o.
Proof. unfold optionBit. apply Z.shiftl_1_l. Qed.

Lemma optionIndex_nonneg (o : RuleOption) : 0 <= optionIndex o.
Proof. destruct o; simpl; lia. Qed.

Lemma optionIndex_eqb (a b : RuleOption) :
  (optionIndex a =? optionIndex b) = RuleOption_eqb a b.
Proof. destruct a, b; reflexivity. Qed.

Lemma RuleOption_eqb_eq (a b : RuleOption) :
  RuleOption_eqb a b = true <-> a = b.
Proof. destruct a, b; simpl; split; congruence. Qed.

Lemma land_pow2 (f i : Z) :
  0 <= i -> Z.land f (2 ^ i) = if Z.testbit f i then 2 ^ i else 0.
Proof.
  intros Hi. apply Z.bits_inj'. intros n Hn.
  rewrite Z.land_spec, Z.pow2_bits_eqb by assumption.
  destruct (Z.eqb_spec i n) as [->|Hne].
  - rewrite andb_true_r. destruct (Z.testbit f n) eqn:E.
    + now rewrite Z.pow2_bits_eqb, Z.eqb_refl.
    + now rewrite Z.bits_0.
  - rewrite andb_false_r. destruct (Z.testbit f i).
    + rewrite Z.pow2_bits_eqb by assumption. symmetry. now apply Z.eqb_neq.
    + now rewrite Z.bits_0.
Qed.

Lemma hasOption_testbit (f : RuleOptions) (o : RuleOption) :
  hasOption f o = Z.testbit f (optionIndex o).
Proof.
  unfold hasOption, testFlag.
  rewrite optionBit_pow, land_pow2 by apply optionIndex_nonneg.
  assert (Hpos : 0 < 2 ^ optionIndex o)
    by (apply Z.pow_pos_nonneg; [lia | apply optionIndex_nonneg]).
  destruct (Z.testbit f (optionIndex o)).
  - rewrite Z.eqb_refl. simpl.
    destruct (Z.eqb_spec (2 ^ optionIndex o) 0); [lia | reflexivity].
  - destruct (Z.eqb_spec 0 (2 ^ optionIndex o)); [lia | reflexivity].
Qed.

Lemma hasOption_lor (f : RuleOptions) (added o : RuleOption) :
  hasOption (Z.lor f (optionBit added)) o
  = hasOption f o || RuleOption_eqb added o.
Proof.
  rewrite !hasOption_testbit, Z.lor_spec, optionBit_pow.
  rewrite Z.pow2_bits_eqb by apply optionIndex_nonneg.
  now rewrite optionIndex_eqb.
Qed.

Lemma hasOption_NoOption (o : RuleOption) : hasOption NoOption o = false.
Proof. destruct o; reflexivity. Qed.

(** ** The parser keeps the hide options off block rules *)

Lemma parseDomains_frame (domains : list QString) (d : Rule) :
  isException (parseDomains domains d) = isException d
  /\ ruleOptions (parseDomains domains d) = ruleOptions d
  /\ ruleExceptions (parseDomains domains d) = ruleExceptions d.
Proof.
  revert d; induction domains as [|domain rest IH]; intros d;
    cbn [parseDomains].
  - auto.
  - destruct (startsWith domain (qs "~")).
    + destruct (IH (addAllowedDomain (mid domain 1) d)) as (E1 & E2 & E3).
      rewrite E1, E2, E3. simpl. auto.
    + destruct (IH (addBlockedDomain domain d)) as (E1 & E2 & E3).
      rewrite E1, E2, E3. simpl. auto.
Qed.

Lemma parseOptions_hide (options : list QString) (d d' : Rule) :
  parseOptions options d = Some d' ->
  (forall o, isHideOption o = true ->
     (isException d = false -> hasOption (ruleOptions d) o = false)
     /\ hasOption (ruleExceptions d) o = false) ->
  forall o, isHideOption o = true ->
    (isException d' = false -> hasOption (ruleOptions d') o = false)
    /\ hasOption (ruleExceptions d') o = false.
Proof.
  revert d; induction options as [|token rest IH]; intros d H Hd;
    cbn [parseOptions] in H.
  - now injection H as <-.
  - destruct (lookupOption m_options _) as [o|].
    + destruct ((negb (isException d) || startsWith token (qs "~"))
                && isHideOption o) eqn:Hskip; [now apply (IH d)|].
      destruct (negb (startsWith token (qs "~"))) eqn:Hneg.
      * apply (IH _ H). intros h Hh. destruct (Hd h Hh) as [Ho He].
        simpl. split; [|assumption]. intros Hexc.
        rewrite hasOption_lor, (Ho Hexc). simpl.
        destruct (RuleOption_eqb o h) eqn:Eoh; [|reflexivity].
        apply RuleOption_eqb_eq in Eoh; subst h.
        rewrite Hexc, Hh in Hskip. discriminate.
      * apply negb_false_iff in Hneg. rewrite Hneg, orb_true_r in Hskip.
        simpl in Hskip.
        assert (Hnot : forall h, isHideOption h = true ->
                  RuleOption_eqb o h = false).
        { intros h Hh. destruct (RuleOption_eqb o h) eqn:Eoh; [|reflexivity].
          apply RuleOption_eqb_eq in Eoh; subst h. congruence. }
        destruct (negb (RuleOption_eqb o WebSocketOption)
                  && negb (RuleOption_eqb o PopupOption));
          [|now apply (IH d)].
        apply (IH _ H). intros h Hh. destruct (Hd h Hh) as [Ho He].
        simpl. split; [assumption|].
        now rewrite hasOption_lor, He, (Hnot h Hh).
    + destruct (startsWith _ (qs "domain")); [|discriminate].
      apply (IH _ H). intros h Hh.
      destruct (parseDomains_frame
                  (splitSkipEmpty "|"%char
                     (mid token (indexOf token "="%char + 1))) d)
        as (E1 & E2 & E3).
      rewrite E1, E2, E3. now apply Hd.
Qed.

Lemma parseNetworkRule_options (wildcards : bool) (raw line : QString)
  (d : Rule) :
  parseNetworkRule wildcards raw = Some (d, line) ->
  exists options d0,
    parseOptions options d0 = Some d
    /\ rule d0 = raw
    /\ ruleOptions d0 = NoOption /\ ruleExceptions d0 = NoOption
    /\ blockedDomains d0 = [] /\ allowedDomains d0 = [].
Proof.
  unfold parseNetworkRule. intros H.
  destruct (negb wildcards && _); [discriminate|].
  match type of H with
  | match parseOptions ?os ?d0 with _ => _ end = _ =>
      destruct (parseOptions os d0) as [d1|] eqn:E; [|discriminate];
      exists os, d0
  end.
  injection H as <- _. simpl. auto 6.
Qed.

(** C9 (amended).  Whenever the parser turns a line into a rule, the
    ElementHide and GenericHide bits are found among the rule's options
    only if the rule is an exception rule, and never among its negated
    options.  On a rule that is not an exception, an [elemhide] or
    [generichide] token is dropped, negated or not: parsing goes on as if
    the token were absent.  A negated token is dropped on every rule. *)
Theorem hide_options_only_on_exception_rules :
  forall (wildcards : bool) (raw line : QString) (d : Rule),
    parseNetworkRule wildcards raw = Some (d, line) ->
    (forall o, isHideOption o = true ->
       (hasOption (ruleOptions d) o = true -> isException d = true)
       /\ hasOption (ruleExceptions d) o = false)
    /\ (forall token rest definition,
          isException definition = false ->
          In token [qs "elemhide"; qs "generichide";
                    qs "~elemhide"; qs "~generichide"] ->
          parseOptions (token :: rest) definition
          = parseOptions rest definition)
    /\ (forall token rest definition,
          In token [qs "~elemhide"; qs "~generichide"] ->
          parseOptions (token :: rest) definition
          = parseOptions rest definition).
Proof.
  intros wildcards raw line d H. split; [|split].
  - destruct (parseNetworkRule_options _ _ _ _ H)
      as (options & d0 & Hparse & _ & Ho & He & _).
    intros o Ho'.
    destruct (parseOptions_hide _ _ _ Hparse) with (o := o) as [H1 H2].
    + intros h _. rewrite Ho, He, !hasOption_NoOption. auto.
    + assumption.
    + split; [|assumption]. intros Hset.
      destruct (isException d); [reflexivity|].
      rewrite H1 in Hset; [discriminate | reflexivity].
  - intros token rest definition Hexc [<-|[<-|[<-|[<-|[]]]]]; simpl;
      rewrite Hexc; reflexivity.
  - intros token rest definition [<-|[<-|[]]]; simpl;
      destruct (isException definition); reflexivity.
Qed.

Lemma hide_options_only_on_exception_rules_witness :
  parseNetworkRule true (qs "ads.js$elemhide,script,~generichide")
  = Some (mkRule (qs "ads.js$elemhide,script,~generichide") false false
            ContainsMatch (optionBit ScriptOption) NoOption [] [],
          qs "ads.js")
  /\ (forall o, isHideOption o = true ->
        (hasOption (optionBit ScriptOption) o = true -> false = true)
        /\ hasOption NoOption o = false).
Proof.
  split; [reflexivity|].
  exact (proj1 (hide_options_only_on_exception_rules true
                  (qs "ads.js$elemhide,script,~generichide") (qs "ads.js")
                  (mkRule (qs "ads.js$elemhide,script,~generichide") false
                     false ContainsMatch (optionBit ScriptOption) NoOption
                     [] [])
                  eq_refl)).
Defined.

(** C9 as stated fails: negation does not keep a hide token on a rule that
    is not an exception.  The line [ads.js$~elemhide] yields a rule with
    no option and no negated option at all, whereas the negated token of
    [ads.js$~image] is kept among the negated options. *)
Lemma hide_options_only_on_exception_rules_counterexample :
  parseNetworkRule true (qs "ads.js$~elemhide")
  = Some (mkRule (qs "ads.js$~elemhide") false false ContainsMatch NoOption
            NoOption [] [],
          qs "ads.js")
  /\ parseNetworkRule true (qs "ads.js$~image")
     = Some (mkRule (qs "ads.js$~image") false false ContainsMatch NoOption
               (optionBit ImageOption) [] [],
             qs "ads.js").
Proof. split; reflexivity. Qed.

(** ** Rule evaluation: the third-party step and the resource types *)

Lemma hasOption_nonzero (f : RuleOptions) (o : RuleOption) :
  hasOption f o = true -> (f =? NoOption) = false.
Proof.
  intros H. destruct (Z.eqb_spec f NoOption) as [->|]; [|reflexivity].
  now rewrite hasOption_NoOption in H.
Qed.

Lemma resourceTypeStep_and (d : Rule) (request : Request) (b : bool)
  (entry : ResourceType * RuleOption) :
  resourceTypeStep d request b entry
  = b && resourceTypeStep d request true entry.
Proof.
  unfold resourceTypeStep. destruct entry as [key option].
  destruct b; [reflexivity|]. simpl.
  case_conditions;
    reflexivity.
Qed.

Lemma fold_resourceTypeStep_and (d : Rule) (request : Request)
  (entries : list (ResourceType * RuleOption)) (b : bool) :
  fold_left (resourceTypeStep d request) entries b
  = b && fold_left (resourceTypeStep d request) entries true.
Proof.
  revert b; induction entries as [|entry entries IH]; intros b; simpl.
  - now rewrite andb_true_r.
  - rewrite IH, resourceTypeStep_and.
    rewrite (IH (resourceTypeStep d request true entry)).
    now rewrite andb_assoc.
Qed.






(** C6, where the code departs from it: the rule
    [||cdn.test^$third-party] carries no type-specific bit, yet a popup
    request from another site is blocked by it, both in [checkRuleMatch]
    and through [checkUrl]. *)
Theorem popup_blocked_by_rule_without_type_option :
  (forall o, isTypeOption o = true ->
     hasOption (optionBit ThirdPartyOption) o = false
     /\ hasOption NoOption o = false)
  /\ checkRuleMatch
       (mkRule (qs "||cdn.test^$third-party") false true ContainsMatch
          (optionBit ThirdPartyOption) NoOption [] [])
       (qs "cdn.test")
       (mkRequest (qs "http://cdn.test/a") (qs "cdn.test") (qs "site.test")
          PopupType)
     = CheckResult.mk (qs "||cdn.test^$third-party") None true false
  /\ fst (checkUrl quietEnv settingsAll
            (profileOf [qs "||cdn.test^$third-party"])
            (mkRequest (qs "http://cdn.test/a") (qs "cdn.test")
               (qs "site.test") PopupType))
     = CheckResult.mk (qs "||cdn.test^$third-party") None true false.
Proof.
  split; [|split; vm_compute; reflexivity].
  intros o; destruct o; vm_compute; intros H; try discriminate H; auto.
Qed.

(** X4.  A rule that carries no option at all never applies to a popup
    request. *)
Theorem popup_passes_rule_without_options :
  forall (d : Rule) (currentRule : QString) (request : Request),
    ruleOptions d = NoOption -> ruleExceptions d = NoOption ->
    resourceType request = PopupType ->
    checkRuleMatch d currentRule request = CheckResult.pass.
Proof.
  intros d currentRule request Ho He Ht. unfold checkRuleMatch.
  rewrite Ho, He, Ht, !hasOption_NoOption. cbn.
  case_conditions;
    reflexivity.
Qed.

(** ** Combining results: [absorb] and [settle] *)

Lemma settle_app (a b : list CheckResult.t) (result : CheckResult.t) :
  settle (a ++ b) result
  = match settle a result with
    | Returned x => Returned x
    | Running result' => settle b result'
    end.
Proof.
  revert result; induction a as [|r a IH]; intros result; simpl.
  - reflexivity.
  - destruct (absorb result r); [reflexivity | apply IH].
Qed.

(** What a run does not owe to the result it started from. *)
Lemma settle_start (l : list CheckResult.t) (result : CheckResult.t) :
  match settle l result with
  | Returned x =>
      CheckResult.isBlocked x = false /\ CheckResult.isException x = true
      /\ forall other, settle l other = Returned x
  | Running r =>
      (r = result /\ forall other, settle l other = Running other)
      \/ (CheckResult.isBlocked r = true
          /\ forall other, settle l other = Running r)
  end.
Proof.
  revert result; induction l as [|r l IH]; intros result; simpl.
  - left. auto.
  - unfold absorb.
    destruct (CheckResult.isBlocked r) eqn:Eb.
    + specialize (IH r). destruct (settle l r) as [x|r'].
      * destruct IH as (? & ? & ?). auto.
      * right. destruct IH as [[-> H]|[Hb H]]; auto.
    + destruct (CheckResult.isException r) eqn:Ee.
      * auto.
      * specialize (IH result). destruct (settle l result) as [x|r'].
        -- destruct IH as (? & ? & H). auto.
        -- destruct IH as [[-> H]|[Hb H]]; auto.
Qed.

(** Absorbing the result of a run that started from a pass is the same as
    running the sequence in place. *)
Lemma absorb_settle (l : list CheckResult.t) (result : CheckResult.t) :
  absorb result (outcome (settle l CheckResult.pass)) = settle l result.
Proof.
  pose proof (settle_start l CheckResult.pass) as H.
  destruct (settle l CheckResult.pass) as [x|r]; simpl.
  - destruct H as (Hb & He & H). rewrite H. unfold absorb. now rewrite Hb, He.
  - destruct H as [[-> H]|[Hb H]]; rewrite H.
    + reflexivity.
    + unfold absorb. now rewrite Hb.
Qed.

Lemma evaluateRules_settle (rs : list Rule) (currentRule : QString)
  (request : Request) (result : CheckResult.t) :
  evaluateRules rs currentRule request result
  = outcome (settle (map (fun d => checkRuleMatch d currentRule request) rs)
               result).
Proof.
  revert result; induction rs as [|d rs IH]; intros result; simpl.
  - reflexivity.
  - destruct (absorb result (checkRuleMatch d currentRule request));
      [reflexivity | apply IH].
Qed.

Lemma evaluateNodeRules_settle (node : Node) (currentRule : QString)
  (request : Request) :
  evaluateNodeRules node currentRule request
  = outcome
      (settle (map (evaluate request) (nodeVisits node currentRule))
         CheckResult.pass).
Proof.
  unfold evaluateNodeRules, nodeVisits.
  rewrite evaluateRules_settle, map_map. reflexivity.
Qed.

Lemma absorb_nodeRules (node : Node) (currentRule : QString)
  (request : Request) (result : CheckResult.t) :
  absorb result (evaluateNodeRules node currentRule request)
  = settle (map (evaluate request) (nodeVisits node currentRule)) result.
Proof. rewrite evaluateNodeRules_settle. apply absorb_settle. Qed.

Lemma separatorLoop_settle (node : Node) (cs : list Node)
  (currentRule : QString) (request : Request) (result : CheckResult.t) :
  separatorLoop node cs currentRule request result
  = outcome
      (settle (map (evaluate request) (separatorVisits node cs currentRule))
         result).
Proof.
  revert result; induction cs as [|child cs IH]; intros result; simpl.
  - reflexivity.
  - destruct (Ascii.eqb (value child) "^"%char).
    + rewrite absorb_nodeRules, map_app, settle_app.
      destruct (settle _ result); [reflexivity | apply IH].
    + apply IH.
Qed.

Lemma finishSubstring_settle (node : Node) (currentRule : QString)
  (request : Request) (result : CheckResult.t) :
  finishSubstring node currentRule request result
  = outcome
      (settle (map (evaluate request) (finishVisits node currentRule)) result).
Proof.
  unfold finishSubstring, finishVisits.
  rewrite absorb_nodeRules, map_app, settle_app.
  destruct (settle _ result); [reflexivity | apply separatorLoop_settle].
Qed.

Lemma wildcardLoop_settle (request : Request)
  (check : QString -> QString -> CheckResult.t)
  (visits : QString -> QString -> list Visit) :
  (forall s cur,
     check s cur
     = outcome (settle (map (evaluate request) (visits s cur)) CheckResult.pass)) ->
  forall (ws cur : QString) (ks : list nat) (result : CheckResult.t),
    wildcardLoop check ws cur ks result
    = settle (map (evaluate request) (wildcardVisits visits ws cur ks)) result.
Proof.
  intros Hcheck ws cur ks. induction ks as [|k ks IH]; intros result; simpl.
  - reflexivity.
  - rewrite Hcheck, absorb_settle, map_app, settle_app.
    destruct (settle _ result); [reflexivity | apply IH].
Qed.

Lemma descend_settle (request : Request) (node : Node) :
  forall (subString currentRule : QString) (result : CheckResult.t),
    descend node subString currentRule request result
    = outcome
        (settle (map (evaluate request)
                   (descendVisits node subString currentRule)) result).
Proof.
  induction node as [v cs rs IH] using Node_ind'.
  intros [|treeChar rest] currentRule result.
  - apply finishSubstring_settle.
  - cbn [descend descendVisits].
    rewrite absorb_nodeRules, map_app, settle_app.
    destruct (settle _ result) as [x|result1]; [reflexivity|].
    clear result. revert result1.
    induction IH as [|nextNode cs' Hnext _ IHcs]; intros result.
    + reflexivity.
    + rewrite !map_app, !settle_app.
      match goal with
      | |- context [if ?c then wildcardLoop ?f ?ws ?cur ?ks ?r else Running ?r] =>
          replace (if c then wildcardLoop f ws cur ks r else Running r)
            with (settle (map (evaluate request)
                            (if c
                             then wildcardVisits (descendVisits nextNode) ws cur ks
                             else [])) r)
            by (destruct c;
                [symmetry; apply wildcardLoop_settle; intros; apply Hnext
                | reflexivity])
      end.
      destruct (settle _ result) as [x|result2]; [reflexivity|].
      rewrite settle_app.
      match goal with
      | |- context [if ?c then absorb ?r (descend ?n ?s ?cur ?req ?p)
                    else Running ?r] =>
          replace (if c then absorb r (descend n s cur req p) else Running r)
            with (settle (map (evaluate request)
                            (if c then descendVisits n s cur else [])) r)
            by (destruct c;
                [rewrite Hnext; symmetry; apply absorb_settle | reflexivity])
      end.
      destruct (settle _ result2) as [x|result3]; [reflexivity|].
      destruct (Ascii.eqb (value nextNode) treeChar); [apply Hnext | apply IHcs].
Qed.

Lemma checkUrlFrom_settle (root : Node) (request : Request) (suffix : QString)
  (result : CheckResult.t) :
  checkUrlFrom root request suffix result
  = outcome
      (settle (map (evaluate request) (checkUrlVisits root suffix)) result).
Proof.
  revert result; induction suffix as [|c suffix IH]; intros result.
  - reflexivity.
  - cbn [checkUrlFrom checkUrlVisits]. unfold checkUrlSubstring.
    rewrite descend_settle, absorb_settle, map_app, settle_app.
    destruct (settle _ result); [reflexivity | apply IH].
Qed.

(** ** The specification's verdict *)

Lemma last_cons_default {A : Type} (x d : A) (l : list A) :
  last (x :: l) d = last l x.
Proof.
  revert x d; induction l as [|y l IH]; intros x d; [reflexivity|].
  change (last (x :: y :: l) d) with (last (y :: l) d).
  now rewrite (IH y d), (IH y x).
Qed.

Lemma settle_verdict (results : list CheckResult.t) (result : CheckResult.t) :
  (forall r, In r results ->
     CheckResult.isException r = true -> CheckResult.isBlocked r = false) ->
  outcome (settle results result)
  = match find CheckResult.isException results with
    | Some exception => exception
    | None => last (filter CheckResult.isBlocked results) result
    end.
Proof.
  revert result; induction results as [|r results IH]; intros result Hwf.
  - reflexivity.
  - cbn [settle find filter]. unfold absorb.
    assert (Hr := Hwf r (or_introl eq_refl)).
    assert (Hrest : forall r', In r' results ->
              CheckResult.isException r' = true ->
              CheckResult.isBlocked r' = false)
      by (intros r' Hin; apply Hwf; now right).
    destruct (CheckResult.isException r) eqn:Ee.
    + rewrite (Hr eq_refl). reflexivity.
    + destruct (CheckResult.isBlocked r) eqn:Eb.
      * rewrite (IH r Hrest). destruct (find _ results); [reflexivity|].
        symmetry. apply last_cons_default.
      * apply (IH result Hrest).
Qed.

Lemma checkRuleMatch_shape (d : Rule) (currentRule : QString)
  (request : Request) :
  checkRuleMatch d currentRule request = CheckResult.pass
  \/ (isException d = false
      /\ checkRuleMatch d currentRule request
         = CheckResult.mk (rule d) None true false)
  \/ (isException d = true
      /\ exists mode,
           checkRuleMatch d currentRule request
           = CheckResult.mk (rule d) mode false true).
Proof.
  unfold checkRuleMatch.
  repeat match goal with
         | |- context [if ?c then CheckResult.pass else _] =>
             destruct c; [now left|]
         end.
  match goal with
  | |- context [if ?c then _ else CheckResult.pass] =>
      destruct c; [|now left]
  end.
  right. destruct (isException d); [right | left]; split; eauto.
Qed.

Lemma checkRuleMatch_exclusive (d : Rule) (currentRule : QString)
  (request : Request) :
  CheckResult.isException (checkRuleMatch d currentRule request) = true ->
  CheckResult.isBlocked (checkRuleMatch d currentRule request) = false.
Proof.
  destruct (checkRuleMatch_shape d currentRule request)
    as [->|[[_ ->]|[_ [mode ->]]]]; simpl; congruence.
Qed.

Lemma walkResults_exclusive (root : Node) (request : Request) :
  forall r, In r (walkResults root request) ->
    CheckResult.isException r = true -> CheckResult.isBlocked r = false.
Proof.
  intros r Hin. unfold walkResults in Hin.
  apply in_map_iff in Hin as ([d cur] & <- & _).
  apply checkRuleMatch_exclusive.
Qed.

Lemma walkResults_blocked (root : Node) (request : Request) :
  forall r, In r (walkResults root request) ->
    CheckResult.isBlocked r = true -> CheckResult.isException r = false.
Proof.
  intros r Hin Hb.
  destruct (CheckResult.isException r) eqn:E; [|reflexivity].
  rewrite (walkResults_exclusive root request r Hin E) in Hb. discriminate.
Qed.

Lemma last_in {A : Type} (l : list A) (d : A) : l <> [] -> In (last l d) l.
Proof.
  induction l as [|x l IH]; intros Hne; [congruence|].
  destruct l as [|y l]; [now left|].
  right. apply IH. discriminate.
Qed.

Lemma filter_none {A : Type} (f : A -> bool) (l : list A) :
  (forall x, In x l -> f x = false) -> filter f l = [].
Proof.
  induction l as [|x l IH]; intros H; [reflexivity|].
  simpl. rewrite (H x) by now left.
  apply IH. intros y Hy. apply H. now right.
Qed.

Lemma checkUrl_loaded (env : Env) (settings : Settings) (p : Profile)
  (request : Request) :
  m_wasLoaded p = true ->
  checkUrl env settings p request
  = (checkUrlFrom (m_root p) request (requestUrl request) CheckResult.pass, p).
Proof. intros H. unfold checkUrl. now rewrite H. Qed.

Lemma checkUrl_verdict (env : Env) (settings : Settings) (p : Profile)
  (request : Request) :
  m_wasLoaded p = true ->
  fst (checkUrl env settings p request)
  = verdict (walkResults (m_root p) request).
Proof.
  intros H. rewrite (checkUrl_loaded _ _ _ _ H). cbn [fst].
  rewrite checkUrlFrom_settle. unfold verdict.
  apply settle_verdict, walkResults_exclusive.
Qed.

(** C2.  For a loaded profile, [checkUrl] returns one result, and that
    result is the verdict over the rule evaluations of the walk, taken in
    the order of the walk: if some evaluated rule matches as an exception,
    the first such result is returned, with [isException] set and
    [isBlocked] clear, whatever follows it in the walk; otherwise, if some
    evaluated rule blocks, the most recent block is returned; otherwise
    the request passes. *)
Theorem exception_over_block_over_pass :
  forall (env : Env) (settings : Settings) (p : Profile) (request : Request),
    m_wasLoaded p = true ->
    fst (checkUrl env settings p request)
    = verdict (walkResults (m_root p) request)
    /\ snd (checkUrl env settings p request) = p
    /\ (forall before exception after,
          walkResults (m_root p) request = before ++ exception :: after ->
          CheckResult.isException exception = true ->
          (forall r, In r before -> CheckResult.isException r = false) ->
          fst (checkUrl env settings p request) = exception
          /\ CheckResult.isException exception = true
          /\ CheckResult.isBlocked exception = false)
    /\ ((forall r, In r (walkResults (m_root p) request) ->
           CheckResult.isException r = false) ->
        fst (checkUrl env settings p request)
        = last (filter CheckResult.isBlocked (walkResults (m_root p) request))
            CheckResult.pass
        /\ ((exists r, In r (walkResults (m_root p) request)
                       /\ CheckResult.isBlocked r = true) ->
            CheckResult.isBlocked (fst (checkUrl env settings p request)) = true
            /\ CheckResult.isException (fst (checkUrl env settings p request))
               = false)
        /\ ((forall r, In r (walkResults (m_root p) request) ->
               CheckResult.isBlocked r = false) ->
            fst (checkUrl env settings p request) = CheckResult.pass)).
Proof.
  intros env settings p request Hloaded.
  pose proof (checkUrl_verdict env settings p request Hloaded) as Hv.
  split; [exact Hv|]. split; [now rewrite (checkUrl_loaded _ _ _ _ Hloaded)|].
  split.
  - intros before exception after Hsplit Hexc Hbefore.
    assert (Hfind : find CheckResult.isException
                      (walkResults (m_root p) request) = Some exception).
    { rewrite Hsplit. clear Hsplit.
      induction before as [|r before IH]; simpl.
      - now rewrite Hexc.
      - rewrite (Hbefore r) by now left.
        apply IH. intros r' Hr'. apply Hbefore. now right. }
    rewrite Hv. unfold verdict. rewrite Hfind.
    repeat split; [assumption|].
    apply (walkResults_exclusive (m_root p) request); [|assumption].
    rewrite Hsplit. apply in_or_app. right. now left.
  - intros Hnone.
    assert (Hfind : find CheckResult.isException
                      (walkResults (m_root p) request) = None).
    { destruct (find _ _) as [e|] eqn:E; [|reflexivity].
      apply find_some in E as [Hin He]. rewrite (Hnone e Hin) in He.
      discriminate. }
    assert (Hlast : fst (checkUrl env settings p request)
                    = last (filter CheckResult.isBlocked
                              (walkResults (m_root p) request))
                        CheckResult.pass)
      by (rewrite Hv; unfold verdict; now rewrite Hfind).
    split; [exact Hlast|]. split.
    + intros (r & Hin & Hb). rewrite Hlast.
      assert (Hne : filter CheckResult.isBlocked
                      (walkResults (m_root p) request) <> []).
      { intros E. assert (Hr : In r (filter CheckResult.isBlocked
                                      (walkResults (m_root p) request)))
          by (apply filter_In; auto).
        rewrite E in Hr. contradiction. }
      pose proof (last_in _ CheckResult.pass Hne) as Hl.
      apply filter_In in Hl as [Hl1 Hl2]. split; [assumption|].
      now apply (walkResults_blocked (m_root p) request).
    + intros Hnb. rewrite Hlast.
      replace (filter CheckResult.isBlocked (walkResults (m_root p) request))
        with (@nil CheckResult.t); [reflexivity|].
      symmetry. now apply filter_none.
Qed.

Lemma exception_over_block_over_pass_witness :
  fst (checkUrl quietEnv settingsAll
         (profileOf [qs "||ads.example.com^"; qs "@@||ads.example.com/ok^"])
         (mkRequest (qs "http://ads.example.com/ok/pixel")
            (qs "ads.example.com") (qs "site.test") ImageType))
  = verdict
      (walkResults
         (m_root (profileOf [qs "||ads.example.com^";
                             qs "@@||ads.example.com/ok^"]))
         (mkRequest (qs "http://ads.example.com/ok/pixel")
            (qs "ads.example.com") (qs "site.test") ImageType)).
Proof.
  apply (exception_over_block_over_pass quietEnv settingsAll
           (profileOf [qs "||ads.example.com^"; qs "@@||ads.example.com/ok^"])
           (mkRequest (qs "http://ads.example.com/ok/pixel")
              (qs "ads.example.com") (qs "site.test") ImageType)).
  vm_compute. reflexivity.
Defined.

(** ** Insertion into the trie and the walk that finds the rule again *)

Lemma parseRuleLine_network (settings : Settings) (raw line : QString)
  (d : Rule) (p : Profile) :
  isNetworkLine raw = true ->
  parseNetworkRule (areWildcardsEnabled settings) raw = Some (d, line) ->
  parseRuleLine settings raw p = set_root (insertRule (m_root p) line d) p.
Proof.
  unfold isNetworkLine, parseRuleLine. intros H Hparse.
  repeat (apply andb_true_iff in H as [H ?]).
  repeat match goal with
         | E : negb ?b = true |- _ => apply negb_true_iff in E; rewrite E
         end.
  now rewrite Hparse.
Qed.

Lemma parseOptions_rule (options : list QString) (d d' : Rule) :
  parseOptions options d = Some d' -> rule d' = rule d.
Proof.
  revert d; induction options as [|token rest IH]; intros d H;
    cbn [parseOptions] in H.
  - now injection H as <-.
  - destruct (lookupOption m_options _) as [o|].
    + destruct ((negb (isException d) || startsWith token (qs "~"))
                && isHideOption o); [now apply IH|].
      destruct (negb (startsWith token (qs "~"))); [now apply IH in H|].
      destruct (negb (RuleOption_eqb o WebSocketOption)
                && negb (RuleOption_eqb o PopupOption));
        [now apply IH in H | now apply IH].
    + destruct (startsWith _ (qs "domain")); [|discriminate].
      apply IH in H. rewrite H. clear.
      generalize (splitSkipEmpty "|"%char
                    (mid token (indexOf token "="%char + 1))).
      intros domains. revert d.
      induction domains as [|domain domains IHd]; intros d;
        cbn [parseDomains]; [reflexivity|].
      destruct (startsWith domain (qs "~")); now rewrite IHd.
Qed.

Lemma parseNetworkRule_raw (wildcards : bool) (raw line : QString) (d : Rule) :
  parseNetworkRule wildcards raw = Some (d, line) -> rule d = raw.
Proof.
  intros H.
  destruct (parseNetworkRule_options _ _ _ _ H) as (os & d0 & Hp & Hraw & _).
  apply parseOptions_rule in Hp. congruence.
Qed.

Lemma value_insertRule (node : Node) (line : QString) (d : Rule) :
  value (insertRule node line d) = value node.
Proof.
  destruct line as [|c line]; cbn [insertRule]; [reflexivity|].
  destruct (descendChild _ c (children node)); [reflexivity|].
  destruct (Ascii.eqb c "^"%char); reflexivity.
Qed.

Lemma descendChild_some (f : Node -> Node) (c : QChar) (cs cs' : list Node) :
  descendChild f c cs = Some cs' ->
  exists before n after,
    cs = before ++ n :: after /\ cs' = before ++ f n :: after
    /\ value n = c
    /\ forall x, In x before -> Ascii.eqb (value x) c = false.
Proof.
  revert cs'; induction cs as [|x cs IH]; intros cs' H; simpl in H;
    [discriminate|].
  destruct (Ascii.eqb (value x) c) eqn:E.
  - injection H as <-. exists [], x, cs. apply Ascii.eqb_eq in E.
    repeat split; auto. intros y [].
  - destruct (descendChild f c cs) as [l|]; [|discriminate].
    injection H as <-.
    destruct (IH l eq_refl) as (before & n & after & -> & -> & Hv & Hb).
    exists (x :: before), n, after. repeat split; auto.
    intros y [<-|Hy]; auto.
Qed.

Lemma descendChild_none (f : Node -> Node) (c : QChar) (cs : list Node) :
  descendChild f c cs = None ->
  forall x, In x cs -> Ascii.eqb (value x) c = false.
Proof.
  induction cs as [|x cs IH]; intros H y Hy; [contradiction|].
  simpl in H. destruct (Ascii.eqb (value x) c) eqn:E; [discriminate|].
  destruct (descendChild f c cs); [discriminate|].
  destruct Hy as [<-|Hy]; auto.
Qed.

(** How a node looks after the insertion of a non-empty pattern: the first
    child that carries the head of the pattern is the one the rest of the
    pattern went into. *)
Lemma insertRule_cons (node : Node) (c : QChar) (line : QString) (d : Rule) :
  exists before n after,
    insertRule node (c :: line) d
    = mkNode (value node) (before ++ insertRule n line d :: after) (rules node)
    /\ value n = c
    /\ (forall x, In x before -> Ascii.eqb (value x) c = false)
    /\ (forall x, In x (before ++ after) -> In x (children node))
    /\ (In n (children node) \/ n = mkNode c [] []).
Proof.
  cbn [insertRule].
  destruct (descendChild _ c (children node)) as [cs|] eqn:E.
  - apply descendChild_some in E
      as (before & n & after & Hcs & -> & Hv & Hb).
    exists before, n, after. repeat split; auto.
    + intros x Hx. rewrite Hcs. apply in_app_or in Hx as [Hx|Hx];
        apply in_or_app; [now left | right; now right].
    + left. rewrite Hcs. apply in_or_app. right. now left.
  - pose proof (descendChild_none _ _ _ E) as Hnone.
    destruct (Ascii.eqb c "^"%char).
    + exists [], (mkNode c [] []), (children node).
      repeat split; auto. intros x [].
    + exists (children node), (mkNode c [] []), [].
      repeat split; auto. intros x Hx. now rewrite app_nil_r in Hx.
Qed.

Lemma nodeVisits_descendVisits (node : Node) (subString currentRule : QString) :
  incl (nodeVisits node currentRule)
       (descendVisits node subString currentRule).
Proof.
  intros x Hx. destruct node as [v cs rs].
  destruct subString; cbn [descendVisits]; [unfold finishVisits|];
    apply in_or_app; now left.
Qed.

Lemma descendVisits_child (v : QChar) (before after : list Node) (n : Node)
  (rs : list Rule) (c : QChar) (rest currentRule : QString) :
  (forall x, In x before -> Ascii.eqb (value x) c = false) ->
  value n = c ->
  incl (descendVisits n rest (currentRule ++ [c]))
       (descendVisits (mkNode v (before ++ n :: after) rs) (c :: rest)
          currentRule).
Proof.
  intros Hbefore Hn x Hx. cbn [descendVisits].
  apply in_or_app. right.
  induction before as [|y before IH]; cbn [app].
  - apply in_or_app. right. apply in_or_app. right.
    rewrite Hn, Ascii.eqb_refl. exact Hx.
  - apply in_or_app. right. apply in_or_app. right.
    rewrite (Hbefore y) by now left.
    apply IH. intros z Hz. apply Hbefore. now right.
Qed.

Lemma descendVisits_inserted (d : Rule) (line post : QString) :
  forall (node : Node) (currentRule : QString),
    In (d, currentRule ++ line)
       (descendVisits (insertRule node line d) (line ++ post) currentRule).
Proof.
  induction line as [|c line IH]; intros node currentRule.
  - rewrite app_nil_r. apply nodeVisits_descendVisits.
    cbn [insertRule]. unfold nodeVisits. cbn [rules].
    apply in_map_iff. exists d. split; [reflexivity|].
    apply in_or_app. right. now left.
  - destruct (insertRule_cons node c line d)
      as (before & n & after & -> & Hn & Hbefore & _).
    cbn [app].
    apply (descendVisits_child _ before after (insertRule n line d)).
    + assumption.
    + now rewrite value_insertRule.
    + replace (currentRule ++ c :: line) with ((currentRule ++ [c]) ++ line)
        by (rewrite <- app_assoc; reflexivity).
      apply IH.
Qed.

Lemma checkUrlVisits_suffix (root : Node) (pre s : QString) :
  s <> [] ->
  incl (descendVisits root s []) (checkUrlVisits root (pre ++ s)).
Proof.
  intros Hs x Hx. induction pre as [|c pre IH]; cbn [app].
  - destruct s as [|c s]; [congruence|].
    cbn [checkUrlVisits]. apply in_or_app. now left.
  - cbn [checkUrlVisits]. apply in_or_app. now right.
Qed.

Lemma checkUrlVisits_inserted (d : Rule) (line url : QString) (root : Node) :
  url <> [] -> contains url line = true ->
  In (d, line) (checkUrlVisits (insertRule root line d) url).
Proof.
  intros Hurl Hc. apply contains_inv in Hc as (pre & post & ->).
  destruct (line ++ post) as [|c s] eqn:E.
  - apply app_eq_nil in E as [-> ->]. rewrite app_nil_r in *.
    apply (checkUrlVisits_suffix _ [] pre Hurl).
    apply (descendVisits_inserted d [] pre _ []).
  - apply (checkUrlVisits_suffix _ pre (c :: s)); [discriminate|].
    rewrite <- E. apply (descendVisits_inserted d line post _ []).
Qed.

Lemma allRules_eq (v : QChar) (cs : list Node) (rs : list Rule) :
  allRules (mkNode v cs rs) = rs ++ flat_map allRules cs.
Proof.
  reflexivity.
Qed.

Lemma allRules_rules (node : Node) : incl (rules node) (allRules node).
Proof.
  destruct node as [v cs rs]. rewrite allRules_eq. cbn [rules].
  intros x Hx. apply in_or_app. now left.
Qed.

Lemma allRules_child (node child : Node) :
  In child (children node) -> incl (allRules child) (allRules node).
Proof.
  destruct node as [v cs rs]. rewrite allRules_eq. cbn [children].
  intros Hin x Hx. apply in_or_app. right.
  apply in_flat_map. now exists child.
Qed.

Lemma nodeVisits_rules (node : Node) (currentRule : QString) (x : Visit) :
  In x (nodeVisits node currentRule) -> In (fst x) (allRules node).
Proof.
  unfold nodeVisits. intros Hx. apply in_map_iff in Hx as (d & <- & Hd).
  now apply allRules_rules.
Qed.

Lemma separatorVisits_rules (node : Node) (cs : list Node)
  (currentRule : QString) (x : Visit) :
  In x (separatorVisits node cs currentRule) -> In (fst x) (allRules node).
Proof.
  induction cs as [|child cs IH]; cbn [separatorVisits]; [contradiction|].
  intros Hx. apply in_app_or in Hx as [Hx|Hx]; [|now apply IH].
  destruct (Ascii.eqb (value child) "^"%char); [|contradiction].
  now apply nodeVisits_rules in Hx.
Qed.

Lemma wildcardVisits_rules (P : Visit -> Prop)
  (visits : QString -> QString -> list Visit) :
  (forall s cur x, In x (visits s cur) -> P x) ->
  forall ws cur ks x, In x (wildcardVisits visits ws cur ks) -> P x.
Proof.
  intros H ws cur ks. induction ks as [|k ks IH]; cbn [wildcardVisits];
    intros x Hx; [contradiction|].
  apply in_app_or in Hx as [Hx|Hx]; [now apply H in Hx | now apply IH].
Qed.

(** A walk only evaluates rules that are stored in the trie. *)
Lemma descendVisits_rules (node : Node) :
  forall (subString currentRule : QString) (x : Visit),
    In x (descendVisits node subString currentRule) ->
    In (fst x) (allRules node).
Proof.
  induction node as [v cs rs IH] using Node_ind'.
  intros [|treeChar rest] currentRule x Hx.
  - cbn [descendVisits] in Hx. unfold finishVisits in Hx.
    apply in_app_or in Hx as [Hx|Hx];
      [now apply nodeVisits_rules in Hx | now apply separatorVisits_rules in Hx].
  - cbn [descendVisits] in Hx.
    apply in_app_or in Hx as [Hx|Hx]; [now apply nodeVisits_rules in Hx|].
    assert (Hsub : forall child, In child cs ->
              incl (allRules child) (allRules (mkNode v cs rs)))
      by (intros child Hc; now apply allRules_child).
    revert Hsub Hx. generalize (allRules (mkNode v cs rs)). intros target.
    induction IH as [|nextNode cs' Hnext _ IHcs]; intros Hsub Hx;
      [contradiction|].
    assert (Hin : forall s cur y,
              In y (descendVisits nextNode s cur) -> In (fst y) target)
      by (intros s cur y Hy; apply (Hsub nextNode); [now left|];
          now apply Hnext in Hy).
    apply in_app_or in Hx as [Hx|Hx].
    { destruct (Ascii.eqb (value nextNode) "*"%char); [|contradiction].
      revert Hx. apply (wildcardVisits_rules (fun y => In (fst y) target)).
      exact Hin. }
    apply in_app_or in Hx as [Hx|Hx].
    { destruct (_ && _); [now apply Hin in Hx | contradiction]. }
    destruct (Ascii.eqb (value nextNode) treeChar); [now apply Hin in Hx|].
    apply IHcs; [|assumption].
    intros child Hc. apply Hsub. now right.
Qed.

Lemma checkUrlVisits_rules (root : Node) (suffix : QString) (x : Visit) :
  In x (checkUrlVisits root suffix) -> In (fst x) (allRules root).
Proof.
  induction suffix as [|c suffix IH]; cbn [checkUrlVisits]; [contradiction|].
  intros Hx. apply in_app_or in Hx as [Hx|Hx];
    [now apply descendVisits_rules in Hx | now apply IH].
Qed.

Lemma allRules_insertRule (d : Rule) (line : QString) :
  forall (node : Node) (r : Rule),
    In r (allRules (insertRule node line d)) ->
    r = d \/ In r (allRules node).
Proof.
  induction line as [|c line IH]; intros node r Hr.
  - cbn [insertRule] in Hr. rewrite allRules_eq in Hr.
    destruct node as [v cs rs]. rewrite allRules_eq. cbn [rules children] in *.
    rewrite <- app_assoc in Hr.
    apply in_app_or in Hr as [Hr|Hr]; [right; apply in_or_app; now left|].
    destruct Hr as [<-|Hr]; [now left|].
    right. apply in_or_app. now right.
  - destruct (insertRule_cons node c line d)
      as (before & n & after & E & _ & _ & Hold & Hn).
    rewrite E, allRules_eq in Hr.
    apply in_app_or in Hr as [Hr|Hr];
      [right; now apply allRules_rules|].
    apply in_flat_map in Hr as (child & Hchild & Hr).
    apply in_app_or in Hchild as [Hchild|[<-|Hchild]].
    + right. apply (allRules_child node child); [|assumption].
      apply Hold, in_or_app. now left.
    + apply IH in Hr as [->|Hr]; [now left|]. right.
      destruct Hn as [Hn| ->]; [now apply (allRules_child node n)|].
      contradiction.
    + right. apply (allRules_child node child); [|assumption].
      apply Hold, in_or_app. now right.
Qed.

(** A rule without anchors, options and domains: it blocks exactly the
    requests, popups apart, whose URL contains the accumulated text. *)
Lemma checkRuleMatch_plain (d : Rule) (currentRule : QString)
  (request : Request) :
  isException d = false -> ruleMatch d = ContainsMatch ->
  needsDomainCheck d = false ->
  ruleOptions d = NoOption -> ruleExceptions d = NoOption ->
  blockedDomains d = [] -> allowedDomains d = [] ->
  resourceType request <> PopupType ->
  checkRuleMatch d currentRule request
  = if contains (requestUrl request) currentRule
    then CheckResult.mk (rule d) None true false
    else CheckResult.pass.
Proof.
  intros He Hm Hn Ho Hx Hb Ha Ht. unfold checkRuleMatch, patternMatches.
  rewrite He, Hm, Hn, Ho, Hx, Hb, Ha, !hasOption_NoOption.
  destruct (contains (requestUrl request) currentRule); [|reflexivity].
  cbn.
  destruct (resourceType request); try reflexivity. congruence.
Qed.

(** C1 (amended).  Take a network-rule line that parses as a substring
    rule that is no exception and has no anchors, no options and no domain
    lists, with residual pattern [p] (whatever its characters), let
    [parseRuleLine] insert it into the trie of a loaded profile, and take
    a request of a type other than Popup whose URL is not empty and
    contains [p].  Then [checkUrl] does not let the request pass.  It
    returns a block, [is_blocked = true], when no exception rule applies
    to the request on a text on which the walk evaluates it.  It returns
    the block that names the raw line when every rule that applies to the
    request on a text on which the walk evaluates it names that line and
    is no exception, that is when no other rule interferes. *)
Theorem inserted_rule_is_found :
  forall (env : Env) (settings : Settings) (raw p : QString) (d : Rule)
         (profile : Profile) (request : Request),
    isNetworkLine raw = true ->
    parseNetworkRule (areWildcardsEnabled settings) raw = Some (d, p) ->
    isException d = false -> ruleMatch d = ContainsMatch ->
    needsDomainCheck d = false ->
    ruleOptions d = NoOption -> ruleExceptions d = NoOption ->
    blockedDomains d = [] -> allowedDomains d = [] ->
    m_wasLoaded profile = true ->
    requestUrl request <> [] ->
    contains (requestUrl request) p = true ->
    resourceType request <> PopupType ->
    applies (fst (checkUrl env settings (parseRuleLine settings raw profile)
                    request)) = true
    /\ ((forall (d' : Rule) (currentRule : QString),
           In (d', currentRule)
              (checkUrlVisits (m_root (parseRuleLine settings raw profile))
                 (requestUrl request)) ->
           isException d' = true ->
           applies (checkRuleMatch d' currentRule request) = false) ->
        CheckResult.isBlocked
          (fst (checkUrl env settings (parseRuleLine settings raw profile)
                  request)) = true)
    /\ ((forall (d' : Rule) (currentRule : QString),
           In (d', currentRule)
              (checkUrlVisits (m_root (parseRuleLine settings raw profile))
                 (requestUrl request)) ->
           applies (checkRuleMatch d' currentRule request) = true ->
           rule d' = raw /\ isException d' = false) ->
        fst (checkUrl env settings (parseRuleLine settings raw profile) request)
        = CheckResult.mk raw None true false).
Proof.
  intros env settings raw p d profile request Hline Hparse He Hm Hn Ho Hx Hb
    Ha Hloaded Hurl Hcontains Htype.
  rewrite (parseRuleLine_network _ _ _ _ profile Hline Hparse).
  set (root := insertRule (m_root profile) p d).
  assert (Hl : m_wasLoaded (set_root root profile) = true) by exact Hloaded.
  rewrite (checkUrl_verdict env settings _ request Hl).
  change (m_root (set_root root profile)) with root.
  pose proof (parseNetworkRule_raw _ _ _ _ Hparse) as Hraw.
  assert (Hhit : In (CheckResult.mk raw None true false)
                    (walkResults root request)).
  { unfold walkResults. apply in_map_iff. exists (d, p). split.
    - unfold evaluate. cbn [fst snd].
      rewrite (checkRuleMatch_plain d p request He Hm Hn Ho Hx Hb Ha Htype).
      now rewrite Hcontains, Hraw.
    - now apply checkUrlVisits_inserted. }
  assert (Hne : filter CheckResult.isBlocked (walkResults root request) <> []).
  { intros E.
    assert (Hin : In (CheckResult.mk raw None true false)
                     (filter CheckResult.isBlocked (walkResults root request)))
      by (apply filter_In; auto).
    rewrite E in Hin. contradiction. }
  pose proof (last_in _ CheckResult.pass Hne) as Hlast.
  apply filter_In in Hlast as [Hlast Hblocked].
  split; [|split].
  - unfold verdict, applies.
    destruct (find _ _) as [e|] eqn:Efind.
    + apply find_some in Efind as [_ Hexc]. rewrite Hexc. apply orb_true_r.
    + now rewrite Hblocked.
  - intros Hnone. unfold verdict.
    destruct (find _ _) as [e|] eqn:Efind; [|exact Hblocked].
    apply find_some in Efind as [Hin Hexc]. unfold walkResults in Hin.
    apply in_map_iff in Hin as ([d' cur] & <- & Hv).
    unfold evaluate in Hexc. cbn [fst snd] in Hexc.
    destruct (checkRuleMatch_shape d' cur request)
      as [E|[[_ E]|[He' [mode E]]]];
      [rewrite E in Hexc; discriminate | rewrite E in Hexc; discriminate |].
    pose proof (Hnone d' cur Hv He') as Hno.
    rewrite E in Hno. discriminate.
  - intros Hsame.
    assert (Hshape : forall r, In r (walkResults root request) ->
              r = CheckResult.pass \/ r = CheckResult.mk raw None true false).
    { intros r Hr. unfold walkResults in Hr.
      apply in_map_iff in Hr as ([d' cur] & <- & Hv).
      unfold evaluate. cbn [fst snd].
      destruct (checkRuleMatch_shape d' cur request)
        as [E|[[_ E]|[He' [mode E]]]].
      - now left.
      - right. rewrite E.
        destruct (Hsame d' cur Hv) as [Hrule _]; [now rewrite E|].
        now rewrite Hrule.
      - destruct (Hsame d' cur Hv) as [_ Hexc]; [now rewrite E|].
        congruence. }
    unfold verdict.
    destruct (find _ _) as [e|] eqn:Efind.
    + apply find_some in Efind as [Hin Hexc].
      destruct (Hshape e Hin) as [-> | ->]; discriminate.
    + destruct (Hshape _ Hlast) as [E|E]; [|exact E].
      rewrite E in Hblocked. discriminate.
Qed.

Lemma inserted_rule_is_found_witness :
  applies
    (fst (checkUrl quietEnv settingsAll
            (parseRuleLine settingsAll (qs "/banner/")
               (profileOf [qs "/other/"; qs "@@|http://good.test/"]))
            (mkRequest (qs "http://ads.test/banner/1.gif") (qs "ads.test")
               (qs "site.test") ImageType))) = true
  /\ fst (checkUrl quietEnv settingsAll
            (parseRuleLine settingsAll (qs "/banner/")
               (profileOf [qs "/other/"; qs "@@|http://good.test/"]))
            (mkRequest (qs "http://ads.test/banner/1.gif") (qs "ads.test")
               (qs "site.test") ImageType))
     = CheckResult.mk (qs "/banner/") None true false.
Proof.
  destruct (inserted_rule_is_found quietEnv settingsAll (qs "/banner/")
              (qs "/banner/")
              (mkRule (qs "/banner/") false false ContainsMatch NoOption
                 NoOption [] [])
              (profileOf [qs "/other/"; qs "@@|http://good.test/"])
              (mkRequest (qs "http://ads.test/banner/1.gif") (qs "ads.test")
                 (qs "site.test") ImageType))
    as (Hfound & _ & Hraw);
    try (vm_compute; reflexivity); try (vm_compute; discriminate).
  split; [exact Hfound|]. apply Hraw.
  intros d' currentRule Hin Happlies. vm_compute in Hin.
  repeat match goal with
         | H : _ \/ _ |- _ => destruct H as [H|H]
         | H : False |- _ => destruct H
         end;
    injection Hin as <- <-;
    first [split; reflexivity | vm_compute in Happlies; discriminate].
Defined.

(** C1 as stated fails in two ways.  The line [*] leaves the empty
    pattern, which every URL contains, but [checkUrl] never looks at the
    trie for the empty URL and lets it pass.  And in a trie that also
    holds the exception rule [@@b], the line [a] is inserted and the URL
    [ab] contains [a], yet the result is the exception, not a block. *)
Lemma inserted_rule_is_found_counterexample :
  (isNetworkLine (qs "*") = true
   /\ parseNetworkRule true (qs "*")
      = Some (mkRule (qs "*") false false ContainsMatch NoOption NoOption
                [] [], [])
   /\ contains [] [] = true
   /\ fst (checkUrl quietEnv settingsAll
             (parseRuleLine settingsAll (qs "*") loadedProfile)
             (mkRequest [] [] [] ImageType))
      = CheckResult.pass)
  /\ (isNetworkLine (qs "a") = true
      /\ parseNetworkRule true (qs "a")
         = Some (mkRule (qs "a") false false ContainsMatch NoOption NoOption
                   [] [], qs "a")
      /\ contains (qs "ab") (qs "a") = true
      /\ fst (checkUrl quietEnv settingsAll
                (parseRuleLine settingsAll (qs "a") (profileOf [qs "@@b"]))
                (mkRequest (qs "ab") [] [] ImageType))
         = CheckResult.mk (qs "@@b") None false true).
Proof. repeat split; vm_compute; reflexivity. Qed.

(** ** The separator edge *)

(** C3, where the code departs from it.  In the trie that holds the single
    rule [a^b], the walk enters the '^' child when the next URL character
    is a separator but does not move past that character, so the child [b]
    is then compared with the separator itself: none of [a/b], [a?b] and
    [a=b] is blocked (nor are [a1b] and [aab]).  The separator edge stands
    for no URL character at all: the rule [a^/b], whose pattern spells the
    separator out after the '^', does block [a/b]. *)
Theorem separator_edge_consumes_nothing :
  (forall url, In url [qs "a/b"; qs "a?b"; qs "a=b"; qs "a1b"; qs "aab";
                       qs "http://x.test/a/b"] ->
     fst (checkUrl quietEnv settingsAll (profileOf [qs "a^b"])
            (mkRequest url (qs "x.test") (qs "site.test") ImageType))
     = CheckResult.pass)
  /\ fst (checkUrl quietEnv settingsAll (profileOf [qs "a^/b"])
            (mkRequest (qs "a/b") (qs "x.test") (qs "site.test") ImageType))
     = CheckResult.mk (qs "a^/b") None true false
  /\ m_root (profileOf [qs "a^b"])
     = mkNode zero
         [mkNode "a"%char
            [mkNode "^"%char
               [mkNode "b"%char []
                  [mkRule (qs "a^b") false false ContainsMatch NoOption
                     NoOption [] []]]
               []]
            []]
         [].
Proof.
  split; [|split; vm_compute; reflexivity].
  intros url Hin. simpl in Hin.
  repeat (destruct Hin as [<-|Hin]; [vm_compute; reflexivity|]).
  contradiction.
Qed.

(** C4, where the code departs from it.  Once the slice is used up, the
    walk evaluates the rules of the final node and then, for every '^'
    child, the rules of that same final node again; the rules attached to
    the '^' child are not evaluated.  So the rule [a^] does not block the
    URL [a], and [||example.com^] does not block [http://example.com],
    although both block once a separator character follows. *)
Theorem separator_child_rules_skipped_at_end :
  (forall (node : Node) (currentRule : QString) (v : Visit),
     In v (finishVisits node currentRule) ->
     In (fst v) (rules node) /\ snd v = currentRule)
  /\ (forall (node : Node) (currentRule : QString) (request : Request)
             (result : CheckResult.t),
        descend node [] currentRule request result
        = outcome (settle (map (evaluate request)
                             (finishVisits node currentRule)) result))
  /\ fst (checkUrl quietEnv settingsAll (profileOf [qs "a^"])
            (mkRequest (qs "a") (qs "x.test") (qs "site.test") ImageType))
     = CheckResult.pass
  /\ fst (checkUrl quietEnv settingsAll (profileOf [qs "a^"])
            (mkRequest (qs "a/") (qs "x.test") (qs "site.test") ImageType))
     = CheckResult.mk (qs "a^") None true false
  /\ fst (checkUrl quietEnv settingsAll (profileOf [qs "||example.com^"])
            (mkRequest (qs "http://example.com") (qs "example.com")
               (qs "site.test") ImageType))
     = CheckResult.pass
  /\ fst (checkUrl quietEnv settingsAll (profileOf [qs "||example.com^"])
            (mkRequest (qs "http://example.com/") (qs "example.com")
               (qs "site.test") ImageType))
     = CheckResult.mk (qs "||example.com^") None true false.
Proof.
  split; [|split; [|repeat split; vm_compute; reflexivity]].
  - intros node currentRule v Hv. unfold finishVisits in Hv.
    assert (Hnode : forall x, In x (nodeVisits node currentRule) ->
              In (fst x) (rules node) /\ snd x = currentRule).
    { intros x Hx. unfold nodeVisits in Hx.
      apply in_map_iff in Hx as (d & <- & Hd). auto. }
    apply in_app_or in Hv as [Hv|Hv]; [now apply Hnode|].
    induction (children node) as [|child cs IH]; [contradiction|].
    cbn [separatorVisits] in Hv.
    apply in_app_or in Hv as [Hv|Hv]; [|now apply IH].
    destruct (Ascii.eqb (value child) "^"%char); [now apply Hnode | contradiction].
  - intros node currentRule request result.
    destruct node as [v cs rs]. apply finishSubstring_settle.
Qed.

(** ** The header scanner *)

(** C8, where the code departs from it.  The counter is compared with 50
    after the line has been read and examined, and it is not advanced on a
    title line.  A file whose first 51 lines are the header and 50
    comments, with a rule on line 52, is scanned up to line 52 and found
    not empty, while the file made of the same first 51 lines is found
    empty.  A file with 100 title lines after the header is read to its
    end, line 102, and the title of line 101 is the one returned. *)
Theorem header_scan_reads_past_line_51 :
  List.length (qs "[Adblock Plus 2.0]" :: repeat (qs "! comment") 50) = 51%nat
  /\ loadHeaderPath
       (FileLines (qs "[Adblock Plus 2.0]" :: repeat (qs "! comment") 50))
     = HeaderInformation.mk [] NoError true
  /\ loadHeaderPath
       (FileLines ((qs "[Adblock Plus 2.0]" :: repeat (qs "! comment") 50)
                   ++ [qs "||ads.example.com^"]))
     = HeaderInformation.mk [] NoError false
  /\ linesRead ((qs "[Adblock Plus 2.0]" :: repeat (qs "! comment") 50)
                ++ [qs "||ads.example.com^"; qs "||more.example.com^"])
     = 52%nat
  /\ loadHeaderPath
       (FileLines ((qs "[Adblock Plus 2.0]" :: repeat (qs "! comment") 50)
                   ++ [qs "! Title: Late"]))
     = HeaderInformation.mk (qs "Late") NoError true
  /\ linesRead ((qs "[Adblock Plus 2.0]" :: repeat (qs "! Title: Early") 99)
                ++ [qs "! Title: Late"; qs "||ads.example.com^"])
     = 102%nat
  /\ loadHeaderPath
       (FileLines ((qs "[Adblock Plus 2.0]" :: repeat (qs "! Title: Early") 99)
                   ++ [qs "! Title: Late"; qs "||ads.example.com^"]))
     = HeaderInformation.mk (qs "Late") NoError false.
Proof. repeat split; vm_compute; reflexivity. Qed.

(** ** The profile's metadata under [loadHeader] *)

(** C10.  [loadHeader] leaves the title of a profile alone when the
    profile carries [HasCustomTitleFlag], whatever the scanned file holds;
    without the flag the title changes only to a non-empty title found by
    an error-free scan; and the name, update URL, last-update date,
    languages, category, flags, update interval, loaded flag, trie and
    cosmetic tables of the profile are never changed: among the metadata
    only the title, the emptiness hint and the error state can differ. *)
Theorem loadHeader_frame :
  forall (env : Env) (p : Profile),
    (testFlag (m_flags p) HasCustomTitleFlag = true ->
     m_title (loadHeader env p) = m_title p)
    /\ (m_title (loadHeader env p) <> m_title p ->
        testFlag (m_flags p) HasCustomTitleFlag = false
        /\ HeaderInformation.error (loadHeaderPath (files env (m_name p)))
           = NoError
        /\ HeaderInformation.title (loadHeaderPath (files env (m_name p)))
           <> []
        /\ m_title (loadHeader env p)
           = HeaderInformation.title (loadHeaderPath (files env (m_name p))))
    /\ m_name (loadHeader env p) = m_name p
    /\ m_updateUrl (loadHeader env p) = m_updateUrl p
    /\ m_lastUpdate (loadHeader env p) = m_lastUpdate p
    /\ m_languages (loadHeader env p) = m_languages p
    /\ m_category (loadHeader env p) = m_category p
    /\ m_flags (loadHeader env p) = m_flags p
    /\ m_updateInterval (loadHeader env p) = m_updateInterval p
    /\ m_wasLoaded (loadHeader env p) = m_wasLoaded p
    /\ m_root (loadHeader env p) = m_root p
    /\ m_cosmeticFiltersRules (loadHeader env p) = m_cosmeticFiltersRules p
    /\ m_cosmeticFiltersDomainRules (loadHeader env p)
       = m_cosmeticFiltersDomainRules p
    /\ m_cosmeticFiltersDomainExceptions (loadHeader env p)
       = m_cosmeticFiltersDomainExceptions p.
Proof.
  intros env p. unfold loadHeader.
  set (information := loadHeaderPath (files env (m_name p))).
  destruct (ProfileError_eqb (HeaderInformation.error information) NoError)
    eqn:Eerr; cbn [negb].
  2: { cbn. repeat split; try reflexivity;
       match goal with H : ?x <> ?x |- _ => destruct (H eq_refl) end. }
  assert (Herr : HeaderInformation.error information = NoError)
    by (destruct (HeaderInformation.error information);
        (reflexivity || discriminate)).
  destruct (negb (testFlag (m_flags p) HasCustomTitleFlag)
            && negb (isEmpty (HeaderInformation.title information))) eqn:Eset.
  - apply andb_true_iff in Eset as [Eflag Etitle].
    apply negb_true_iff in Eflag. apply negb_true_iff in Etitle.
    assert (Hne : HeaderInformation.title information <> [])
      by (intros E; rewrite E in Etitle; discriminate).
    match goal with
    | |- context [if ?c then _ else _] => destruct c
    end; unfold update;
      case_conditions; cbn; rewrite ?Eflag; repeat split; auto; discriminate.
  - match goal with
    | |- context [if ?c then _ else _] => destruct c
    end; unfold update;
      case_conditions; cbn; repeat split; auto;
      match goal with H : ?x <> ?x |- _ => destruct (H eq_refl) end.
Qed.

Lemma loadHeader_frame_witness :
  m_title
    (loadHeader
       (mkEnv (fun _ => FileLines [qs "[Adblock Plus 2.0]";
                                   qs "! Title: EasyList"]) 0 true)
       (mkProfile newNode [] [] [] None (qs "list") (qs "My list") EmptyUrl
          None [] 0 NoError HasCustomTitleFlag 0 true false []))
  = qs "My list".
Proof.
  exact (proj1 (loadHeader_frame
                  (mkEnv (fun _ => FileLines [qs "[Adblock Plus 2.0]";
                                              qs "! Title: EasyList"]) 0 true)
                  (mkProfile newNode [] [] [] None (qs "list") (qs "My list")
                     EmptyUrl None [] 0 NoError HasCustomTitleFlag 0 true
                     false []))
           eq_refl).
Defined.

(** ** The update handler: canonical buffer and checksum *)

Lemma toUtf8_nonempty (s : QString) : s <> [] -> toUtf8 s <> [].
Proof.
  destruct s as [|c s]; [congruence|]. intros _.
  unfold toUtf8. cbn [flat_map]. unfold utf8.
  destruct (Nat.ltb (nat_of_ascii c) 128); discriminate.
Qed.

(** Once a checksum has been captured, every non-empty line is appended. *)
Lemma readBody_captured (stream : list QString) (data checksum : QByteArray) :
  checksum <> [] ->
  readBody stream data checksum
  = (data ++ flat_map bufferLine (nonEmptyLines stream), checksum).
Proof.
  intros Hck. revert data.
  induction stream as [|line stream IH]; intros data; cbn [readBody].
  - cbn. now rewrite app_nil_r.
  - unfold nonEmptyLines. cbn [filter].
    destruct (isEmpty line); cbn [negb]; [apply IH|].
    destruct checksum as [|b checksum]; [congruence|]. cbn [List.length Nat.eqb andb].
    rewrite IH. cbn [flat_map]. unfold bufferLine at 2.
    now rewrite <- app_assoc.
Qed.

(** Until a checksum is captured, the lines that begin with [! Checksum:]
    are left out, the other non-empty lines are appended. *)
Lemma readBody_before (before rest : list QString) (data : QByteArray) :
  (forall line, In line before ->
     startsWith line (qs "! Checksum:") = true -> checksumValue line = []) ->
  readBody (before ++ rest) data []
  = readBody rest (data ++ flat_map bufferLine (plainLines before)) [].
Proof.
  revert data; induction before as [|line before IH]; intros data Hblank.
  - cbn. now rewrite app_nil_r.
  - cbn [app readBody]. unfold plainLines. cbn [filter].
    assert (Hrest : forall l, In l before ->
              startsWith l (qs "! Checksum:") = true -> checksumValue l = [])
      by (intros l Hl; apply Hblank; now right).
    destruct (isEmpty line); cbn [negb andb]; [now apply IH|].
    cbn [List.length Nat.eqb andb].
    destruct (startsWith line (qs "! Checksum:")) eqn:Eck; cbn [negb].
    + fold (checksumValue line).
      rewrite (Hblank line (or_introl eq_refl) Eck). cbn [toUtf8 flat_map].
      now apply IH.
    + rewrite (IH _ Hrest). cbn [flat_map]. unfold bufferLine at 3.
      now rewrite <- app_assoc.
Qed.

Lemma canonicalBuffer_no_checksum (header : QString) (body : list QString) :
  (forall line, In line body ->
     startsWith line (qs "! Checksum:") = true -> checksumValue line = []) ->
  canonicalBuffer (header :: body)
  = toUtf8 header ++ flat_map bufferLine (plainLines body)
  /\ declaredChecksum (header :: body) = [].
Proof.
  intros Hblank. unfold canonicalBuffer, declaredChecksum. cbn [hd tl].
  rewrite <- (app_nil_r body) at 1 3.
  rewrite (readBody_before body [] _ Hblank). cbn. auto.
Qed.

Lemma canonicalBuffer_checksum (header line : QString)
  (before after : list QString) :
  (forall l, In l before ->
     startsWith l (qs "! Checksum:") = true -> checksumValue l = []) ->
  startsWith line (qs "! Checksum:") = true ->
  checksumValue line <> [] ->
  canonicalBuffer (header :: before ++ line :: after)
  = toUtf8 header
    ++ flat_map bufferLine (plainLines before ++ nonEmptyLines after)
  /\ declaredChecksum (header :: before ++ line :: after)
     = toUtf8 (checksumValue line).
Proof.
  intros Hblank Hline Hvalue. unfold canonicalBuffer, declaredChecksum.
  cbn [hd tl]. rewrite (readBody_before before _ _ Hblank).
  cbn [readBody].
  assert (Hne : isEmpty line = false)
    by (destruct line; [discriminate Hline | reflexivity]).
  rewrite Hne, Hline. cbn [negb List.length Nat.eqb andb].
  fold (checksumValue line).
  rewrite readBody_captured by now apply toUtf8_nonempty.
  cbn [fst snd]. rewrite flat_map_app, <- !app_assoc. auto.
Qed.

(** Every body falls under one of the two lemmas above. *)
Lemma body_cases (body : list QString) :
  (forall line, In line body ->
     startsWith line (qs "! Checksum:") = true -> checksumValue line = [])
  \/ exists before line after,
       body = before ++ line :: after
       /\ (forall l, In l before ->
             startsWith l (qs "! Checksum:") = true -> checksumValue l = [])
       /\ startsWith line (qs "! Checksum:") = true
       /\ checksumValue line <> [].
Proof.
  induction body as [|l body IH]; [left; intros line []|].
  destruct (startsWith l (qs "! Checksum:")) eqn:Eck.
  - destruct (checksumValue l) as [|c v] eqn:Ev.
    + destruct IH as [Hall|(before & line & after & -> & Hb & Hl & Hv)].
      * left. intros line [<-|Hin]; auto.
      * right. exists (l :: before), line, after. repeat split; auto.
        intros x [<-|Hx]; auto.
    + right. exists [], l, body. repeat split; auto.
      * intros x [].
      * rewrite Ev. discriminate.
  - destruct IH as [Hall|(before & line & after & -> & Hb & Hl & Hv)].
    + left. intros line [<-|Hin]; [congruence | auto].
    + right. exists (l :: before), line, after. repeat split; auto.
      intros x [<-|Hx]; [congruence | auto].
Qed.

Lemma scanLines_error (stream : list QString) (lineNumber : Z)
  (information : HeaderInformation.t) :
  HeaderInformation.error (fst (scanLines stream lineNumber information))
  = HeaderInformation.error information.
Proof.
  revert lineNumber information.
  induction stream as [|l stream IH]; intros lineNumber information;
    cbn [scanLines]; [reflexivity|].
  destruct (startsWith (trimmed l) (qs "! Title: ")).
  - rewrite IH. cbn.
    destruct (HeaderInformation.isEmpty information && _ && _); reflexivity.
  - destruct (50 <? lineNumber).
    + destruct (HeaderInformation.isEmpty information && _ && _); reflexivity.
    + rewrite IH.
      destruct (HeaderInformation.isEmpty information && _ && _); reflexivity.
Qed.

Lemma loadHeaderPath_error (file : FileState) :
  HeaderInformation.error (loadHeaderPath file) <> ChecksumError.
Proof.
  destruct file as [| |lines]; cbn; try discriminate.
  unfold scanStream.
  destruct (negb (containsCaseInsensitive (hd [] lines) (qs "[Adblock")));
    [discriminate|].
  rewrite scanLines_error. discriminate.
Qed.

Lemma update_console (env : Env) (url : QUrl) (p : Profile) :
  console (snd (update env url p)) = console p
  \/ console (snd (update env url p)) = console p ++ [DownloadError].
Proof.
  unfold update.
  destruct (hasJob p || negb (onOwnThread env)); [now left|].
  destruct (negb (urlIsValid _)); [now right | now left].
Qed.

Lemma loadHeader_console (env : Env) (p : Profile) :
  console (loadHeader env p) = console p
  \/ exists e, e <> ChecksumError /\ console (loadHeader env p) = console p ++ [e].
Proof.
  unfold loadHeader.
  destruct (negb (ProfileError_eqb _ NoError)).
  - right. eexists. split; [apply loadHeaderPath_error | reflexivity].
  - match goal with
    | |- context [if ?c then snd (update env EmptyUrl ?q) else ?q] =>
        assert (Hq : console q = console p)
          by (destruct (negb (testFlag (m_flags p) HasCustomTitleFlag) && _);
              reflexivity);
        destruct c; [|now left];
        destruct (update_console env EmptyUrl q) as [E|E]; rewrite E, Hq
    end.
    + now left.
    + right. exists DownloadError. split; [discriminate | reflexivity].
Qed.

Lemma loadHeader_wasLoaded (env : Env) (p : Profile) :
  m_wasLoaded (loadHeader env p) = m_wasLoaded p.
Proof.
  unfold loadHeader, update.
  case_conditions; reflexivity.
Qed.

Lemma clear_wasLoaded (p : Profile) : m_wasLoaded (clear p) = false.
Proof.
  unfold clear. destruct (m_wasLoaded p) eqn:E; cbn; [reflexivity | exact E].
Qed.

Lemma clear_console (p : Profile) : console (clear p) = console p.
Proof. unfold clear. destruct (negb (m_wasLoaded p)); reflexivity. Qed.

Lemma checksumMismatch_iff (md5Base64 : QByteArray -> QByteArray)
  (data checksum : QByteArray) :
  checksumMismatch md5Base64 data checksum = true
  <-> checksum <> [] /\ removeAt 22 2 (md5Base64 data) <> checksum.
Proof.
  unfold checksumMismatch, QByteArray_eqb.
  destruct checksum as [|b checksum]; cbn [List.length Nat.eqb negb andb].
  - split; [discriminate | intros [H _]; congruence].
  - destruct (list_eq_dec Byte.byte_eq_dec _ (b :: checksum)) as [E|E];
      cbn [negb]; split; try discriminate; auto.
    + intros [_ H]. contradiction.
    + intros _. split; [discriminate | assumption].
Qed.

Lemma app_one_neq {A : Type} (l : list A) (x y : A) :
  x <> y -> l ++ [x] <> l ++ [y].
Proof. intros Hxy E. apply app_inv_head in E. congruence. Qed.

Lemma app_one_longer {A : Type} (l : list A) (x : A) : l <> l ++ [x].
Proof.
  intros E. apply (f_equal (@List.length A)) in E.
  rewrite length_app in E. cbn in E. lia.
Qed.

(** C7 (amended).  On completion of a successful job whose first line
    holds [[Adblock]: the buffer is the header line followed by the
    remaining lines that are not empty, except that the lines beginning
    with [! Checksum:] are left out up to and including the first one
    whose value is not blank; that value, trimmed, is the declared
    checksum, and [! Checksum:] lines after it stay in the buffer.  Every
    response falls under one of these two descriptions.  The handler
    raises [ChecksumError] exactly when a checksum was declared and
    differs from the base64 MD5 of the buffer with its characters 22 and
    23 removed. *)
Theorem checksum_validation :
  (forall (header : QString) (body : list QString),
     (forall line, In line body ->
        startsWith line (qs "! Checksum:") = true -> checksumValue line = []) ->
     canonicalBuffer (header :: body)
     = toUtf8 header ++ flat_map bufferLine (plainLines body)
     /\ declaredChecksum (header :: body) = [])
  /\ (forall (header line : QString) (before after : list QString),
        (forall l, In l before ->
           startsWith l (qs "! Checksum:") = true -> checksumValue l = []) ->
        startsWith line (qs "! Checksum:") = true ->
        checksumValue line <> [] ->
        canonicalBuffer (header :: before ++ line :: after)
        = toUtf8 header
          ++ flat_map bufferLine (plainLines before ++ nonEmptyLines after)
        /\ declaredChecksum (header :: before ++ line :: after)
           = toUtf8 (checksumValue line))
  /\ (forall body : list QString,
        (forall line, In line body ->
           startsWith line (qs "! Checksum:") = true ->
           checksumValue line = [])
        \/ exists before line after,
             body = before ++ line :: after
             /\ (forall l, In l before ->
                   startsWith l (qs "! Checksum:") = true ->
                   checksumValue l = [])
             /\ startsWith line (qs "! Checksum:") = true
             /\ checksumValue line <> [])
  /\ (forall (md5Base64 : QByteArray -> QByteArray) (env : Env)
             (settings : Settings) (job : Download) (p : Profile),
        hasJob p = true ->
        isSuccess job = true ->
        contains (hd [] (deviceLines job)) (qs "[Adblock") = true ->
        (handleJobFinished md5Base64 env settings job p
         = raiseError ChecksumError (set_dataFetchJob None p)
         <-> declaredChecksum (deviceLines job) <> []
             /\ removeAt 22 2 (md5Base64 (canonicalBuffer (deviceLines job)))
                <> declaredChecksum (deviceLines job))).
Proof.
  split; [exact canonicalBuffer_no_checksum|].
  split; [exact canonicalBuffer_checksum|].
  split; [exact body_cases|].
  intros md5Base64 env settings job p Hjob Hok Hheader.
  rewrite <- checksumMismatch_iff.
  unfold handleJobFinished. rewrite Hjob, Hok, Hheader. cbn [negb].
  destruct (checksumMismatch md5Base64 _ _); [tauto|].
  split; [|discriminate]. intros E. exfalso.
  apply (f_equal console) in E. revert E.
  destruct (negb (canOpenSaveFile job)).
  - cbn. apply app_one_neq. discriminate.
  - set (q := clear (set_lastUpdate (Some (currentDateTimeUtc env))
                       (set_dataFetchJob None p))).
    assert (Hq : console q = console p)
      by (unfold q; now rewrite clear_console).
    assert (Hl : m_wasLoaded (loadHeader env q) = false)
      by (rewrite loadHeader_wasLoaded; apply clear_wasLoaded).
    rewrite Hl. cbn [raiseError add_console console set_error set_dataFetchJob].
    destruct (loadHeader_console env q) as [E|(e & He & E)]; rewrite E, Hq.
    + apply app_one_longer.
    + now apply app_one_neq.
Qed.

Lemma checksum_validation_witness :
  handleJobFinished (fun _ => toUtf8 (qs "1B2M2Y8AsgTpgAmY7PhCfg=="))
    quietEnv settingsAll
    (mkDownload true
       [qs "[Adblock Plus 2.0]"; qs "! Checksum: AAAAAAAAAAAAAAAAAAAAAA";
        qs "||ads.example.com^"] true)
    (mkProfile newNode [] [] [] (Some (ValidUrl (qs "https://lists.test/a.txt")))
       (qs "list") (qs "List") (ValidUrl (qs "https://lists.test/a.txt")) None
       [] 0 NoError NoFlags 0 true false [])
  = raiseError ChecksumError
      (set_dataFetchJob None
         (mkProfile newNode [] [] []
            (Some (ValidUrl (qs "https://lists.test/a.txt")))
            (qs "list") (qs "List") (ValidUrl (qs "https://lists.test/a.txt"))
            None [] 0 NoError NoFlags 0 true false [])).
Proof.
  apply (proj2 (proj2 (proj2 (proj2 checksum_validation))
                  (fun _ => toUtf8 (qs "1B2M2Y8AsgTpgAmY7PhCfg=="))
                  quietEnv settingsAll
                  (mkDownload true
                     [qs "[Adblock Plus 2.0]";
                      qs "! Checksum: AAAAAAAAAAAAAAAAAAAAAA";
                      qs "||ads.example.com^"] true)
                  (mkProfile newNode [] [] []
                     (Some (ValidUrl (qs "https://lists.test/a.txt")))
                     (qs "list") (qs "List")
                     (ValidUrl (qs "https://lists.test/a.txt")) None
                     [] 0 NoError NoFlags 0 true false [])
                  eq_refl eq_refl eq_refl)).
  split; vm_compute; discriminate.
Defined.

(** C7 as stated fails: an empty line of the response is left out of the
    buffer, and only the first [! Checksum:] line is taken out, so the
    buffer is not the header followed by every remaining line except the
    checksum lines. *)
Lemma checksum_validation_counterexample :
  canonicalBuffer [qs "[Adblock Plus 2.0]"; []; qs "||ads.example.com^"]
  = toUtf8 (qs "[Adblock Plus 2.0]" ++ "010"%char :: qs "||ads.example.com^")
  /\ canonicalBufferSpec [qs "[Adblock Plus 2.0]"; []; qs "||ads.example.com^"]
     = toUtf8 (qs "[Adblock Plus 2.0]"
               ++ "010"%char :: "010"%char :: qs "||ads.example.com^")
  /\ canonicalBuffer [qs "[Adblock Plus 2.0]"; []; qs "||ads.example.com^"]
     <> canonicalBufferSpec
          [qs "[Adblock Plus 2.0]"; []; qs "||ads.example.com^"]
  /\ canonicalBuffer [qs "[Adblock Plus 2.0]"; qs "! Checksum: one";
                      qs "! Checksum: two"]
     = toUtf8 (qs "[Adblock Plus 2.0]" ++ "010"%char :: qs "! Checksum: two")
  /\ canonicalBufferSpec [qs "[Adblock Plus 2.0]"; qs "! Checksum: one";
                          qs "! Checksum: two"]
     = toUtf8 (qs "[Adblock Plus 2.0]").
Proof.
  repeat split; try (vm_compute; reflexivity). vm_compute. discriminate.
Qed.

(** ** Further properties of the trie and of the matcher *)

Lemma wellOrdered_eq (v : QChar) (cs : list Node) (rs : list Rule) :
  wellOrdered (mkNode v cs rs) = separatorFirst cs && forallb wellOrdered cs.
Proof. reflexivity. Qed.

Lemma separatorFirst_replace (before after : list Node) (n n' : Node) :
  value n' = value n ->
  separatorFirst (before ++ n :: after) = true ->
  separatorFirst (before ++ n' :: after) = true.
Proof.
  intros Hv. unfold separatorFirst.
  destruct before as [|x before]; cbn [app tl]; [auto|].
  rewrite !forallb_app. cbn [forallb]. now rewrite Hv.
Qed.

Lemma wellOrdered_insertRule (d : Rule) (line : QString) :
  forall node, wellOrdered node = true ->
               wellOrdered (insertRule node line d) = true.
Proof.
  induction line as [|c line IH]; intros [v cs rs] Hw.
  - exact Hw.
  - rewrite wellOrdered_eq in Hw. apply andb_true_iff in Hw as [Hfirst Hall].
    cbn [insertRule children value rules].
    destruct (descendChild _ c cs) as [cs'|] eqn:E.
    + apply descendChild_some in E
        as (before & n & after & -> & -> & Hn & Hbefore).
      rewrite wellOrdered_eq. apply andb_true_iff. split.
      * apply (separatorFirst_replace before after n); [|assumption].
        apply value_insertRule.
      * rewrite forallb_app in *. cbn [forallb] in *.
        apply andb_true_iff in Hall as [Hb Hrest].
        apply andb_true_iff in Hrest as [Hn' Ha].
        now rewrite Hb, Ha, (IH n Hn').
    + pose proof (descendChild_none _ _ _ E) as Hnone.
      assert (Hnew : wellOrdered (insertRule (mkNode c [] []) line d) = true)
        by (apply IH; reflexivity).
      destruct (Ascii.eqb c "^"%char) eqn:Ec; rewrite wellOrdered_eq.
      * apply Ascii.eqb_eq in Ec. subst c.
        cbn [forallb]. rewrite Hnew, Hall.
        unfold separatorFirst. cbn [tl].
        replace (forallb _ cs) with true; [reflexivity|].
        symmetry. apply forallb_forall. intros x Hx.
        now rewrite (Hnone x Hx).
      * rewrite forallb_app. cbn [forallb]. rewrite Hall, Hnew.
        rewrite andb_true_r. cbn [andb].
        unfold separatorFirst in *. destruct cs as [|x cs]; [reflexivity|].
        cbn [app tl] in *. rewrite forallb_app, Hfirst. cbn [forallb].
        rewrite value_insertRule. cbn [value]. now rewrite Ec.
Qed.

(** X1.  Among siblings only the first child may carry '^': the ordering
    holds in the empty trie and is kept by every insertion, hence in every
    trie that [parseRuleLine] builds from the empty one. *)
Theorem separator_child_stays_first :
  wellOrdered newNode = true
  /\ (forall (d : Rule) (line : QString) (node : Node),
        wellOrdered node = true ->
        wellOrdered (insertRule node line d) = true)
  /\ (forall (settings : Settings) (raws : list QString) (p : Profile),
        wellOrdered (m_root p) = true ->
        wellOrdered
          (m_root (fold_left (fun q raw => parseRuleLine settings raw q) raws p))
        = true).
Proof.
  split; [reflexivity|]. split; [exact wellOrdered_insertRule|].
  intros settings raws. induction raws as [|raw raws IH]; intros p Hp;
    [exact Hp|].
  cbn [fold_left]. apply IH. unfold parseRuleLine.
  repeat match goal with
         | |- context [if ?c then _ else _] => destruct c
         | |- context [match getCosmeticFiltersMode settings with _ => _ end] =>
             destruct (getCosmeticFiltersMode settings)
         end; try exact Hp.
  destruct (parseNetworkRule _ raw) as [[definition line]|]; [|exact Hp].
  now apply wellOrdered_insertRule.
Qed.

Lemma separator_child_stays_first_witness :
  wellOrdered
    (m_root (profileOf [qs "ads/"; qs "ads^"; qs "ad^x"; qs "^top"; qs "b"]))
  = true.
Proof.
  exact (proj2 (proj2 separator_child_stays_first) settingsAll
           [qs "ads/"; qs "ads^"; qs "ad^x"; qs "^top"; qs "b"]
           loadedProfile eq_refl).
Defined.

(** X2.  A loaded profile whose trie stores no rule lets every request
    pass. *)
Theorem empty_trie_passes :
  forall (env : Env) (settings : Settings) (p : Profile) (request : Request),
    m_wasLoaded p = true ->
    allRules (m_root p) = [] ->
    fst (checkUrl env settings p request) = CheckResult.pass.
Proof.
  intros env settings p request Hloaded Hnone.
  rewrite (checkUrl_verdict _ _ _ _ Hloaded).
  replace (walkResults (m_root p) request) with (@nil CheckResult.t);
    [reflexivity|].
  unfold walkResults.
  destruct (checkUrlVisits (m_root p) (requestUrl request)) as [|x l] eqn:E;
    [reflexivity|].
  assert (Hx : In x (checkUrlVisits (m_root p) (requestUrl request)))
    by (rewrite E; now left).
  apply checkUrlVisits_rules in Hx. rewrite Hnone in Hx. contradiction.
Qed.

Lemma empty_trie_passes_witness :
  fst (checkUrl quietEnv settingsAll loadedProfile
         (mkRequest (qs "http://ads.example.com/banner.gif")
            (qs "ads.example.com") (qs "site.test") ImageType))
  = CheckResult.pass.
Proof.
  exact (empty_trie_passes quietEnv settingsAll loadedProfile
           (mkRequest (qs "http://ads.example.com/banner.gif")
              (qs "ads.example.com") (qs "site.test") ImageType)
           eq_refl eq_refl).
Defined.

(** X3.  Whatever [checkUrl] returns for a loaded profile is a pass or
    names a rule stored in the trie: a block carries the raw line of a
    stored block rule, an exception the raw line of a stored exception
    rule. *)
Theorem result_names_stored_rule :
  forall (env : Env) (settings : Settings) (p : Profile) (request : Request),
    m_wasLoaded p = true ->
    fst (checkUrl env settings p request) = CheckResult.pass
    \/ exists d,
         In d (allRules (m_root p))
         /\ CheckResult.rule (fst (checkUrl env settings p request)) = rule d
         /\ CheckResult.isException (fst (checkUrl env settings p request))
            = isException d
         /\ CheckResult.isBlocked (fst (checkUrl env settings p request))
            = negb (isException d).
Proof.
  intros env settings p request Hloaded.
  rewrite (checkUrl_verdict _ _ _ _ Hloaded).
  assert (Hshape : forall r, In r (walkResults (m_root p) request) ->
            r = CheckResult.pass
            \/ exists d, In d (allRules (m_root p))
                         /\ CheckResult.rule r = rule d
                         /\ CheckResult.isException r = isException d
                         /\ CheckResult.isBlocked r = negb (isException d)).
  { intros r Hr. unfold walkResults in Hr.
    apply in_map_iff in Hr as ([d cur] & <- & Hv).
    apply checkUrlVisits_rules in Hv. cbn [fst] in Hv.
    unfold evaluate. cbn [fst snd].
    destruct (checkRuleMatch_shape d cur request)
      as [->|[[He ->]|[He [mode ->]]]]; [now left| |];
      right; exists d; rewrite He; auto. }
  unfold verdict. destruct (find _ _) as [e|] eqn:E.
  - apply find_some in E as [Hin _]. now apply Hshape.
  - destruct (filter CheckResult.isBlocked (walkResults (m_root p) request))
      as [|x l] eqn:Ef; [now left|].
    assert (Hl : In (last (x :: l) CheckResult.pass) (x :: l))
      by (apply last_in; discriminate).
    rewrite <- Ef in Hl at 2. apply filter_In in Hl as [Hl _].
    now apply Hshape.
Qed.

Lemma result_names_stored_rule_witness :
  fst (checkUrl quietEnv settingsAll (profileOf [qs "||ads.example.com^"])
         (mkRequest (qs "http://ads.example.com/banner.gif")
            (qs "ads.example.com") (qs "site.test") ImageType))
  = CheckResult.pass
  \/ exists d,
       In d (allRules (m_root (profileOf [qs "||ads.example.com^"])))
       /\ CheckResult.rule
            (fst (checkUrl quietEnv settingsAll
                    (profileOf [qs "||ads.example.com^"])
                    (mkRequest (qs "http://ads.example.com/banner.gif")
                       (qs "ads.example.com") (qs "site.test") ImageType)))
          = rule d
       /\ CheckResult.isException
            (fst (checkUrl quietEnv settingsAll
                    (profileOf [qs "||ads.example.com^"])
                    (mkRequest (qs "http://ads.example.com/banner.gif")
                       (qs "ads.example.com") (qs "site.test") ImageType)))
          = isException d
       /\ CheckResult.isBlocked
            (fst (checkUrl quietEnv settingsAll
                    (profileOf [qs "||ads.example.com^"])
                    (mkRequest (qs "http://ads.example.com/banner.gif")
                       (qs "ads.example.com") (qs "site.test") ImageType)))
          = negb (isException d).
Proof.
  exact (result_names_stored_rule quietEnv settingsAll
           (profileOf [qs "||ads.example.com^"])
           (mkRequest (qs "http://ads.example.com/banner.gif")
              (qs "ads.example.com") (qs "site.test") ImageType)
           eq_refl).
Defined.

Lemma popup_passes_rule_without_options_witness :
  checkRuleMatch
    (mkRule (qs "||ads.example.com^") false true ContainsMatch NoOption
       NoOption [] [])
    (qs "ads.example.com")
    (mkRequest (qs "http://ads.example.com/") (qs "ads.example.com")
       (qs "site.test") PopupType)
  = CheckResult.pass.
Proof.
  exact (popup_passes_rule_without_options
           (mkRule (qs "||ads.example.com^") false true ContainsMatch NoOption
              NoOption [] [])
           (qs "ads.example.com")
           (mkRequest (qs "http://ads.example.com/") (qs "ads.example.com")
              (qs "site.test") PopupType)
           eq_refl eq_refl eq_refl).
Defined.

(** X5.  On a readable file the header scan reports [ParseError] exactly
    when the first line does not hold [[Adblock], letter case apart, and
    no other error. *)
Theorem header_scan_error :
  forall lines : list QString,
    HeaderInformation.error (loadHeaderPath (FileLines lines))
    = if containsCaseInsensitive (hd [] lines) (qs "[Adblock")
      then NoError else ParseError.
Proof.
  intros lines. cbn [loadHeaderPath]. unfold scanStream.
  destruct (containsCaseInsensitive (hd [] lines) (qs "[Adblock"));
    cbn [negb]; [|reflexivity].
  now rewrite scanLines_error.
Qed.

(** ** Looking a rule up on its path *)

Lemma find_app {A : Type} (f : A -> bool) (a b : list A) :
  find f (a ++ b)
  = match find f a with Some x => Some x | None => find f b end.
Proof.
  induction a as [|x a IH]; [reflexivity|].
  cbn [app find]. destruct (f x); [reflexivity | exact IH].
Qed.

Lemma find_none_all {A : Type} (f : A -> bool) (l : list A) :
  (forall x, In x l -> f x = false) -> find f l = None.
Proof.
  induction l as [|x l IH]; intros H; [reflexivity|].
  cbn [find]. rewrite (H x) by now left.
  apply IH. intros y Hy. apply H. now right.
Qed.

Lemma find_split {A : Type} (f : A -> bool) (l : list A) (x : A) :
  find f l = Some x ->
  exists before after,
    l = before ++ x :: after /\ f x = true
    /\ forall y, In y before -> f y = false.
Proof.
  induction l as [|y l IH]; intros H; [discriminate|].
  cbn [find] in H. destruct (f y) eqn:E.
  - injection H as <-. exists [], l. repeat split; auto. intros z [].
  - destruct (IH H) as (before & after & -> & Hx & Hb).
    exists (y :: before), after. repeat split; auto.
    intros z [<-|Hz]; auto.
Qed.

Lemma find_middle {A : Type} (f : A -> bool) (before after : list A) (x : A) :
  (forall y, In y before -> f y = false) -> f x = true ->
  find f (before ++ x :: after) = Some x.
Proof.
  intros Hb Hx. rewrite find_app, (find_none_all f before Hb).
  cbn [find]. now rewrite Hx.
Qed.

Lemma find_skip {A : Type} (f : A -> bool) (before after : list A) (x y : A) :
  f x = false -> f y = false ->
  find f (before ++ x :: after) = find f (before ++ y :: after).
Proof.
  intros Hx Hy. rewrite !find_app. cbn [find]. now rewrite Hx, Hy.
Qed.

Lemma lookupPath_leaf (c : QChar) (line : QString) :
  lookupPath (mkNode c [] []) line = [].
Proof. destruct line; reflexivity. Qed.

Lemma eqb_sym_false (a b : QChar) :
  Ascii.eqb a b = false -> Ascii.eqb b a = false.
Proof. rewrite (Ascii.eqb_sym a b). auto. Qed.

(** The rules found on a path after an insertion: the new rule is added
    at the end of its own path, every other path keeps what it had. *)
Lemma lookupPath_insertRule (d : Rule) (line : QString) :
  forall (node : Node) (line' : QString),
    lookupPath (insertRule node line d) line'
    = if QString_eqb line line'
      then lookupPath node line ++ [d]
      else lookupPath node line'.
Proof.
  induction line as [|c line IH]; intros node line'.
  - destruct line'; reflexivity.
  - destruct line' as [|c' line']; [|cbn [QString_eqb]].
    { cbn [insertRule].
      destruct (descendChild _ c (children node));
        [|destruct (Ascii.eqb c "^"%char)]; reflexivity. }
    cbn [insertRule lookupPath].
    destruct (descendChild _ c (children node)) as [cs|] eqn:E.
    + apply descendChild_some in E
        as (before & n & after & Hcs & -> & Hn & Hbefore).
      cbn [children]. rewrite Hcs.
      destruct (Ascii.eqb c c') eqn:Ecc; cbn [andb].
      * apply Ascii.eqb_eq in Ecc. subst c'.
        rewrite !find_middle;
          try (rewrite ?value_insertRule, Hn; apply Ascii.eqb_refl);
          try assumption.
        apply IH.
      * rewrite (find_skip _ before after (insertRule n line d) n);
          [reflexivity| |].
        -- rewrite value_insertRule, Hn. exact Ecc.
        -- rewrite Hn. exact Ecc.
    + pose proof (descendChild_none _ _ _ E) as Hnone.
      assert (Hfresh : value (insertRule (mkNode c [] []) line d) = c)
        by apply value_insertRule.
      destruct (Ascii.eqb c c') eqn:Ecc; cbn [andb].
      * apply Ascii.eqb_eq in Ecc. subst c'.
        rewrite (find_none_all _ (children node) Hnone).
        destruct (Ascii.eqb c "^"%char); cbn [children].
        -- cbn [find]. rewrite Hfresh, Ascii.eqb_refl.
           rewrite IH, !lookupPath_leaf. reflexivity.
        -- rewrite find_app, (find_none_all _ (children node) Hnone).
           cbn [find]. rewrite Hfresh, Ascii.eqb_refl.
           rewrite IH, !lookupPath_leaf. reflexivity.
      * destruct (Ascii.eqb c "^"%char); cbn [children].
        -- cbn [find]. rewrite Hfresh, Ecc. reflexivity.
        -- rewrite find_app. cbn [find]. rewrite Hfresh, Ecc.
           destruct (find _ (children node)); reflexivity.
Qed.

Lemma lookupPath_insertRule_incl (d d' : Rule) (line line' : QString)
  (node : Node) :
  In d (lookupPath node line) ->
  In d (lookupPath (insertRule node line' d') line).
Proof.
  intros H. rewrite lookupPath_insertRule.
  destruct (QString_eqb line' line) eqn:E; [|exact H].
  apply QString_eqb_eq in E. subst line'. apply in_or_app. now left.
Qed.

Lemma lookupPath_inserted (d : Rule) (line : QString) (node : Node) :
  In d (lookupPath (insertRule node line d) line).
Proof.
  rewrite lookupPath_insertRule.
  replace (QString_eqb line line) with true
    by (symmetry; now apply QString_eqb_eq).
  apply in_or_app. right. now left.
Qed.

(** X6.  Inserting a rule on a path and looking paths up afterwards: the
    path of the rule holds what it held before, followed by the new rule;
    every other path holds exactly what it held before. *)
Theorem insert_then_lookup :
  forall (d : Rule) (line line' : QString) (node : Node),
    lookupPath (insertRule node line d) line = lookupPath node line ++ [d]
    /\ (line' <> line ->
        lookupPath (insertRule node line d) line' = lookupPath node line').
Proof.
  intros d line line' node. rewrite !lookupPath_insertRule. split.
  - replace (QString_eqb line line) with true
      by (symmetry; now apply QString_eqb_eq).
    reflexivity.
  - intros Hne. destruct (QString_eqb line line') eqn:E; [|reflexivity].
    apply QString_eqb_eq in E. congruence.
Qed.

(** A rule found on the path [line] is evaluated, on [line], by the walk
    over any slice that begins with [line]. *)
Lemma descendVisits_lookup (d : Rule) (line post : QString) :
  forall (node : Node) (currentRule : QString),
    In d (lookupPath node line) ->
    In (d, currentRule ++ line)
       (descendVisits node (line ++ post) currentRule).
Proof.
  induction line as [|c line IH]; intros node currentRule Hd.
  - rewrite app_nil_r. apply nodeVisits_descendVisits.
    unfold nodeVisits. apply in_map_iff. now exists d.
  - cbn [lookupPath] in Hd.
    destruct (find _ (children node)) as [child|] eqn:E; [|contradiction].
    apply find_split in E as (before & after & Hcs & Hv & Hb).
    apply Ascii.eqb_eq in Hv.
    destruct node as [v cs rs]. cbn [children] in Hcs. subst cs.
    cbn [app].
    apply (descendVisits_child v before after child rs c); auto.
    replace (currentRule ++ c :: line) with ((currentRule ++ [c]) ++ line)
      by (rewrite <- app_assoc; reflexivity).
    now apply IH.
Qed.

Lemma checkUrlVisits_lookup (d : Rule) (line url : QString) (root : Node) :
  In d (lookupPath root line) ->
  url <> [] -> contains url line = true ->
  In (d, line) (checkUrlVisits root url).
Proof.
  intros Hd Hurl Hc. apply contains_inv in Hc as (pre & post & ->).
  destruct (line ++ post) as [|c s] eqn:E.
  - apply app_eq_nil in E as [-> ->]. rewrite app_nil_r in *.
    apply (checkUrlVisits_suffix _ [] pre Hurl).
    apply (descendVisits_lookup d [] pre _ [] Hd).
  - apply (checkUrlVisits_suffix _ pre (c :: s)); [discriminate|].
    rewrite <- E. apply (descendVisits_lookup d line post _ [] Hd).
Qed.

Lemma verdict_applies (results : list CheckResult.t) (r : CheckResult.t) :
  In r results -> applies r = true -> applies (verdict results) = true.
Proof.
  intros Hin Hr. unfold verdict, applies in *.
  destruct (find CheckResult.isException results) as [e|] eqn:E.
  - apply find_some in E as [_ He]. rewrite He. apply orb_true_r.
  - assert (Hb : CheckResult.isBlocked r = true).
    { apply orb_true_iff in Hr as [H|H]; [exact H|].
      pose proof (find_none _ _ E r Hin) as Hn. congruence. }
    assert (Hne : filter CheckResult.isBlocked results <> []).
    { intros Ef. assert (Hf : In r (filter CheckResult.isBlocked results))
        by (apply filter_In; auto).
      rewrite Ef in Hf. contradiction. }
    pose proof (last_in _ CheckResult.pass Hne) as Hl.
    apply filter_In in Hl as [_ Hl]. now rewrite Hl.
Qed.

Lemma walk_applies (root : Node) (request : Request) (d : Rule)
  (line : QString) :
  In d (lookupPath root line) ->
  requestUrl request <> [] ->
  contains (requestUrl request) line = true ->
  applies (checkRuleMatch d line request) = true ->
  applies (verdict (walkResults root request)) = true.
Proof.
  intros Hd Hurl Hc Ha.
  apply (verdict_applies _ (checkRuleMatch d line request)); [|exact Ha].
  unfold walkResults. apply in_map_iff. exists (d, line).
  split; [reflexivity|]. now apply checkUrlVisits_lookup.
Qed.

(** X7.  Whatever else a loaded trie holds, a rule stored on the path
    [line] is reached by the walk over every non-empty URL that contains
    [line]: if the rule, evaluated on [line], applies to the request, then
    [checkUrl] does not let the request pass. *)
Theorem stored_rule_decides :
  forall (env : Env) (settings : Settings) (p : Profile) (request : Request)
         (d : Rule) (line : QString),
    m_wasLoaded p = true ->
    In d (lookupPath (m_root p) line) ->
    requestUrl request <> [] ->
    contains (requestUrl request) line = true ->
    applies (checkRuleMatch d line request) = true ->
    applies (fst (checkUrl env settings p request)) = true.
Proof.
  intros env settings p request d line Hl Hd Hurl Hc Ha.
  rewrite (checkUrl_verdict _ _ _ _ Hl).
  now apply (walk_applies _ _ d line).
Qed.

Lemma stored_rule_decides_witness :
  applies
    (fst (checkUrl quietEnv settingsAll
            (profileOf [qs "@@|http://good.test/"; qs "/ads/*";
                        qs "|http://ads.test/$image"; qs "tracker"])
            (mkRequest (qs "http://ads.test/pixel.gif") (qs "ads.test")
               (qs "site.test") ImageType))) = true.
Proof.
  apply (stored_rule_decides quietEnv settingsAll
           (profileOf [qs "@@|http://good.test/"; qs "/ads/*";
                       qs "|http://ads.test/$image"; qs "tracker"])
           (mkRequest (qs "http://ads.test/pixel.gif") (qs "ads.test")
              (qs "site.test") ImageType)
           (mkRule (qs "|http://ads.test/$image") false false StartMatch
              (optionBit ImageOption) NoOption [] [])
           (qs "http://ads.test/"));
    try (vm_compute; reflexivity).
  - vm_compute. auto.
  - vm_compute. discriminate.
Defined.

(** ** Loading the rules of a file *)

Lemma parseRuleLine_wasLoaded (settings : Settings) (raw : QString)
  (p : Profile) :
  m_wasLoaded (parseRuleLine settings raw p) = m_wasLoaded p.
Proof.
  unfold parseRuleLine.
  repeat match goal with
         | |- context [if ?c then _ else _] => destruct c
         | |- context [match getCosmeticFiltersMode settings with _ => _ end] =>
             destruct (getCosmeticFiltersMode settings)
         end; try reflexivity.
  destruct (parseNetworkRule _ raw) as [[definition line]|]; reflexivity.
Qed.

Lemma parseRuleLine_lookup (settings : Settings) (raw line : QString)
  (d : Rule) (p : Profile) :
  In d (lookupPath (m_root p) line) ->
  In d (lookupPath (m_root (parseRuleLine settings raw p)) line).
Proof.
  intros H. unfold parseRuleLine.
  repeat match goal with
         | |- context [if ?c then _ else _] => destruct c
         | |- context [match getCosmeticFiltersMode settings with _ => _ end] =>
             destruct (getCosmeticFiltersMode settings)
         end; try exact H.
  destruct (parseNetworkRule _ raw) as [[definition line']|]; [|exact H].
  cbn [set_root m_root]. now apply lookupPath_insertRule_incl.
Qed.

Lemma parseLines_wasLoaded (settings : Settings) (raws : list QString) :
  forall p,
    m_wasLoaded (fold_left (fun q raw => parseRuleLine settings raw q) raws p)
    = m_wasLoaded p.
Proof.
  induction raws as [|raw raws IH]; intros p; [reflexivity|].
  cbn [fold_left]. rewrite IH. apply parseRuleLine_wasLoaded.
Qed.

Lemma parseLines_lookup_kept (settings : Settings) (raws : list QString)
  (line : QString) (d : Rule) :
  forall p,
    In d (lookupPath (m_root p) line) ->
    In d (lookupPath
            (m_root (fold_left (fun q raw => parseRuleLine settings raw q)
                       raws p)) line).
Proof.
  induction raws as [|raw raws IH]; intros p H; [exact H|].
  cbn [fold_left]. apply IH. now apply parseRuleLine_lookup.
Qed.

(** Every network rule of the parsed lines is found on its path. *)
Lemma parseLines_lookup (settings : Settings) (raws : list QString)
  (raw line : QString) (d : Rule) :
  In raw raws -> isNetworkLine raw = true ->
  parseNetworkRule (areWildcardsEnabled settings) raw = Some (d, line) ->
  forall p,
    In d (lookupPath
            (m_root (fold_left (fun q r => parseRuleLine settings r q) raws p))
            line).
Proof.
  intros Hin Hnet Hparse.
  induction raws as [|r raws IH]; intros p; [contradiction|].
  cbn [fold_left]. destruct Hin as [->|Hin].
  - apply parseLines_lookup_kept.
    rewrite (parseRuleLine_network _ _ _ _ p Hnet Hparse).
    cbn [set_root m_root]. apply lookupPath_inserted.
  - now apply IH.
Qed.

Lemma loadRules_loads (env : Env) (settings : Settings) (p : Profile) :
  m_isEmpty p && negb (urlIsEmpty (m_updateUrl p)) = false ->
  loadRules env settings p
  = (true,
     fold_left (fun q line => parseRuleLine settings line q)
       (match files env (m_name p) with
        | FileLines lines => tl lines
        | _ => []
        end)
       (set_root newNode (set_wasLoaded true (set_error NoError p)))).
Proof.
  intros H. unfold loadRules.
  change (m_isEmpty (set_error NoError p)) with (m_isEmpty p).
  change (m_updateUrl (set_error NoError p)) with (m_updateUrl p).
  now rewrite H.
Qed.

(** X8.  The first [checkUrl] on a profile that is not loaded, and that is
    not an empty profile waiting for its update, loads the file of the
    profile and honours every network rule in it: if a line after the
    header parses into a rule with residual pattern [line], the URL of the
    request is not empty and contains [line], and the rule evaluated on
    [line] applies to the request, then the request is not let pass; the
    profile is loaded afterwards. *)
Theorem file_rules_are_honoured :
  forall (env : Env) (settings : Settings) (p : Profile) (request : Request)
         (header raw line : QString) (body : list QString) (d : Rule),
    m_wasLoaded p = false ->
    m_isEmpty p && negb (urlIsEmpty (m_updateUrl p)) = false ->
    files env (m_name p) = FileLines (header :: body) ->
    In raw body ->
    isNetworkLine raw = true ->
    parseNetworkRule (areWildcardsEnabled settings) raw = Some (d, line) ->
    requestUrl request <> [] ->
    contains (requestUrl request) line = true ->
    applies (checkRuleMatch d line request) = true ->
    applies (fst (checkUrl env settings p request)) = true
    /\ m_wasLoaded (snd (checkUrl env settings p request)) = true.
Proof.
  intros env settings p request header raw line body d Hunloaded Hready Hfile
    Hin Hnet Hparse Hurl Hc Ha.
  unfold checkUrl. rewrite Hunloaded, (loadRules_loads _ _ _ Hready).
  cbn [fst snd]. rewrite Hfile. cbn [tl]. split.
  - match goal with
    | |- context [checkUrlFrom ?r request _ _] =>
        rewrite checkUrlFrom_settle;
        change (map (evaluate request) (checkUrlVisits r (requestUrl request)))
          with (walkResults r request)
    end.
    rewrite (settle_verdict _ _ (walkResults_exclusive _ request)).
    apply (walk_applies _ _ d line); auto.
    now apply (parseLines_lookup settings body raw).
  - now rewrite parseLines_wasLoaded.
Qed.

Lemma file_rules_are_honoured_witness :
  applies
    (fst (checkUrl
            (mkEnv (fun _ => FileLines [qs "[Adblock Plus 2.0]";
                                        qs "! Title: Test";
                                        qs "@@|http://good.test/";
                                        qs "##.banner";
                                        qs "|http://ads.test/$script"]) 0 true)
            settingsAll
            (mkProfile newNode [] [] [] None (qs "list") (qs "List") EmptyUrl
               None [] 0 NoError NoFlags 0 false false [])
            (mkRequest (qs "http://ads.test/a.js") (qs "ads.test")
               (qs "site.test") ScriptType))) = true
  /\ m_wasLoaded
       (snd (checkUrl
               (mkEnv (fun _ => FileLines [qs "[Adblock Plus 2.0]";
                                           qs "! Title: Test";
                                           qs "@@|http://good.test/";
                                           qs "##.banner";
                                           qs "|http://ads.test/$script"])
                  0 true)
               settingsAll
               (mkProfile newNode [] [] [] None (qs "list") (qs "List")
                  EmptyUrl None [] 0 NoError NoFlags 0 false false [])
               (mkRequest (qs "http://ads.test/a.js") (qs "ads.test")
                  (qs "site.test") ScriptType))) = true.
Proof.
  apply (file_rules_are_honoured
           (mkEnv (fun _ => FileLines [qs "[Adblock Plus 2.0]";
                                       qs "! Title: Test";
                                       qs "@@|http://good.test/";
                                       qs "##.banner";
                                       qs "|http://ads.test/$script"]) 0 true)
           settingsAll
           (mkProfile newNode [] [] [] None (qs "list") (qs "List") EmptyUrl
              None [] 0 NoError NoFlags 0 false false [])
           (mkRequest (qs "http://ads.test/a.js") (qs "ads.test")
              (qs "site.test") ScriptType)
           (qs "[Adblock Plus 2.0]") (qs "|http://ads.test/$script")
           (qs "http://ads.test/")
           [qs "! Title: Test"; qs "@@|http://good.test/"; qs "##.banner";
            qs "|http://ads.test/$script"]
           (mkRule (qs "|http://ads.test/$script") false false StartMatch
              (optionBit ScriptOption) NoOption [] []));
    try (vm_compute; reflexivity).
  - vm_compute. auto 6.
  - vm_compute. discriminate.
Defined.

(** ** A trie that holds one rule *)

Lemma insertRule_leaf_cons (v c : QChar) (line : QString) (d : Rule) :
  insertRule (mkNode v [] []) (c :: line) d
  = mkNode v [insertRule (mkNode c [] []) line d] [].
Proof.
  cbn [insertRule children descendChild value rules].
  destruct (Ascii.eqb c "^"%char); reflexivity.
Qed.

(** In the trie of one rule with a literal pattern, every evaluation is
    that of the rule on its full pattern. *)
Lemma literal_path_visits (d : Rule) (line : QString) :
  isLiteral line = true ->
  forall (v : QChar) (s currentRule : QString) (x : Visit),
    In x (descendVisits (insertRule (mkNode v [] []) line d) s currentRule) ->
    x = (d, currentRule ++ line).
Proof.
  induction line as [|c line IH]; intros Hlit v s currentRule x Hx.
  - rewrite app_nil_r. cbn [insertRule children value rules app] in Hx.
    destruct s; cbn in Hx; destruct Hx as [<-|[]]; reflexivity.
  - cbn [isLiteral forallb] in Hlit.
    apply andb_true_iff in Hlit as [Hc Hlit].
    apply andb_true_iff in Hc as [Hstar Hcaret].
    apply negb_true_iff in Hstar. apply negb_true_iff in Hcaret.
    rewrite insertRule_leaf_cons in Hx.
    destruct s as [|t s]; cbn [descendVisits] in Hx.
    + unfold finishVisits in Hx. cbn [nodeVisits rules map app children] in Hx.
      cbn [separatorVisits] in Hx.
      rewrite value_insertRule in Hx. cbn [value] in Hx.
      rewrite Hcaret in Hx. contradiction.
    + cbn [nodeVisits rules map app] in Hx.
      rewrite value_insertRule in Hx. cbn [value] in Hx.
      rewrite Hstar, Hcaret in Hx. cbn [andb app] in Hx.
      destruct (Ascii.eqb c t) eqn:Ect; [|contradiction].
      apply Ascii.eqb_eq in Ect. subst t.
      apply (IH Hlit) in Hx. rewrite Hx, <- app_assoc. reflexivity.
Qed.

Lemma literal_trie_results (d : Rule) (line : QString) (request : Request) :
  isLiteral line = true ->
  forall r, In r (walkResults (insertRule newNode line d) request) ->
            r = checkRuleMatch d line request.
Proof.
  intros Hlit r Hr. unfold walkResults in Hr.
  apply in_map_iff in Hr as (x & <- & Hx).
  assert (Hv : x = (d, line)).
  { induction (requestUrl request) as [|c url IH]; [contradiction|].
    cbn [checkUrlVisits] in Hx. apply in_app_or in Hx as [Hx|Hx]; [|auto].
    now apply (literal_path_visits d line Hlit) in Hx. }
  now subst x.
Qed.

Lemma endsWith_contains (s p : QString) :
  endsWith s p = true -> contains s p = true.
Proof.
  unfold endsWith. intros H. apply startsWith_inv in H as [t Ht].
  apply (f_equal (@rev QChar)) in Ht.
  rewrite rev_involutive, rev_app_distr, rev_involutive in Ht.
  rewrite Ht. pose proof (contains_app (rev t) p []) as H.
  now rewrite app_nil_r in H.
Qed.

Lemma patternMatches_contains (d : Rule) (currentRule : QString)
  (request : Request) :
  patternMatches d currentRule request = true ->
  contains (requestUrl request) currentRule = true.
Proof.
  unfold patternMatches. destruct (ruleMatch d); intros H.
  - exact H.
  - now apply startsWith_contains.
  - now apply endsWith_contains.
  - apply QString_eqb_eq in H. rewrite H.
    apply startsWith_contains. rewrite <- (app_nil_r currentRule) at 1.
    apply startsWith_app.
Qed.

Lemma checkRuleMatch_needs_pattern (d : Rule) (currentRule : QString)
  (request : Request) :
  contains (requestUrl request) currentRule = false ->
  checkRuleMatch d currentRule request = CheckResult.pass.
Proof.
  intros H. unfold checkRuleMatch.
  destruct (patternMatches d currentRule request) eqn:E; [|reflexivity].
  apply patternMatches_contains in E. congruence.
Qed.

(** The verdict over copies of one result of [checkRuleMatch]. *)
Lemma verdict_constant (d : Rule) (currentRule : QString) (request : Request)
  (results : list CheckResult.t) :
  (forall r, In r results -> r = checkRuleMatch d currentRule request) ->
  results <> [] \/ checkRuleMatch d currentRule request = CheckResult.pass ->
  verdict results = checkRuleMatch d currentRule request.
Proof.
  intros Hall Hne. unfold verdict.
  destruct (find CheckResult.isException results) as [e|] eqn:E.
  - apply find_some in E as [Hin _]. now apply Hall.
  - destruct (filter CheckResult.isBlocked results) as [|x l] eqn:Ef.
    + cbn [last].
      destruct (checkRuleMatch_shape d currentRule request)
        as [Hp|[[_ Hb]|[_ [mode He]]]]; [now rewrite Hp| |].
      * destruct Hne as [Hne|Hp]; [|now rewrite Hp].
        destruct results as [|r results]; [congruence|].
        assert (Hr : In r (filter CheckResult.isBlocked (r :: results))).
        { apply filter_In. split; [now left|].
          rewrite (Hall r (or_introl eq_refl)), Hb. reflexivity. }
        rewrite Ef in Hr. contradiction.
      * destruct Hne as [Hne|Hp]; [|now rewrite Hp].
        destruct results as [|r results]; [congruence|].
        pose proof (find_none _ _ E r (or_introl eq_refl)) as Hn.
        rewrite (Hall r (or_introl eq_refl)), He in Hn. discriminate.
    + assert (Hl : In (last (x :: l) CheckResult.pass) (x :: l))
        by (apply last_in; discriminate).
      rewrite <- Ef in Hl at 2. apply filter_In in Hl as [Hl _].
      now apply Hall.
Qed.

(** X9.  When the trie of a loaded profile holds one rule and the pattern
    of the rule has neither '*' nor '^', [checkUrl] decides every request
    with a non-empty URL exactly as [checkRuleMatch] decides it for that
    rule on its pattern: anchors, domain lists, third-party and type
    options of the rule act on the whole match as they act on the rule. *)
Theorem single_literal_rule :
  forall (env : Env) (settings : Settings) (p : Profile) (request : Request)
         (d : Rule) (line : QString),
    m_wasLoaded p = true ->
    m_root p = insertRule newNode line d ->
    isLiteral line = true ->
    requestUrl request <> [] ->
    fst (checkUrl env settings p request) = checkRuleMatch d line request.
Proof.
  intros env settings p request d line Hl Hroot Hlit Hurl.
  rewrite (checkUrl_verdict _ _ _ _ Hl), Hroot.
  apply verdict_constant; [now apply literal_trie_results|].
  destruct (contains (requestUrl request) line) eqn:Ec.
  - left. intros E.
    assert (Hin : In (checkRuleMatch d line request)
                     (walkResults (insertRule newNode line d) request)).
    { unfold walkResults. apply in_map_iff. exists (d, line).
      split; [reflexivity|]. now apply checkUrlVisits_inserted. }
    rewrite E in Hin. contradiction.
  - right. now apply checkRuleMatch_needs_pattern.
Qed.

Lemma single_literal_rule_witness :
  fst (checkUrl quietEnv settingsAll
         (profileOf [qs "|http://ads.test/$script,domain=site.test"])
         (mkRequest (qs "http://ads.test/a.js") (qs "ads.test")
            (qs "site.test") ScriptType))
  = checkRuleMatch
      (mkRule (qs "|http://ads.test/$script,domain=site.test") false false
         StartMatch (optionBit ScriptOption) NoOption [qs "site.test"] [])
      (qs "http://ads.test/")
      (mkRequest (qs "http://ads.test/a.js") (qs "ads.test") (qs "site.test")
         ScriptType).
Proof.
  apply (single_literal_rule quietEnv settingsAll
           (profileOf [qs "|http://ads.test/$script,domain=site.test"])
           (mkRequest (qs "http://ads.test/a.js") (qs "ads.test")
              (qs "site.test") ScriptType)
           (mkRule (qs "|http://ads.test/$script,domain=site.test") false
              false StartMatch (optionBit ScriptOption) NoOption
              [qs "site.test"] [])
           (qs "http://ads.test/"));
    try (vm_compute; reflexivity).
  vm_compute. discriminate.
Defined.

(** ** The separator edge and the wildcard edge *)

Lemma wellOrdered_children (node child : Node) :
  wellOrdered node = true -> In child (children node) ->
  wellOrdered child = true.
Proof.
  destruct node as [v cs rs]. rewrite wellOrdered_eq. cbn [children].
  intros H Hin. apply andb_true_iff in H as [_ H].
  rewrite forallb_forall in H. now apply H.
Qed.

(** In a well-ordered node the '^' child, when there is one, is the first
    child. *)
Lemma separator_child_is_head (node child : Node) :
  wellOrdered node = true ->
  find (fun n => Ascii.eqb (value n) "^"%char) (children node) = Some child ->
  exists after, children node = child :: after.
Proof.
  intros Hw Hf. apply find_split in Hf as (before & after & Hcs & Hv & _).
  destruct node as [v cs rs]. rewrite wellOrdered_eq in Hw.
  cbn [children] in Hcs. subst cs.
  apply andb_true_iff in Hw as [Hs _].
  destruct before as [|b before]; [now exists after|].
  unfold separatorFirst in Hs. cbn [app tl] in Hs.
  rewrite forallb_forall in Hs.
  assert (Hin : In child (before ++ child :: after))
    by (apply in_or_app; right; now left).
  apply Hs in Hin. rewrite Hv in Hin. discriminate.
Qed.

(** A rule stored behind a '^' edge is evaluated when the URL character at
    the edge is a separator; the edge itself takes no character. *)
Lemma descendVisits_separator (d : Rule) (line tail post : QString)
  (c : QChar) :
  hd_error (tail ++ post) = Some c -> isSeparatorPlace c = true ->
  forall (node : Node) (currentRule : QString),
    wellOrdered node = true ->
    In d (lookupPath node (line ++ "^"%char :: tail)) ->
    In (d, currentRule ++ line ++ tail)
       (descendVisits node (line ++ tail ++ post) currentRule).
Proof.
  intros Hc Hsep.
  induction line as [|a line IH]; intros node currentRule Hw Hd.
  - cbn [app lookupPath] in *.
    destruct (find _ (children node)) as [child|] eqn:E; [|contradiction].
    destruct (separator_child_is_head _ _ Hw E) as [after Hcs].
    apply find_some in E as [_ Hv].
    pose proof (descendVisits_lookup d tail post child currentRule Hd) as Hin.
    destruct node as [v cs rs]. cbn [children] in Hcs. subst cs.
    destruct (tail ++ post) as [|t rest] eqn:Es; [discriminate|].
    cbn [hd_error] in Hc. injection Hc as ->.
    cbn [descendVisits]. apply in_or_app. right.
    apply in_or_app. right. apply in_or_app. left.
    now rewrite Hv, Hsep.
  - cbn [app lookupPath] in *.
    destruct (find _ (children node)) as [child|] eqn:E; [|contradiction].
    pose proof (find_some _ _ E) as [Hin _].
    apply find_split in E as (before & after & Hcs & Hv & Hb).
    apply Ascii.eqb_eq in Hv.
    pose proof (wellOrdered_children _ _ Hw Hin) as Hwc.
    destruct node as [v cs rs]. cbn [children] in Hcs. subst cs.
    apply (descendVisits_child v before after child rs a); auto.
    replace (currentRule ++ a :: line ++ tail)
      with ((currentRule ++ [a]) ++ line ++ tail)
      by (rewrite <- app_assoc; reflexivity).
    now apply IH.
Qed.

(** X10.  In a loaded trie in which only the first child of a node may
    carry '^', a rule stored on the path [line ^ tail] is reached by the
    walk over every URL that contains [line] followed by [tail] and in
    which the character met at the '^' edge is a separator character: the
    edge takes no character of the URL, the rule is evaluated on
    [line ++ tail], and if it applies there the request does not pass. *)
Theorem separator_edge_matches :
  forall (env : Env) (settings : Settings) (p : Profile) (request : Request)
         (d : Rule) (pre line tail post : QString) (c : QChar),
    m_wasLoaded p = true ->
    wellOrdered (m_root p) = true ->
    In d (lookupPath (m_root p) (line ++ "^"%char :: tail)) ->
    requestUrl request = pre ++ line ++ tail ++ post ->
    hd_error (tail ++ post) = Some c ->
    isSeparatorPlace c = true ->
    applies (checkRuleMatch d (line ++ tail) request) = true ->
    applies (fst (checkUrl env settings p request)) = true.
Proof.
  intros env settings p request d pre line tail post c
    Hl Hw Hd Hurl Hc Hsep Ha.
  rewrite (checkUrl_verdict _ _ _ _ Hl).
  apply (verdict_applies _ (checkRuleMatch d (line ++ tail) request));
    [|exact Ha].
  unfold walkResults. apply in_map_iff. exists (d, line ++ tail).
  split; [reflexivity|]. rewrite Hurl.
  apply (checkUrlVisits_suffix _ pre (line ++ tail ++ post)).
  - intros E. apply app_eq_nil in E as [_ E]. rewrite E in Hc. discriminate.
  - apply (descendVisits_separator d line tail post c Hc Hsep _ [] Hw Hd).
Qed.

Lemma separator_edge_matches_witness :
  applies
    (fst (checkUrl quietEnv settingsAll
            (profileOf [qs "||ads.example.com^"; qs "ads.example.com/ok";
                        qs "@@||good.test^"])
            (mkRequest (qs "http://ads.example.com/banner.png")
               (qs "ads.example.com") (qs "news.test") ImageType))) = true.
Proof.
  apply (separator_edge_matches quietEnv settingsAll
           (profileOf [qs "||ads.example.com^"; qs "ads.example.com/ok";
                       qs "@@||good.test^"])
           (mkRequest (qs "http://ads.example.com/banner.png")
              (qs "ads.example.com") (qs "news.test") ImageType)
           (mkRule (qs "||ads.example.com^") false true ContainsMatch
              NoOption NoOption [] [])
           (qs "http://") (qs "ads.example.com") [] (qs "/banner.png")
           "/"%char);
    try (vm_compute; reflexivity).
  vm_compute. now left.
Defined.

Lemma leaf_prefix (d : Rule) (rest : QString) :
  forall (line : QString) (v : QChar),
  exists c,
    forall s currentRule,
      incl (descendVisits (insertRule (mkNode c [] []) rest d) s
              (currentRule ++ line))
           (descendVisits (insertRule (mkNode v [] []) (line ++ rest) d)
              (line ++ s) currentRule).
Proof.
  induction line as [|a line IH]; intros v.
  - exists v. intros s currentRule. rewrite app_nil_r. apply incl_refl.
  - destruct (IH a) as [c Hc]. exists c. intros s currentRule.
    cbn [app]. rewrite insertRule_leaf_cons.
    intros x Hx.
    apply (descendVisits_child v [] []
             (insertRule (mkNode a [] []) (line ++ rest) d) [] a).
    + intros y [].
    + now rewrite value_insertRule.
    + apply Hc.
      replace ((currentRule ++ [a]) ++ line) with (currentRule ++ a :: line)
        by (rewrite <- app_assoc; reflexivity).
      exact Hx.
Qed.

Lemma wildcardVisits_at (visits : QString -> QString -> list Visit)
  (ws currentRule : QString) (ks : list nat) (k : nat) :
  In k ks ->
  incl (visits (right ws (Z.of_nat (List.length ws) - Z.of_nat k))
          (currentRule ++ left ws (Z.of_nat k)))
       (wildcardVisits visits ws currentRule ks).
Proof.
  induction ks as [|j ks IH]; intros Hin x Hx; [contradiction|].
  cbn [wildcardVisits]. apply in_or_app.
  destruct Hin as [->|Hin]; [now left|right; now apply IH].
Qed.

Lemma right_skipn (ws : QString) (k : nat) :
  (k < List.length ws)%nat ->
  right ws (Z.of_nat (List.length ws) - Z.of_nat k) = skipn k ws.
Proof.
  intros Hk. unfold right.
  destruct (Z.ltb_spec (Z.of_nat (List.length ws) - Z.of_nat k) 0); [lia|].
  cbn [orb].
  destruct (Z.leb_spec (Z.of_nat (List.length ws))
              (Z.of_nat (List.length ws) - Z.of_nat k)).
  - assert (k = 0%nat) by lia. now subst k.
  - f_equal. lia.
Qed.

Lemma left_firstn (ws : QString) (k : nat) :
  (k < List.length ws)%nat -> left ws (Z.of_nat k) = firstn k ws.
Proof.
  intros Hk. unfold left.
  destruct (Z.ltb_spec (Z.of_nat k) 0); [lia|]. cbn [orb].
  destruct (Z.leb_spec (Z.of_nat (List.length ws)) (Z.of_nat k)); [lia|].
  now rewrite Nat2Z.id.
Qed.

(** Behind a '*' edge of the trie of one rule, the walk resumes after every
    run of characters, the empty run included, as long as a character is
    left. *)
Lemma descendVisits_wildcard (d : Rule) (gap tail post : QString) (c : QChar)
  (currentRule : QString) :
  tail <> [] ->
  In (d, currentRule ++ gap ++ tail)
     (descendVisits (insertRule (mkNode c [] []) ("*"%char :: tail) d)
        (gap ++ tail ++ post) currentRule).
Proof.
  intros Ht. rewrite insertRule_leaf_cons.
  assert (Hk : (List.length gap < List.length (gap ++ tail ++ post))%nat).
  { rewrite !length_app. destruct tail; [congruence|]. cbn [List.length]. lia. }
  pose proof (descendVisits_inserted d tail post (mkNode "*"%char [] [])
                (currentRule ++ gap)) as Hin.
  rewrite <- app_assoc in Hin.
  assert (Hs : skipn (List.length gap) (gap ++ tail ++ post) = tail ++ post).
  { rewrite skipn_app, skipn_all, Nat.sub_diag. reflexivity. }
  assert (Hf : firstn (List.length gap) (gap ++ tail ++ post) = gap).
  { rewrite firstn_app, firstn_all, Nat.sub_diag. cbn [firstn].
    apply app_nil_r. }
  remember (gap ++ tail ++ post) as ws eqn:Ews.
  destruct ws as [|t rest]; [cbn in Hk; lia|].
  cbn [descendVisits]. apply in_or_app. right.
  apply in_or_app. left.
  rewrite value_insertRule. cbn [value]. rewrite Ascii.eqb_refl.
  apply (wildcardVisits_at _ (t :: rest) currentRule _ (List.length gap)).
  - apply in_seq. lia.
  - rewrite (right_skipn _ _ Hk), (left_firstn _ _ Hk), Hs, Hf. exact Hin.
Qed.

(** X11.  When the trie of a loaded profile holds one rule whose pattern is
    [line * tail] with [tail] not empty, the rule is reached on every URL
    that contains [line], then any run of characters (the empty run
    included), then [tail]: it is evaluated on the text matched, and if it
    applies there the request does not pass. *)
Theorem wildcard_edge_matches :
  forall (env : Env) (settings : Settings) (p : Profile) (request : Request)
         (d : Rule) (pre line gap tail post : QString),
    m_wasLoaded p = true ->
    m_root p = insertRule newNode (line ++ "*"%char :: tail) d ->
    tail <> [] ->
    requestUrl request = pre ++ line ++ gap ++ tail ++ post ->
    applies (checkRuleMatch d (line ++ gap ++ tail) request) = true ->
    applies (fst (checkUrl env settings p request)) = true.
Proof.
  intros env settings p request d pre line gap tail post
    Hl Hroot Ht Hurl Ha.
  rewrite (checkUrl_verdict _ _ _ _ Hl).
  apply (verdict_applies _ (checkRuleMatch d (line ++ gap ++ tail) request));
    [|exact Ha].
  unfold walkResults. apply in_map_iff. exists (d, line ++ gap ++ tail).
  split; [reflexivity|]. rewrite Hurl, Hroot.
  apply (checkUrlVisits_suffix _ pre (line ++ gap ++ tail ++ post)).
  - intros E. apply app_eq_nil in E as [_ E].
    apply app_eq_nil in E as [_ E]. apply app_eq_nil in E as [E _].
    contradiction.
  - unfold newNode.
    destruct (leaf_prefix d ("*"%char :: tail) line "000"%char) as [c Hc].
    apply (Hc (gap ++ tail ++ post) []). cbn [app].
    apply (descendVisits_wildcard d gap tail post c line Ht).
Qed.

Lemma wildcard_edge_matches_witness :
  applies
    (fst (checkUrl quietEnv settingsAll
            (profileOf [qs "/banner/*/img"])
            (mkRequest (qs "http://site.test/banner/2024/img.png")
               (qs "site.test") (qs "site.test") ImageType))) = true.
Proof.
  apply (wildcard_edge_matches quietEnv settingsAll
           (profileOf [qs "/banner/*/img"])
           (mkRequest (qs "http://site.test/banner/2024/img.png")
              (qs "site.test") (qs "site.test") ImageType)
           (mkRule (qs "/banner/*/img") false false ContainsMatch
              NoOption NoOption [] [])
           (qs "http://site.test") (qs "/banner/") (qs "2024") (qs "/img")
           (qs ".png"));
    try (vm_compute; reflexivity).
  vm_compute. discriminate.
Defined.

(** ** Resource-type options are conjunctive *)

Lemma ResourceType_eqb_eq (a b : ResourceType) :
  ResourceType_eqb a b = true <-> a = b.
Proof. destruct a, b; simpl; split; congruence. Qed.

Lemma m_resourceTypes_key (key : ResourceType) (a b : RuleOption) :
  In (key, a) m_resourceTypes -> In (key, b) m_resourceTypes -> a = b.
Proof.
  intros Ha Hb. simpl in Ha, Hb.
  repeat match goal with
         | H : _ \/ _ |- _ => destruct H
         | H : False |- _ => destruct H
         end; congruence.
Qed.

Lemma isTypeOption_entry (o : RuleOption) :
  isTypeOption o = true -> exists key, In (key, o) m_resourceTypes.
Proof.
  unfold isTypeOption. intros H.
  apply existsb_exists in H as ([key o'] & Hin & He).
  apply RuleOption_eqb_eq in He. cbn [snd] in He. subst o'. now exists key.
Qed.

Lemma fold_resourceTypeStep_false (d : Rule) (request : Request)
  (entries : list (ResourceType * RuleOption))
  (entry : ResourceType * RuleOption) :
  In entry entries ->
  resourceTypeStep d request true entry = false ->
  fold_left (resourceTypeStep d request) entries true = false.
Proof.
  induction entries as [|e entries IH]; intros Hin Hf; [contradiction|].
  cbn [fold_left]. rewrite fold_resourceTypeStep_and.
  destruct Hin as [->|Hin].
  - now rewrite Hf.
  - rewrite (IH Hin Hf). apply andb_false_r.
Qed.

(** The entry of a type the request does not have turns the decision off
    when the rule sets the option and does not negate it. *)
Lemma resourceTypeStep_other (d : Rule) (request : Request)
  (key : ResourceType) (o : RuleOption) :
  hasOption (ruleOptions d) o = true ->
  hasOption (ruleExceptions d) o = false ->
  resourceType request <> key ->
  resourceTypeStep d request true (key, o) = false.
Proof.
  intros Ho He Hk. unfold resourceTypeStep. rewrite Ho, He. cbn [orb].
  destruct (ResourceType_eqb (resourceType request) key) eqn:E.
  - apply ResourceType_eqb_eq in E. contradiction.
  - now destruct (negb (RuleOption_eqb o WebSocketOption)
                  && negb (RuleOption_eqb o PopupOption)).
Qed.

Lemma checkRuleMatch_types (d : Rule) (currentRule : QString)
  (request : Request) (o : RuleOption) :
  hasOption (ruleOptions d) o = true ->
  typesAllow d request = false ->
  checkRuleMatch d currentRule request = CheckResult.pass.
Proof.
  intros Ho Ht. unfold checkRuleMatch.
  destruct (negb (patternMatches d currentRule request)); [reflexivity|].
  cbv zeta.
  destruct (needsDomainCheck d && _); [reflexivity|].
  destruct (negb (Nat.eqb (List.length (blockedDomains d)) 0) && _);
    [reflexivity|].
  rewrite (hasOption_nonzero _ _ Ho). cbn [negb orb].
  rewrite fold_resourceTypeStep_and. fold (typesAllow d request).
  rewrite Ht, andb_false_r. reflexivity.
Qed.

(** X12.  The resource-type options of a rule are conjunctive: a rule that
    sets two different type options, neither of them negated as well,
    applies to no request at all, whatever its pattern and whatever the
    type of the request. *)
Theorem two_type_options_never_apply :
  forall (d : Rule) (currentRule : QString) (request : Request)
         (a b : RuleOption),
    isTypeOption a = true -> isTypeOption b = true -> a <> b ->
    hasOption (ruleOptions d) a = true ->
    hasOption (ruleOptions d) b = true ->
    hasOption (ruleExceptions d) a = false ->
    hasOption (ruleExceptions d) b = false ->
    checkRuleMatch d currentRule request = CheckResult.pass.
Proof.
  intros d currentRule request a b Hta Htb Hab Hoa Hob Hea Heb.
  apply (checkRuleMatch_types d currentRule request a Hoa).
  destruct (isTypeOption_entry a Hta) as [ka Ha].
  destruct (isTypeOption_entry b Htb) as [kb Hb].
  unfold typesAllow.
  destruct (ResourceType_eqb (resourceType request) ka) eqn:E.
  - apply ResourceType_eqb_eq in E.
    apply (fold_resourceTypeStep_false d request _ (kb, b) Hb).
    apply resourceTypeStep_other; auto.
    intros Ek. apply Hab. apply (m_resourceTypes_key ka); congruence.
  - apply (fold_resourceTypeStep_false d request _ (ka, a) Ha).
    apply resourceTypeStep_other; auto.
    intros Ek. rewrite Ek in E.
    assert (ResourceType_eqb ka ka = true) by now apply ResourceType_eqb_eq.
    congruence.
Qed.

Lemma two_type_options_never_apply_witness :
  fst (checkUrl quietEnv settingsAll (profileOf [qs "/ads/$image,script"])
         (mkRequest (qs "http://site.test/ads/a.png") (qs "site.test")
            (qs "site.test") ImageType))
  = CheckResult.pass
  /\ checkRuleMatch
       (mkRule (qs "/ads/$image,script") false false ContainsMatch
          (Z.lor (optionBit ImageOption) (optionBit ScriptOption)) NoOption
          [] [])
       (qs "/ads/")
       (mkRequest (qs "http://site.test/ads/a.png") (qs "site.test")
          (qs "site.test") ImageType)
     = CheckResult.pass.
Proof.
  split; [vm_compute; reflexivity|].
  apply (two_type_options_never_apply _ _ _ ImageOption ScriptOption);
    try (vm_compute; reflexivity).
  discriminate.
Defined.

(** ** Loading put off until the list has been downloaded *)

(** X13.  A query on a profile that is not loaded, whose flag [m_isEmpty]
    is set and whose update URL is not empty loads nothing.  The flag is
    what the last header scan left; it is the flag, not the present
    content of the file, that [loadRules] looks at.  [checkUrl] lets the
    request pass, the profile stays unloaded with its trie untouched, and
    a download from the update URL is started when none is in flight, the
    caller is on the profile's thread and the URL is valid. *)
Theorem deferred_load_passes :
  forall (env : Env) (settings : Settings) (p : Profile) (request : Request),
    m_wasLoaded p = false ->
    m_isEmpty p = true ->
    urlIsEmpty (m_updateUrl p) = false ->
    fst (checkUrl env settings p request) = CheckResult.pass
    /\ m_wasLoaded (snd (checkUrl env settings p request)) = false
    /\ m_root (snd (checkUrl env settings p request)) = m_root p
    /\ (hasJob p = false -> onOwnThread env = true ->
        urlIsValid (m_updateUrl p) = true ->
        m_dataFetchJob (snd (checkUrl env settings p request))
        = Some (m_updateUrl p)).
Proof.
  intros env settings p request Hl He Hu.
  unfold checkUrl, loadRules. rewrite Hl.
  change (m_isEmpty (set_error NoError p)) with (m_isEmpty p).
  change (m_updateUrl (set_error NoError p)) with (m_updateUrl p).
  rewrite He, Hu. cbn [negb andb fst snd].
  unfold update.
  change (hasJob (set_error NoError p)) with (hasJob p).
  change (m_updateUrl (set_error NoError p)) with (m_updateUrl p).
  cbn [urlIsValid].
  destruct (hasJob p) eqn:Ej, (onOwnThread env) eqn:Et,
    (urlIsValid (m_updateUrl p)) eqn:Ev;
    cbn [negb orb andb fst snd]; repeat split; try assumption;
    try reflexivity; intros; discriminate.
Qed.

Lemma deferred_load_passes_witness :
  fst (checkUrl quietEnv settingsAll
         (mkProfile newNode [] [] [] None (qs "list") (qs "List")
            (ValidUrl (qs "http://lists.test/list.txt")) None [] 0 NoError
            NoFlags 0 true false [])
         (mkRequest (qs "http://ads.test/a.js") (qs "ads.test")
            (qs "site.test") ScriptType))
  = CheckResult.pass.
Proof.
  apply (deferred_load_passes quietEnv settingsAll
           (mkProfile newNode [] [] [] None (qs "list") (qs "List")
              (ValidUrl (qs "http://lists.test/list.txt")) None [] 0 NoError
              NoFlags 0 true false []));
    reflexivity.
Defined.

(** ** The end of an update *)

(** Right after an update has been saved the header scan starts no
    download. *)
Lemma loadHeader_no_refetch (env : Env) (p : Profile) :
  hasJob p = false ->
  m_lastUpdate p = Some (currentDateTimeUtc env) ->
  hasJob (loadHeader env p) = false.
Proof.
  intros Hj Hu. unfold loadHeader.
  destruct (negb (ProfileError_eqb _ NoError)); [exact Hj|].
  cbv zeta.
  match goal with
  | |- context [set_isEmpty ?e ?q] => set (p2 := set_isEmpty e q)
  end.
  assert (Hj2 : hasJob p2 = false)
    by (subst p2; destruct (negb (testFlag _ _) && _); exact Hj).
  assert (Hu2 : m_lastUpdate p2 = Some (currentDateTimeUtc env))
    by (subst p2; destruct (negb (testFlag _ _) && _); exact Hu).
  rewrite Hu2, Z.sub_diag.
  destruct (Z.ltb_spec 0 (m_updateInterval p2)) as [Hpos|Hneg];
    destruct (Z.ltb_spec (m_updateInterval p2) 0);
    rewrite ?andb_false_r, ?andb_true_r; cbn [andb]; try exact Hj2; lia.
Qed.

Lemma loadHeader_unloaded_tables (env : Env) (p : Profile) :
  m_cosmeticFiltersRules (loadHeader env p) = m_cosmeticFiltersRules p
  /\ m_cosmeticFiltersDomainRules (loadHeader env p)
     = m_cosmeticFiltersDomainRules p
  /\ m_cosmeticFiltersDomainExceptions (loadHeader env p)
     = m_cosmeticFiltersDomainExceptions p
  /\ m_lastUpdate (loadHeader env p) = m_lastUpdate p
  /\ m_root (loadHeader env p) = m_root p.
Proof.
  unfold loadHeader, update. case_conditions; repeat split; reflexivity.
Qed.

Lemma clear_members (p : Profile) :
  hasJob (clear p) = hasJob p
  /\ m_lastUpdate (clear p) = m_lastUpdate p
  /\ m_title (clear p) = m_title p
  /\ m_flags (clear p) = m_flags p.
Proof. unfold clear. destruct (negb (m_wasLoaded p)); repeat split. Qed.

Lemma clear_tables (p : Profile) :
  m_wasLoaded p = true ->
  m_cosmeticFiltersRules (clear p) = []
  /\ m_cosmeticFiltersDomainRules (clear p) = []
  /\ m_cosmeticFiltersDomainExceptions (clear p) = [].
Proof. intros H. unfold clear. rewrite H. repeat split. Qed.

(** What the handler does on its last path, lines 696-711: the rules are
    never read again there, because [clear] has just marked the profile as
    not loaded. *)
Lemma handleJobFinished_saved (md5Base64 : QByteArray -> QByteArray)
  (env : Env) (settings : Settings) (job : Download) (p : Profile) :
  hasJob p = true ->
  isSuccess job = true ->
  contains (hd [] (deviceLines job)) (qs "[Adblock") = true ->
  checksumMismatch md5Base64 (canonicalBuffer (deviceLines job))
    (declaredChecksum (deviceLines job)) = false ->
  canOpenSaveFile job = true ->
  handleJobFinished md5Base64 env settings job p
  = loadHeader env
      (clear (set_lastUpdate (Some (currentDateTimeUtc env))
                (set_dataFetchJob None p))).
Proof.
  intros Hj Hs Hh Hc Ho. unfold handleJobFinished.
  rewrite Hj, Hs, Hh, Hc, Ho. cbn [negb]. cbv zeta.
  now rewrite loadHeader_wasLoaded, clear_wasLoaded.
Qed.

Lemma raiseError_job (e : ProfileError) (p : Profile) :
  hasJob (raiseError e p) = hasJob p.
Proof. reflexivity. Qed.

(** X14.  Whatever the outcome of the download, and whether or not a job
    was in flight, no job is in flight when [handleJobFinished] returns:
    the job is released on every path and the header scan that follows a
    saved update never starts the next download. *)
Theorem update_job_is_released :
  forall (md5Base64 : QByteArray -> QByteArray) (env : Env)
         (settings : Settings) (job : Download) (p : Profile),
    isUpdating (handleJobFinished md5Base64 env settings job p) = false.
Proof.
  intros md5Base64 env settings job p. unfold isUpdating.
  destruct (hasJob p) eqn:Hj.
  2:{ unfold handleJobFinished. now rewrite Hj. }
  destruct (isSuccess job) eqn:Hs.
  2:{ unfold handleJobFinished. now rewrite Hj, Hs. }
  destruct (contains (hd [] (deviceLines job)) (qs "[Adblock")) eqn:Hh.
  2:{ unfold handleJobFinished. now rewrite Hj, Hs, Hh. }
  destruct (checksumMismatch md5Base64 (canonicalBuffer (deviceLines job))
              (declaredChecksum (deviceLines job))) eqn:Hc.
  1:{ unfold handleJobFinished. now rewrite Hj, Hs, Hh, Hc. }
  destruct (canOpenSaveFile job) eqn:Ho.
  2:{ unfold handleJobFinished. now rewrite Hj, Hs, Hh, Hc, Ho. }
  rewrite (handleJobFinished_saved _ _ _ _ _ Hj Hs Hh Hc Ho).
  apply loadHeader_no_refetch.
  - now rewrite (proj1 (clear_members _)).
  - now rewrite (proj1 (proj2 (clear_members _))).
Qed.

(** X15.  After an update that was downloaded, validated and saved, the
    profile is not loaded, even if it was loaded before: the date of the
    last update is the current one, and the cosmetic rules of a profile
    that was loaded are gone.  The rules of the saved file are read by the
    next query, not by the handler. *)
Theorem saved_update_unloads_rules :
  forall (md5Base64 : QByteArray -> QByteArray) (env : Env)
         (settings : Settings) (job : Download) (p : Profile),
    hasJob p = true ->
    isSuccess job = true ->
    contains (hd [] (deviceLines job)) (qs "[Adblock") = true ->
    checksumMismatch md5Base64 (canonicalBuffer (deviceLines job))
      (declaredChecksum (deviceLines job)) = false ->
    canOpenSaveFile job = true ->
    let p' := handleJobFinished md5Base64 env settings job p in
    m_wasLoaded p' = false
    /\ m_lastUpdate p' = Some (currentDateTimeUtc env)
    /\ (m_wasLoaded p = true ->
        m_cosmeticFiltersRules p' = []
        /\ m_cosmeticFiltersDomainRules p' = []
        /\ m_cosmeticFiltersDomainExceptions p' = []).
Proof.
  intros md5Base64 env settings job p Hj Hs Hh Hc Ho p'. subst p'.
  rewrite (handleJobFinished_saved _ _ _ _ _ Hj Hs Hh Hc Ho).
  destruct (loadHeader_unloaded_tables env
              (clear (set_lastUpdate (Some (currentDateTimeUtc env))
                        (set_dataFetchJob None p))))
    as (Hr & Hd & He & Hu & _).
  rewrite loadHeader_wasLoaded, clear_wasLoaded, Hr, Hd, He, Hu.
  rewrite (proj1 (proj2 (clear_members _))).
  repeat split; try reflexivity;
    now apply (clear_tables
                 (set_lastUpdate (Some (currentDateTimeUtc env))
                    (set_dataFetchJob None p))).
Qed.

Lemma saved_update_unloads_rules_witness :
  m_wasLoaded
    (handleJobFinished (fun _ => []) quietEnv settingsAll
       (mkDownload true [qs "[Adblock Plus 2.0]"; qs "||ads.test^"] true)
       (set_dataFetchJob (Some (ValidUrl (qs "http://lists.test/l.txt")))
          (profileOf [qs "##.banner"; qs "||old.test^"])))
  = false.
Proof.
  apply (saved_update_unloads_rules (fun _ => []) quietEnv settingsAll
           (mkDownload true [qs "[Adblock Plus 2.0]"; qs "||ads.test^"] true)
           (set_dataFetchJob (Some (ValidUrl (qs "http://lists.test/l.txt")))
              (profileOf [qs "##.banner"; qs "||old.test^"])));
    reflexivity.
Defined.

Lemma parseRuleLine_root (settings : Settings) (raw : QString)
  (p q : Profile) :
  m_root p = m_root q ->
  m_root (parseRuleLine settings raw p) = m_root (parseRuleLine settings raw q).
Proof.
  intros H. unfold parseRuleLine.
  repeat match goal with
         | |- context [if ?c then _ else _] => destruct c
         | |- context [match getCosmeticFiltersMode settings with _ => _ end] =>
             destruct (getCosmeticFiltersMode settings)
         end; try exact H.
  destruct (parseNetworkRule _ raw) as [[definition line]|]; [|exact H].
  cbn [set_root m_root]. now rewrite H.
Qed.

Lemma parseLines_root (settings : Settings) (raws : list QString) :
  forall p q,
    m_root p = m_root q ->
    m_root (fold_left (fun r raw => parseRuleLine settings raw r) raws p)
    = m_root (fold_left (fun r raw => parseRuleLine settings raw r) raws q).
Proof.
  induction raws as [|raw raws IH]; intros p q H; [exact H|].
  cbn [fold_left]. apply IH. now apply parseRuleLine_root.
Qed.

(** The verdict of a query is a function of five members of the
    profile. *)
Lemma checkUrl_members (env : Env) (settings : Settings) (p q : Profile)
  (request : Request) :
  m_wasLoaded p = m_wasLoaded q ->
  m_root p = m_root q ->
  m_isEmpty p = m_isEmpty q ->
  m_updateUrl p = m_updateUrl q ->
  m_name p = m_name q ->
  fst (checkUrl env settings p request) = fst (checkUrl env settings q request).
Proof.
  intros Hl Hr He Hu Hn. unfold checkUrl. rewrite <- Hl.
  destruct (m_wasLoaded p); [cbn [fst]; now rewrite Hr|].
  unfold loadRules.
  change (m_isEmpty (set_error NoError p)) with (m_isEmpty p).
  change (m_isEmpty (set_error NoError q)) with (m_isEmpty q).
  change (m_updateUrl (set_error NoError p)) with (m_updateUrl p).
  change (m_updateUrl (set_error NoError q)) with (m_updateUrl q).
  rewrite <- He, <- Hu.
  destruct (m_isEmpty p && negb (urlIsEmpty (m_updateUrl p)));
    [reflexivity|].
  cbv zeta. cbn [fst].
  change (m_name (set_wasLoaded true (set_error NoError p))) with (m_name p).
  change (m_name (set_wasLoaded true (set_error NoError q))) with (m_name q).
  rewrite <- Hn.
  now rewrite (parseLines_root settings _
                 (set_root newNode (set_wasLoaded true (set_error NoError p)))
                 (set_root newNode (set_wasLoaded true (set_error NoError q)))
                 eq_refl).
Qed.

(** X16.  An update that fails, because the download failed, the header is
    not that of a filter list, the checksum does not match or the file
    cannot be opened for writing, only releases the job and raises an
    error: every query is answered afterwards as it was before. *)
Theorem failed_update_keeps_verdicts :
  forall (md5Base64 : QByteArray -> QByteArray) (env : Env)
         (settings : Settings) (job : Download) (p : Profile)
         (request : Request),
    hasJob p = true ->
    isSuccess job = false
    \/ contains (hd [] (deviceLines job)) (qs "[Adblock") = false
    \/ checksumMismatch md5Base64 (canonicalBuffer (deviceLines job))
         (declaredChecksum (deviceLines job)) = true
    \/ canOpenSaveFile job = false ->
    let p' := handleJobFinished md5Base64 env settings job p in
    (exists e, e <> NoError /\ p' = raiseError e (set_dataFetchJob None p))
    /\ fst (checkUrl env settings p' request)
       = fst (checkUrl env settings p request).
Proof.
  intros md5Base64 env settings job p request Hj Hfail p'.
  assert (He : exists e, e <> NoError
                         /\ p' = raiseError e (set_dataFetchJob None p)).
  { subst p'. unfold handleJobFinished. rewrite Hj. cbn [negb]. cbv zeta.
    destruct (isSuccess job); cbn [negb];
      [|exists DownloadError; split; [discriminate|reflexivity]].
    destruct (contains (hd [] (deviceLines job)) (qs "[Adblock")); cbn [negb];
      [|exists ParseError; split; [discriminate|reflexivity]].
    destruct (checksumMismatch md5Base64 _ _);
      [exists ChecksumError; split; [discriminate|reflexivity]|].
    destruct (canOpenSaveFile job); cbn [negb];
      [|exists DownloadError; split; [discriminate|reflexivity]].
    destruct Hfail as [H|[H|[H|H]]]; discriminate. }
  split; [exact He|].
  destruct He as (e & _ & ->). now apply checkUrl_members.
Qed.

Lemma failed_update_keeps_verdicts_witness :
  fst (checkUrl quietEnv settingsAll
         (handleJobFinished (fun _ => []) quietEnv settingsAll
            (mkDownload true [qs "<html>"; qs "not a list"] true)
            (set_dataFetchJob (Some (ValidUrl (qs "http://lists.test/l.txt")))
               (profileOf [qs "/ads/"])))
         (mkRequest (qs "http://site.test/ads/a.png") (qs "site.test")
            (qs "site.test") ImageType))
  = fst (checkUrl quietEnv settingsAll
           (set_dataFetchJob (Some (ValidUrl (qs "http://lists.test/l.txt")))
              (profileOf [qs "/ads/"]))
           (mkRequest (qs "http://site.test/ads/a.png") (qs "site.test")
              (qs "site.test") ImageType)).
Proof.
  apply (failed_update_keeps_verdicts (fun _ => []) quietEnv settingsAll
           (mkDownload true [qs "<html>"; qs "not a list"] true)
           (set_dataFetchJob (Some (ValidUrl (qs "http://lists.test/l.txt")))
              (profileOf [qs "/ads/"])));
    [reflexivity|right; left; reflexivity].
Defined.

(** ** A title set by the user *)

Lemma testFlag_lor_title (flags : Z) :
  testFlag (Z.lor flags HasCustomTitleFlag) HasCustomTitleFlag = true.
Proof.
  unfold testFlag, HasCustomTitleFlag.
  rewrite Z.land_lor_distr_l.
  change (Z.land 1 1) with 1. change 1 with (Z.ones 1) at 1.
  rewrite Z.land_ones by lia. change (2 ^ 1) with 2.
  assert (H : flags mod 2 = 0 \/ flags mod 2 = 1)
    by (pose proof (Z.mod_pos_bound flags 2); lia).
  destruct H as [-> | ->]; reflexivity.
Qed.

Lemma loadHeader_custom_title (env : Env) (p : Profile) :
  testFlag (m_flags p) HasCustomTitleFlag = true ->
  m_title (loadHeader env p) = m_title p
  /\ m_flags (loadHeader env p) = m_flags p.
Proof.
  intros H. unfold loadHeader, update. rewrite H. cbn [negb andb].
  case_conditions; split; reflexivity.
Qed.

(** The three ways [handleJobFinished] ends. *)
Lemma handleJobFinished_cases (md5Base64 : QByteArray -> QByteArray)
  (env : Env) (settings : Settings) (job : Download) (p : Profile) :
  handleJobFinished md5Base64 env settings job p = p
  \/ (exists e, handleJobFinished md5Base64 env settings job p
                = raiseError e (set_dataFetchJob None p))
  \/ handleJobFinished md5Base64 env settings job p
     = loadHeader env
         (clear (set_lastUpdate (Some (currentDateTimeUtc env))
                   (set_dataFetchJob None p))).
Proof.
  destruct (hasJob p) eqn:Hj.
  2:{ left. unfold handleJobFinished. now rewrite Hj. }
  right.
  destruct (isSuccess job) eqn:Hs.
  2:{ left. exists DownloadError. unfold handleJobFinished.
      now rewrite Hj, Hs. }
  destruct (contains (hd [] (deviceLines job)) (qs "[Adblock")) eqn:Hh.
  2:{ left. exists ParseError. unfold handleJobFinished.
      now rewrite Hj, Hs, Hh. }
  destruct (checksumMismatch md5Base64 (canonicalBuffer (deviceLines job))
              (declaredChecksum (deviceLines job))) eqn:Hc.
  1:{ left. exists ChecksumError. unfold handleJobFinished.
      now rewrite Hj, Hs, Hh, Hc. }
  destruct (canOpenSaveFile job) eqn:Ho.
  2:{ left. exists DownloadError. unfold handleJobFinished.
      now rewrite Hj, Hs, Hh, Hc, Ho. }
  right. now apply handleJobFinished_saved.
Qed.

(** X17.  A title given with [setTitle] that differs from the current one
    is the title of the profile from then on: neither the header scan nor
    a finished update, successful or not, replaces it with the title
    written in the file. *)
Theorem custom_title_survives :
  forall (md5Base64 : QByteArray -> QByteArray) (env : Env)
         (settings : Settings) (job : Download) (p : Profile)
         (title : QString),
    title <> m_title p ->
    m_title (setTitle title p) = title
    /\ m_title (loadHeader env (setTitle title p)) = title
    /\ m_title (handleJobFinished md5Base64 env settings job
                  (setTitle title p)) = title.
Proof.
  intros md5Base64 env settings job p title Hne.
  assert (Hs : setTitle title p
               = set_flags (Z.lor (m_flags p) HasCustomTitleFlag)
                   (set_title title p)).
  { unfold setTitle. destruct (QString_eqb title (m_title p)) eqn:E;
      [|reflexivity].
    apply QString_eqb_eq in E. contradiction. }
  rewrite Hs.
  set (q := set_flags (Z.lor (m_flags p) HasCustomTitleFlag)
              (set_title title p)).
  assert (Hf : testFlag (m_flags q) HasCustomTitleFlag = true)
    by apply testFlag_lor_title.
  split; [reflexivity|]. split.
  - now rewrite (proj1 (loadHeader_custom_title env q Hf)).
  - destruct (handleJobFinished_cases md5Base64 env settings job q)
      as [-> | [[e ->] | ->]]; try reflexivity.
    set (r := set_lastUpdate (Some (currentDateTimeUtc env))
                (set_dataFetchJob None q)).
    destruct (clear_members r) as (_ & _ & Ht & Hfl).
    assert (Hc : testFlag (m_flags (clear r)) HasCustomTitleFlag = true)
      by (rewrite Hfl; exact Hf).
    rewrite (proj1 (loadHeader_custom_title env (clear r) Hc)), Ht.
    reflexivity.
Qed.

Lemma custom_title_survives_witness :
  m_title
    (loadHeader
       (mkEnv (fun _ => FileLines [qs "[Adblock Plus 2.0]";
                                   qs "! Title: EasyList"; qs "/ads/"])
          0 true)
       (setTitle (qs "My list") loadedProfile))
  = qs "My list".
Proof.
  apply (custom_title_survives (fun _ => [])
           (mkEnv (fun _ => FileLines [qs "[Adblock Plus 2.0]";
                                       qs "! Title: EasyList"; qs "/ads/"])
              0 true)
           settingsAll (mkDownload false [] false) loadedProfile
           (qs "My list")).
  vm_compute. discriminate.
Defined.

(** ** Cosmetic rules *)

Lemma splitStringFrom_skip (sep x s : QString) :
  splitStringFrom sep (x ++ s) (List.length x) = splitStringFrom sep s 0.
Proof.
  induction x as [|c x IH]; [reflexivity|].
  cbn [app List.length splitStringFrom]. exact IH.
Qed.

Lemma splitStringFrom_whole (sep s : QString) :
  contains s sep = false -> splitStringFrom sep s 0 = [s].
Proof.
  induction s as [|c s IH]; intros H; [reflexivity|].
  cbn [contains] in H. apply orb_false_iff in H as [Hs Hc].
  cbn [splitStringFrom]. rewrite Hs, (IH Hc). reflexivity.
Qed.

Lemma splitStringFrom_nonempty (sep s : QString) (skip : nat) :
  splitStringFrom sep s skip <> [].
Proof.
  revert skip; induction s as [|c s IH]; intros skip; cbn [splitStringFrom];
    [discriminate|].
  destruct skip; [|apply IH].
  destruct (startsWith (c :: s) sep); [discriminate|].
  destruct (splitStringFrom sep s 0); discriminate.
Qed.

Lemma splitStringFrom_prefix (h : QChar) (sep ds s : QString) :
  forallb (fun c => negb (Ascii.eqb c h)) ds = true ->
  splitStringFrom (h :: sep) (ds ++ s) 0
  = match splitStringFrom (h :: sep) s 0 with
    | field :: fields => (ds ++ field) :: fields
    | [] => [ds]
    end.
Proof.
  induction ds as [|c ds IH]; intros H.
  - cbn [app]. pose proof (splitStringFrom_nonempty (h :: sep) s 0).
    destruct (splitStringFrom (h :: sep) s 0); [congruence|reflexivity].
  - cbn [forallb] in H. apply andb_true_iff in H as [Hc H].
    apply negb_true_iff in Hc.
    cbn [app splitStringFrom startsWith]. rewrite Hc. cbn [andb].
    rewrite (IH H).
    now destruct (splitStringFrom (h :: sep) s 0).
Qed.

Lemma splitString_parts (h : QChar) (sep ds sel : QString) :
  forallb (fun c => negb (Ascii.eqb c h)) ds = true ->
  contains sel (h :: sep) = false ->
  splitString (h :: sep) (ds ++ (h :: sep) ++ sel) = [ds; sel].
Proof.
  intros Hds Hsel. unfold splitString.
  rewrite (splitStringFrom_prefix h sep ds _ Hds).
  pose proof (startsWith_app (h :: sep) sel) as Hs.
  cbn [app] in *. cbn [splitStringFrom]. rewrite Hs.
  replace (List.length (h :: sep) - 1)%nat with (List.length sep)
    by (cbn [List.length]; lia).
  rewrite splitStringFrom_skip, (splitStringFrom_whole _ _ Hsel).
  now rewrite app_nil_r.
Qed.

Lemma contains_prefix_free (h : QChar) (sep ds s : QString) :
  forallb (fun c => negb (Ascii.eqb c h)) ds = true ->
  contains (ds ++ s) (h :: sep) = contains s (h :: sep).
Proof.
  induction ds as [|c ds IH]; intros H; [reflexivity|].
  cbn [forallb] in H. apply andb_true_iff in H as [Hc H].
  apply negb_true_iff in Hc.
  cbn [app contains startsWith]. rewrite Hc. cbn [andb orb]. now apply IH.
Qed.

Lemma indexOfFrom_range (f : QChar -> bool) (s : QString) (i : Z) :
  indexOfFrom f s i = -1 \/ i <= indexOfFrom f s i.
Proof.
  revert i; induction s as [|c s IH]; intros i; cbn [indexOfFrom];
    [now left|].
  destruct (f c); [right; lia|].
  destruct (IH (i + 1)); [now left | right; lia].
Qed.

(** A line that begins with a character other than '!' is not a
    comment. *)
Lemma not_a_comment (c : QChar) (s : QString) :
  Ascii.eqb c "!"%char = false ->
  isEmpty (c :: s) || (indexOf (c :: s) "!"%char =? 0) = false.
Proof.
  intros H. cbn [isEmpty orb]. unfold indexOf. cbn [indexOfFrom].
  rewrite Ascii.eqb_sym, H.
  destruct (indexOfFrom_range (Ascii.eqb "!"%char) s (0 + 1)) as [E|E];
    apply Z.eqb_neq; lia.
Qed.

Lemma valuesOf_app (a b : list (QString * QString)) (key : QString) :
  valuesOf (a ++ b) key = valuesOf a key ++ valuesOf b key.
Proof. unfold valuesOf. now rewrite filter_app, map_app. Qed.

Lemma parseStyleSheetRule_eq (ds sel : QString)
  (table : list (QString * QString)) :
  parseStyleSheetRule [ds; sel] table
  = rev (map (fun domain => (domain, sel)) (split ","%char ds)) ++ table.
Proof.
  unfold parseStyleSheetRule. cbn [nth].
  generalize (split ","%char ds) as domains. intros domains. revert table.
  induction domains as [|d domains IH]; intros table; [reflexivity|].
  cbn [fold_left map rev]. rewrite IH, <- app_assoc. reflexivity.
Qed.

Lemma QString_eqb_sym (a b : QString) : QString_eqb a b = QString_eqb b a.
Proof.
  destruct (QString_eqb a b) eqn:E, (QString_eqb b a) eqn:F; try reflexivity.
  - apply QString_eqb_eq in E. subst.
    rewrite (proj2 (QString_eqb_eq b b) eq_refl) in F. discriminate.
  - apply QString_eqb_eq in F. subst.
    rewrite (proj2 (QString_eqb_eq a a) eq_refl) in E. discriminate.
Qed.

Lemma valuesOf_bindings (sel key : QString) (domains : list QString) :
  valuesOf (rev (map (fun domain => (domain, sel)) domains)) key
  = repeat sel (List.length (filter (QString_eqb key) domains)).
Proof.
  induction domains as [|d domains IH]; [reflexivity|].
  cbn [map rev filter]. rewrite valuesOf_app, IH.
  unfold valuesOf at 1. cbn [filter fst]. rewrite (QString_eqb_sym d key).
  destruct (QString_eqb key d); cbn [map snd List.length app].
  - now rewrite <- repeat_cons.
  - apply app_nil_r.
Qed.

Lemma domainPart_line (ds s : QString) :
  domainPart ds = true ->
  isEmpty (ds ++ s) || (indexOf (ds ++ s) "!"%char =? 0) = false
  /\ startsWith (ds ++ s) (qs "##") = false.
Proof.
  unfold domainPart. intros H.
  apply andb_true_iff in H as [H Hf]. apply andb_true_iff in H as [Hne Hc].
  destruct ds as [|c ds]; [discriminate|].
  apply negb_true_iff in Hc.
  simpl in Hc. rewrite ?andb_true_r in Hc. cbn [app]. split.
  - now apply not_a_comment.
  - cbn [forallb] in Hf. apply andb_true_iff in Hf as [Hf _].
    apply negb_true_iff in Hf. cbn. now rewrite Hf.
Qed.

Lemma domainPart_free (ds : QString) :
  domainPart ds = true ->
  forallb (fun c => negb (Ascii.eqb c "#"%char)) ds = true.
Proof.
  unfold domainPart. intros H. now apply andb_true_iff in H as [_ H].
Qed.

(** What [parseRuleLine] does with a rule [ds##sel]. *)
Lemma parseRuleLine_domain_rule (settings : Settings) (p : Profile)
  (ds sel : QString) :
  getCosmeticFiltersMode settings <> NoFilters ->
  domainPart ds = true ->
  contains sel (qs "##") = false ->
  parseRuleLine settings (ds ++ qs "##" ++ sel) p
  = set_cosmeticFiltersDomainRules
      (rev (map (fun domain => (domain, sel)) (split ","%char ds))
       ++ m_cosmeticFiltersDomainRules p) p.
Proof.
  intros Hmode Hds Hsel. unfold parseRuleLine.
  destruct (domainPart_line ds (qs "##" ++ sel) Hds) as [-> ->].
  rewrite (contains_app ds (qs "##") sel).
  pose proof (splitString_parts "#"%char ["#"%char] ds sel
                (domainPart_free ds Hds) Hsel) as Hsplit.
  destruct (getCosmeticFiltersMode settings); [congruence| |];
    rewrite <- parseStyleSheetRule_eq; do 2 f_equal; exact Hsplit.
Qed.

(** What [parseRuleLine] does with a rule [ds#@#sel] whose selector does
    not begin with '#'. *)
Lemma parseRuleLine_domain_exception (settings : Settings) (p : Profile)
  (ds sel : QString) :
  getCosmeticFiltersMode settings <> NoFilters ->
  domainPart ds = true ->
  contains ("#"%char :: sel) (qs "##") = false ->
  contains sel (qs "#@#") = false ->
  parseRuleLine settings (ds ++ qs "#@#" ++ sel) p
  = set_cosmeticFiltersDomainExceptions
      (rev (map (fun domain => (domain, sel)) (split ","%char ds))
       ++ m_cosmeticFiltersDomainExceptions p) p.
Proof.
  intros Hmode Hds Hsel Hsep. unfold parseRuleLine.
  destruct (domainPart_line ds (qs "#@#" ++ sel) Hds) as [-> ->].
  assert (Hno : contains (ds ++ qs "#@#" ++ sel) (qs "##") = false).
  { change (qs "##") with ("#"%char :: ["#"%char]) in *.
    rewrite (contains_prefix_free "#"%char ["#"%char] ds _
               (domainPart_free ds Hds)).
    exact Hsel. }
  rewrite Hno, (contains_app ds (qs "#@#") sel).
  pose proof (splitString_parts "#"%char ["@"%char; "#"%char] ds sel
                (domainPart_free ds Hds) Hsep) as Hsplit.
  destruct (getCosmeticFiltersMode settings); [congruence| |];
    rewrite <- parseStyleSheetRule_eq; do 2 f_equal; exact Hsplit.
Qed.

(** X18.  A rule [ds##sel], with [ds] a non-empty list of domains free of
    '#' and [sel] free of "##", binds [sel] once to every domain listed in
    [ds], in front of the selectors the domain had, and changes nothing
    else: the bindings of the other domains, the exceptions, the rules for
    all sites and the trie stay as they were. *)
Theorem domain_rule_is_bound :
  forall (settings : Settings) (p : Profile) (ds sel key : QString),
    getCosmeticFiltersMode settings <> NoFilters ->
    domainPart ds = true ->
    contains sel (qs "##") = false ->
    let p' := parseRuleLine settings (ds ++ qs "##" ++ sel) p in
    valuesOf (m_cosmeticFiltersDomainRules p') key
    = repeat sel (occurrences key (split ","%char ds))
      ++ valuesOf (m_cosmeticFiltersDomainRules p) key
    /\ m_cosmeticFiltersDomainExceptions p'
       = m_cosmeticFiltersDomainExceptions p
    /\ m_cosmeticFiltersRules p' = m_cosmeticFiltersRules p
    /\ m_root p' = m_root p.
Proof.
  intros settings p ds sel key Hmode Hds Hsel p'. subst p'.
  rewrite (parseRuleLine_domain_rule settings p ds sel Hmode Hds Hsel).
  cbn [set_cosmeticFiltersDomainRules m_cosmeticFiltersDomainRules
       m_cosmeticFiltersDomainExceptions m_cosmeticFiltersRules m_root].
  rewrite valuesOf_app, valuesOf_bindings. repeat split.
Qed.

Lemma domain_rule_is_bound_witness :
  valuesOf
    (m_cosmeticFiltersDomainRules
       (parseRuleLine settingsAll (qs "a.test,b.test###ad")
          (profileOf [qs "a.test##.old"])))
    (qs "a.test")
  = [qs "#ad"; qs ".old"].
Proof.
  apply (domain_rule_is_bound settingsAll (profileOf [qs "a.test##.old"])
           (qs "a.test,b.test") (qs "#ad") (qs "a.test"));
    [discriminate|reflexivity|reflexivity].
Defined.

(** X19.  A rule [ds#@#sel], with [ds] as before, [sel] free of "##" and
    of "#@#" and not beginning with '#', binds [sel] once to every domain
    listed in [ds] in the table of exceptions, and changes nothing else. *)
Theorem domain_exception_is_bound :
  forall (settings : Settings) (p : Profile) (ds sel key : QString),
    getCosmeticFiltersMode settings <> NoFilters ->
    domainPart ds = true ->
    contains ("#"%char :: sel) (qs "##") = false ->
    contains sel (qs "#@#") = false ->
    let p' := parseRuleLine settings (ds ++ qs "#@#" ++ sel) p in
    valuesOf (m_cosmeticFiltersDomainExceptions p') key
    = repeat sel (occurrences key (split ","%char ds))
      ++ valuesOf (m_cosmeticFiltersDomainExceptions p) key
    /\ m_cosmeticFiltersDomainRules p' = m_cosmeticFiltersDomainRules p
    /\ m_cosmeticFiltersRules p' = m_cosmeticFiltersRules p
    /\ m_root p' = m_root p.
Proof.
  intros settings p ds sel key Hmode Hds Hsel Hsep p'. subst p'.
  rewrite (parseRuleLine_domain_exception settings p ds sel Hmode Hds Hsel
             Hsep).
  cbn [set_cosmeticFiltersDomainExceptions m_cosmeticFiltersDomainRules
       m_cosmeticFiltersDomainExceptions m_cosmeticFiltersRules m_root].
  rewrite valuesOf_app, valuesOf_bindings. repeat split.
Qed.

Lemma domain_exception_is_bound_witness :
  valuesOf
    (m_cosmeticFiltersDomainExceptions
       (parseRuleLine settingsAll (qs "a.test#@#.ad") loadedProfile))
    (qs "a.test")
  = [qs ".ad"].
Proof.
  apply (domain_exception_is_bound settingsAll loadedProfile
           (qs "a.test") (qs ".ad") (qs "a.test"));
    [discriminate|reflexivity|reflexivity|reflexivity].
Defined.




(** ** Cosmetic rules of a file *)










(** ** The cosmetic filters mode and the tables of an unloaded profile *)

Lemma parseRuleLine_mode (settings : Settings) (raw : QString) (p : Profile) :
  (getCosmeticFiltersMode settings <> AllFilters ->
   m_cosmeticFiltersRules (parseRuleLine settings raw p)
   = m_cosmeticFiltersRules p)
  /\ (getCosmeticFiltersMode settings = NoFilters ->
      m_cosmeticFiltersDomainRules (parseRuleLine settings raw p)
      = m_cosmeticFiltersDomainRules p
      /\ m_cosmeticFiltersDomainExceptions (parseRuleLine settings raw p)
         = m_cosmeticFiltersDomainExceptions p).
Proof.
  unfold parseRuleLine.
  destruct (isEmpty raw || _); [repeat split|].
  destruct (startsWith raw (qs "##")).
  { destruct (getCosmeticFiltersMode settings); repeat split; congruence. }
  destruct (contains raw (qs "##")).
  { destruct (getCosmeticFiltersMode settings); repeat split; congruence. }
  destruct (contains raw (qs "#@#")).
  { destruct (getCosmeticFiltersMode settings); repeat split; congruence. }
  destruct (parseNetworkRule _ raw) as [[definition line]|]; repeat split.
Qed.

Lemma parseLines_mode (settings : Settings) (raws : list QString) :
  forall p,
    let p' := fold_left (fun q raw => parseRuleLine settings raw q) raws p in
    (getCosmeticFiltersMode settings <> AllFilters ->
     m_cosmeticFiltersRules p' = m_cosmeticFiltersRules p)
    /\ (getCosmeticFiltersMode settings = NoFilters ->
        m_cosmeticFiltersDomainRules p' = m_cosmeticFiltersDomainRules p
        /\ m_cosmeticFiltersDomainExceptions p'
           = m_cosmeticFiltersDomainExceptions p).
Proof.
  induction raws as [|raw raws IH]; intros p; [cbn; auto|].
  cbn [fold_left]. cbv zeta.
  destruct (IH (parseRuleLine settings raw p)) as [H1 H2].
  destruct (parseRuleLine_mode settings raw p) as [G1 G2].
  split.
  - intros Hm. now rewrite (H1 Hm), (G1 Hm).
  - intros Hm. destruct (H2 Hm) as [-> ->]. now apply G2.
Qed.

Lemma update_tables (env : Env) (url : QUrl) (p : Profile) :
  m_wasLoaded (snd (update env url p)) = m_wasLoaded p
  /\ m_cosmeticFiltersRules (snd (update env url p)) = m_cosmeticFiltersRules p
  /\ m_cosmeticFiltersDomainRules (snd (update env url p))
     = m_cosmeticFiltersDomainRules p
  /\ m_cosmeticFiltersDomainExceptions (snd (update env url p))
     = m_cosmeticFiltersDomainExceptions p.
Proof. unfold update. case_conditions; repeat split. Qed.

(** The profile [loadRules] leaves: the members of the old one when the
    load is put off, the lines of the file parsed into the cleared trie
    otherwise. *)
Lemma loadRules_cases (env : Env) (settings : Settings) (p : Profile) :
  (m_wasLoaded (snd (loadRules env settings p)) = m_wasLoaded p
   /\ m_cosmeticFiltersRules (snd (loadRules env settings p))
      = m_cosmeticFiltersRules p
   /\ m_cosmeticFiltersDomainRules (snd (loadRules env settings p))
      = m_cosmeticFiltersDomainRules p
   /\ m_cosmeticFiltersDomainExceptions (snd (loadRules env settings p))
      = m_cosmeticFiltersDomainExceptions p)
  \/ (exists raws,
        snd (loadRules env settings p)
        = fold_left (fun q line => parseRuleLine settings line q) raws
            (set_root newNode (set_wasLoaded true (set_error NoError p)))).
Proof.
  destruct (m_isEmpty p && negb (urlIsEmpty (m_updateUrl p))) eqn:E.
  - left. unfold loadRules.
    change (m_isEmpty (set_error NoError p)) with (m_isEmpty p).
    change (m_updateUrl (set_error NoError p)) with (m_updateUrl p).
    rewrite E. cbn [snd].
    exact (update_tables env EmptyUrl (set_error NoError p)).
  - right. rewrite (loadRules_loads env settings p E). cbn [snd]. eauto.
Qed.

Lemma flat_map_empty (domains : list QString) (key : QString -> list QString) :
  (forall domain, key domain = []) -> flat_map key domains = [].
Proof.
  intros H. induction domains as [|d domains IH]; [reflexivity|].
  cbn [flat_map]. now rewrite H, IH.
Qed.

(** X22.  The cosmetic filters mode is honoured by a profile that is not
    yet loaded and whose cosmetic tables are empty: with the filters
    disabled [getCosmeticFilters] reports no rule and no exception,
    whatever the file holds and whichever domains are asked for; with
    domain filters only, it reports no rule for all sites, so that asking
    for domain rules only makes no difference. *)
Theorem cosmetic_mode_is_honoured :
  forall (env : Env) (settings : Settings) (p : Profile)
         (domains : list QString) (isDomainOnly : bool),
    m_wasLoaded p = false ->
    tablesEmptyWhileUnloaded p ->
    (getCosmeticFiltersMode settings = NoFilters ->
     fst (getCosmeticFilters env settings p domains isDomainOnly)
     = CosmeticFiltersResult.mk [] [])
    /\ (getCosmeticFiltersMode settings = DomainOnlyFilters ->
        fst (getCosmeticFilters env settings p domains false)
        = fst (getCosmeticFilters env settings p domains true)).
Proof.
  intros env settings p domains isDomainOnly Hl Hinv.
  destruct (Hinv Hl) as (Hr & Hd & He).
  unfold getCosmeticFilters. rewrite Hl. cbn [fst].
  destruct (loadRules_cases env settings p)
    as [(_ & Er & Ed & Ee) | [raws ->]].
  - rewrite Er, Ed, Ee, Hr, Hd, He. split; intros _.
    + rewrite !flat_map_empty by reflexivity. now destruct isDomainOnly.
    + reflexivity.
  - destruct (parseLines_mode settings raws
                (set_root newNode (set_wasLoaded true (set_error NoError p))))
      as [H1 H2].
    cbv zeta in H1, H2. split; intros Hm.
    + destruct (H2 Hm) as [-> ->].
      rewrite H1 by (rewrite Hm; discriminate).
      cbn [set_root set_wasLoaded set_error m_cosmeticFiltersRules
           m_cosmeticFiltersDomainRules m_cosmeticFiltersDomainExceptions].
      rewrite Hr, Hd, He.
      rewrite !flat_map_empty by reflexivity. now destruct isDomainOnly.
    + rewrite H1 by (rewrite Hm; discriminate).
      cbn [set_root set_wasLoaded set_error m_cosmeticFiltersRules].
      rewrite Hr. reflexivity.
Qed.

Lemma cosmetic_mode_is_honoured_witness :
  fst (getCosmeticFilters
         (mkEnv (fun _ => FileLines [qs "[Adblock Plus 2.0]";
                                     qs "a.test##.banner"; qs "##.sponsor"])
            0 true)
         (mkSettings NoFilters true)
         (mkProfile newNode [] [] [] None (qs "list") (qs "List")
            EmptyUrl None [] 0 NoError NoFlags 0 false false [])
         [qs "a.test"] false)
  = CosmeticFiltersResult.mk [] [].
Proof.
  refine (proj1
            (cosmetic_mode_is_honoured
               (mkEnv (fun _ => FileLines [qs "[Adblock Plus 2.0]";
                                           qs "a.test##.banner";
                                           qs "##.sponsor"])
                  0 true)
               (mkSettings NoFilters true)
               (mkProfile newNode [] [] [] None (qs "list") (qs "List")
                  EmptyUrl None [] 0 NoError NoFlags 0 false false [])
               [qs "a.test"] false eq_refl _) eq_refl).
  intros _. repeat split.
Defined.

(** ** An invariant of the profile *)

Lemma tablesEmpty_frame (p q : Profile) :
  m_wasLoaded q = m_wasLoaded p ->
  m_cosmeticFiltersRules q = m_cosmeticFiltersRules p ->
  m_cosmeticFiltersDomainRules q = m_cosmeticFiltersDomainRules p ->
  m_cosmeticFiltersDomainExceptions q = m_cosmeticFiltersDomainExceptions p ->
  tablesEmptyWhileUnloaded p -> tablesEmptyWhileUnloaded q.
Proof.
  unfold tablesEmptyWhileUnloaded. intros -> -> -> ->. auto.
Qed.

Lemma tablesEmpty_loaded (p : Profile) :
  m_wasLoaded p = true -> tablesEmptyWhileUnloaded p.
Proof. unfold tablesEmptyWhileUnloaded. congruence. Qed.

Lemma tablesEmpty_clear (p : Profile) :
  tablesEmptyWhileUnloaded p -> tablesEmptyWhileUnloaded (clear p).
Proof.
  intros H. destruct (m_wasLoaded p) eqn:E.
  - intros _. now apply clear_tables.
  - unfold clear. now rewrite E.
Qed.

Lemma tablesEmpty_loadHeader (env : Env) (p : Profile) :
  tablesEmptyWhileUnloaded p -> tablesEmptyWhileUnloaded (loadHeader env p).
Proof.
  destruct (loadHeader_unloaded_tables env p) as (H1 & H2 & H3 & _).
  apply tablesEmpty_frame; auto. apply loadHeader_wasLoaded.
Qed.

Lemma tablesEmpty_loadRules (env : Env) (settings : Settings) (p : Profile) :
  tablesEmptyWhileUnloaded p ->
  tablesEmptyWhileUnloaded (snd (loadRules env settings p)).
Proof.
  intros H.
  destruct (loadRules_cases env settings p) as [(E0 & E1 & E2 & E3) | [raws ->]].
  - now apply (tablesEmpty_frame p).
  - apply tablesEmpty_loaded. now rewrite parseLines_wasLoaded.
Qed.

Lemma tablesEmpty_handleJobFinished (md5Base64 : QByteArray -> QByteArray)
  (env : Env) (settings : Settings) (job : Download) (p : Profile) :
  tablesEmptyWhileUnloaded p ->
  tablesEmptyWhileUnloaded (handleJobFinished md5Base64 env settings job p).
Proof.
  intros H.
  destruct (handleJobFinished_cases md5Base64 env settings job p)
    as [-> | [[e ->] | ->]]; [exact H | exact H |].
  apply tablesEmpty_loadHeader, tablesEmpty_clear. exact H.
Qed.

(** X23.  The cosmetic tables of a profile are empty whenever its rules
    are not loaded: this holds for a profile as the constructor leaves it
    and is kept by every public operation of the class, so that loading
    the rules never adds to the bindings of an earlier load. *)
Theorem tables_empty_while_unloaded :
  forall (md5Base64 : QByteArray -> QByteArray) (language : QString -> Z)
         (AnyLanguage : Z) (env : Env) (settings : Settings) (job : Download)
         (request : Request) (domains languages : list QString)
         (isDomainOnly removable : bool) (url : QUrl) (lastUpdate : QDateTime)
         (name title : QString) (interval category flags : Z) (p : Profile),
    tablesEmptyWhileUnloaded p ->
    tablesEmptyWhileUnloaded
      (construct language AnyLanguage env name title url lastUpdate languages
         interval category flags)
    /\ tablesEmptyWhileUnloaded (clear p)
    /\ tablesEmptyWhileUnloaded (loadHeader env p)
    /\ tablesEmptyWhileUnloaded (snd (update env url p))
    /\ tablesEmptyWhileUnloaded (snd (loadRules env settings p))
    /\ tablesEmptyWhileUnloaded (snd (checkUrl env settings p request))
    /\ tablesEmptyWhileUnloaded
         (snd (getCosmeticFilters env settings p domains isDomainOnly))
    /\ tablesEmptyWhileUnloaded
         (handleJobFinished md5Base64 env settings job p)
    /\ tablesEmptyWhileUnloaded (setTitle title p)
    /\ tablesEmptyWhileUnloaded (setUpdateUrl url p)
    /\ tablesEmptyWhileUnloaded (setUpdateInterval interval p)
    /\ tablesEmptyWhileUnloaded (setCategory category p)
    /\ tablesEmptyWhileUnloaded (snd (fst (removeProfile env removable p))).
Proof.
  intros md5Base64 language AnyLanguage env settings job request domains
    languages isDomainOnly removable url lastUpdate name title interval
    category flags p H.
  repeat apply conj.
  - unfold construct. apply tablesEmpty_loadHeader. intros _. repeat split.
  - now apply tablesEmpty_clear.
  - now apply tablesEmpty_loadHeader.
  - destruct (update_tables env url p) as (E0 & E1 & E2 & E3).
    now apply (tablesEmpty_frame p).
  - now apply tablesEmpty_loadRules.
  - unfold checkUrl. destruct (m_wasLoaded p) eqn:E; [exact H|].
    pose proof (tablesEmpty_loadRules env settings p H) as Hr.
    destruct (loadRules env settings p) as [loaded p'].
    now destruct loaded.
  - unfold getCosmeticFilters. cbn [snd].
    destruct (m_wasLoaded p); [exact H | now apply tablesEmpty_loadRules].
  - now apply tablesEmpty_handleJobFinished.
  - unfold setTitle. now destruct (negb _).
  - unfold setUpdateUrl. now destruct (urlIsValid url && _).
  - unfold setUpdateInterval. now destruct (negb _).
  - unfold setCategory. now destruct (negb _).
  - unfold removeProfile.
    destruct (hasJob p), (files env (m_name p)), removable; exact H.
Qed.

Lemma tables_empty_while_unloaded_witness :
  tablesEmptyWhileUnloaded
    (handleJobFinished (fun _ => []) quietEnv settingsAll
       (mkDownload true [qs "[Adblock Plus 2.0]"; qs "a.test##.ad"] true)
       (set_dataFetchJob (Some (ValidUrl (qs "http://lists.test/l.txt")))
          (profileOf [qs "a.test##.banner"; qs "##.sponsor"]))).
Proof.
  refine (proj1 (proj2 (proj2 (proj2 (proj2 (proj2 (proj2 (proj2
            (tables_empty_while_unloaded (fun _ => []) (fun _ => 0) 0
               quietEnv settingsAll
               (mkDownload true [qs "[Adblock Plus 2.0]"; qs "a.test##.ad"]
                  true)
               (mkRequest [] [] [] ImageType) [] [] false false EmptyUrl None
               [] [] 0 0 0
               (set_dataFetchJob
                  (Some (ValidUrl (qs "http://lists.test/l.txt")))
                  (profileOf [qs "a.test##.banner"; qs "##.sponsor"]))
               _))))))))).
  intros Hl. vm_compute in Hl. discriminate.
Defined.


(** ** The emptiness of a profile file *)

Lemma scanLines_isEmpty (stream : list QString) :
  forall (lineNumber : Z) (information : HeaderInformation.t),
    (List.length (snd (scanLines stream lineNumber information))
     <= List.length stream)%nat
    /\ HeaderInformation.isEmpty
         (fst (scanLines stream lineNumber information))
       = HeaderInformation.isEmpty information
         && forallb holdsNoRule
              (firstn (List.length stream
                       - List.length
                           (snd (scanLines stream lineNumber information)))
                 stream).
Proof.
  induction stream as [|l stream IH]; intros lineNumber information.
  - cbn. split; [lia | now rewrite andb_true_r].
  - cbn [scanLines]. cbv zeta.
    set (information' :=
           if HeaderInformation.isEmpty information
              && negb (isEmpty (trimmed l))
              && negb (startsWith (trimmed l) (qs "!"))
           then HeaderInformation.mk (HeaderInformation.title information)
                  (HeaderInformation.error information) false
           else information).
    assert (He : HeaderInformation.isEmpty information'
                 = HeaderInformation.isEmpty information && holdsNoRule l).
    { subst information'. unfold holdsNoRule.
      destruct (HeaderInformation.isEmpty information) eqn:E,
        (isEmpty (trimmed l)), (startsWith (trimmed l) (qs "!"));
        cbn; try reflexivity; exact E. }
    assert (Hstep : forall rest : list QString,
              (List.length rest <= List.length stream)%nat ->
              firstn (List.length (l :: stream) - List.length rest)
                (l :: stream)
              = l :: firstn (List.length stream - List.length rest) stream).
    { intros rest Hle. cbn [List.length].
      replace (S (List.length stream) - List.length rest)%nat
        with (S (List.length stream - List.length rest)) by lia.
      reflexivity. }
    destruct (startsWith (trimmed l) (qs "! Title: ")).
    + match goal with
      | |- context [scanLines stream lineNumber ?i] =>
          destruct (IH lineNumber i) as [Hle Heq]
      end.
      split; [cbn [List.length]; lia|].
      rewrite Heq, (Hstep _ Hle). cbn [HeaderInformation.isEmpty forallb].
      rewrite He. now rewrite andb_assoc.
    + destruct (50 <? lineNumber).
      * cbn [fst snd]. split; [cbn [List.length]; lia|].
        rewrite He. cbn [List.length].
        replace (S (List.length stream) - List.length stream)%nat with 1%nat
          by lia.
        cbn [firstn forallb]. now rewrite andb_true_r.
      * destruct (IH (lineNumber + 1) information') as [Hle Heq].
        split; [cbn [List.length]; lia|].
        rewrite Heq, (Hstep _ Hle). cbn [forallb].
        rewrite He. now rewrite andb_assoc.
Qed.

(** X24.  The header scan marks a readable profile file as empty exactly
    when none of the lines it reads after the header holds a rule, that
    is when each of them, trimmed, is blank or begins with '!'. *)
Theorem header_scan_emptiness :
  forall lines : list QString,
    HeaderInformation.isEmpty (loadHeaderPath (FileLines lines))
    = forallb holdsNoRule (firstn (linesRead lines - 1) (tl lines)).
Proof.
  intros lines. unfold linesRead. cbn [loadHeaderPath]. unfold scanStream.
  destruct (negb (containsCaseInsensitive (hd [] lines) (qs "[Adblock"))).
  - cbn [fst snd HeaderInformation.isEmpty].
    destruct lines as [|header body]; [reflexivity|].
    cbn [tl List.length].
    replace (S (List.length body) - List.length body - 1)%nat with 0%nat
      by lia.
    reflexivity.
  - destruct (scanLines_isEmpty (tl lines) 1 HeaderInformation.initial)
      as [Hle Heq].
    rewrite Heq. cbn [HeaderInformation.initial HeaderInformation.isEmpty andb].
    destruct lines as [|header body]; [reflexivity|].
    cbn [tl List.length] in *. do 2 f_equal. lia.
Qed.


(** ** Removal *)

(** X25.  [remove] leaves no download in flight, answers [true] exactly
    when the file of the profile does not exist afterwards, and touches no
    other file; a completion signal of the cancelled download that arrives
    later is ignored by [handleJobFinished], whatever it delivers. *)
Theorem removed_profile_ignores_download :
  forall (md5Base64 : QByteArray -> QByteArray) (env : Env)
         (settings : Settings) (job : Download) (removable : bool)
         (p : Profile),
    let removed := fst (fst (removeProfile env removable p)) in
    let p' := snd (fst (removeProfile env removable p)) in
    let env' := snd (removeProfile env removable p) in
    isUpdating p' = false
    /\ (removed = true <-> files env' (m_name p) = FileMissing)
    /\ (forall name, name <> m_name p -> files env' name = files env name)
    /\ handleJobFinished md5Base64 env' settings job p' = p'.
Proof.
  intros md5Base64 env settings job removable p removed p' env'.
  assert (Hjob : hasJob p' = false).
  { subst p'. unfold removeProfile.
    destruct (hasJob p) eqn:Ej, (files env (m_name p)), removable;
      cbn [fst snd]; try reflexivity; exact Ej. }
  split; [exact Hjob|].
  split; [|split].
  - subst removed env'. unfold removeProfile.
    destruct (files env (m_name p)) eqn:Ef, removable; cbn [fst snd files];
      rewrite ?(proj2 (QString_eqb_eq (m_name p) (m_name p)) eq_refl), ?Ef;
      split; intros H; try reflexivity; try discriminate; try exact Ef.
  - intros name Hne. subst env'. unfold removeProfile.
    destruct (files env (m_name p)), removable; cbn [snd files];
      try reflexivity;
      destruct (QString_eqb name (m_name p)) eqn:E; try reflexivity;
      apply QString_eqb_eq in E; contradiction.
  - unfold handleJobFinished. now rewrite Hjob.
Qed.


(** ** Anchors, from the line to the verdict *)

Lemma indexOfFrom_absent (x : QChar) (s : QString) (i : Z) :
  ~ In x s -> indexOfFrom (Ascii.eqb x) s i = -1.
Proof.
  revert i; induction s as [|c s IH]; intros i H; [reflexivity|].
  cbn [indexOfFrom]. destruct (Ascii.eqb x c) eqn:E.
  - apply Ascii.eqb_eq in E. subst. exfalso. apply H. now left.
  - apply IH. intros Hin. apply H. now right.
Qed.

Lemma indexOf_absent (x : QChar) (s : QString) :
  ~ In x s -> indexOf s x = -1.
Proof. apply indexOfFrom_absent. Qed.

Lemma startsWith_absent (x : QChar) (t s : QString) :
  ~ In x s -> startsWith s (x :: t) = false.
Proof.
  intros H. destruct s as [|c s]; [reflexivity|]. cbn [startsWith].
  destruct (Ascii.eqb c x) eqn:E; [|reflexivity].
  apply Ascii.eqb_eq in E. subst. exfalso. apply H. now left.
Qed.

Lemma contains_absent (x : QChar) (t s : QString) :
  ~ In x s -> contains s (x :: t) = false.
Proof.
  induction s as [|c s IH]; intros H; [reflexivity|].
  cbn [contains]. rewrite (startsWith_absent x t (c :: s) H).
  apply IH. intros Hin. apply H. now right.
Qed.

Lemma endsWith_absent (x : QChar) (s : QString) :
  ~ In x s -> endsWith s [x] = false.
Proof.
  intros H. unfold endsWith. apply startsWith_absent.
  intros Hin. apply H. now apply in_rev.
Qed.

Lemma endsWith_last (x : QChar) (s : QString) : endsWith (s ++ [x]) [x] = true.
Proof.
  unfold endsWith. rewrite rev_app_distr. cbn. now rewrite Ascii.eqb_refl.
Qed.

Lemma left_without_last (x : QChar) (s : QString) :
  left (s ++ [x]) (Z.of_nat (List.length (s ++ [x])) - 1) = s.
Proof.
  unfold left. rewrite length_app. cbn [List.length].
  destruct (Z.ltb_spec (Z.of_nat (List.length s + 1) - 1) 0); [lia|].
  destruct (Z.leb_spec (Z.of_nat (List.length s + 1))
              (Z.of_nat (List.length s + 1) - 1)); [lia|].
  cbn [orb].
  replace (Z.to_nat (Z.of_nat (List.length s + 1) - 1)) with (List.length s)
    by lia.
  rewrite firstn_app, firstn_all, Nat.sub_diag. cbn [firstn]. apply app_nil_r.
Qed.

Lemma mid_1 (x : QChar) (s : QString) : mid (x :: s) 1 = s.
Proof.
  unfold mid. cbn [List.length].
  destruct (Z.ltb_spec (Z.of_nat (S (List.length s))) 1); [lia|reflexivity].
Qed.

Lemma mid_2 (x y : QChar) (s : QString) : mid (x :: y :: s) 2 = s.
Proof.
  unfold mid. cbn [List.length].
  destruct (Z.ltb_spec (Z.of_nat (S (S (List.length s)))) 2);
    [lia|reflexivity].
Qed.

Lemma plainPattern_inv (p : QString) :
  plainPattern p = true ->
  p <> [] /\ forall x, In x specialCharacters -> ~ In x p.
Proof.
  unfold plainPattern. intros H. apply andb_true_iff in H as [Hne Hall].
  split; [now destruct p|].
  intros x Hx Hin. rewrite forallb_forall in Hall.
  apply Hall in Hin. apply negb_true_iff in Hin.
  assert (Ht : existsb (Ascii.eqb x) specialCharacters = true).
  { apply existsb_exists. exists x. split; [exact Hx|apply Ascii.eqb_refl]. }
  congruence.
Qed.

Lemma startsWith_first (c x : QChar) (s t : QString) :
  Ascii.eqb c x = false -> startsWith (c :: s) (x :: t) = false.
Proof. intros H. cbn [startsWith]. now rewrite H. Qed.

Lemma startsWith_second (a c x y : QChar) (s t : QString) :
  Ascii.eqb c y = false -> startsWith (a :: c :: s) (x :: y :: t) = false.
Proof. intros H. cbn [startsWith]. rewrite H. apply andb_false_r. Qed.

Lemma plain_first (c x : QChar) (p : QString) :
  (forall y, In y specialCharacters -> ~ In y (c :: p)) ->
  In x specialCharacters -> Ascii.eqb c x = false.
Proof.
  intros Habs Hx. destruct (Ascii.eqb c x) eqn:E; [|reflexivity].
  apply Ascii.eqb_eq in E. subst. exfalso. apply (Habs x Hx). now left.
Qed.

Lemma endsWith_last_cons (c x : QChar) (s : QString) :
  endsWith (c :: s ++ [x]) [x] = true.
Proof. exact (endsWith_last x (c :: s)). Qed.

Lemma left_without_last_cons (c x : QChar) (s : QString) :
  left (c :: s ++ [x]) (Z.of_nat (List.length (c :: s ++ [x])) - 1) = c :: s.
Proof. exact (left_without_last x (c :: s)). Qed.

(** [x] does not occur in a string made of given characters and of a plain
    pattern. *)
Ltac absent Habs :=
  let Hin := fresh "Hin" in
  let Hno := fresh "Hno" in
  intros Hin;
  match type of Hin with
  | In ?x _ =>
      assert (Hno := Habs x ltac:(cbn [specialCharacters In]; tauto))
  end;
  cbn [In app] in Hin, Hno; rewrite ?in_app_iff in Hin; cbn [In] in Hin;
  intuition (try discriminate).

Ltac special := cbn [specialCharacters In]; tauto.

(** One test of the parser on a string without [if]. *)
Ltac settle_test Habs :=
  match goal with
  | |- context [indexOf ?s ?x] =>
      rewrite (indexOf_absent x s) by absent Habs
  | |- context [endsWith ?s ?t] =>
      lazymatch s with
      | context [if _ then _ else _] => fail
      | _ =>
          let H := fresh in
          first
            [ assert (H : endsWith s t = true)
                by (exact (endsWith_last_cons _ "|"%char _))
            | assert (H : endsWith s t = false)
                by (apply endsWith_absent; absent Habs) ];
          rewrite H; clear H
      end
  | |- context [contains ?s ?t] =>
      lazymatch s with
      | context [if _ then _ else _] => fail
      | _ =>
          let H := fresh in
          assert (H : contains s t = false)
            by (apply contains_absent; absent Habs);
          rewrite H; clear H
      end
  | |- context [startsWith ?s ?t] =>
      lazymatch s with
      | context [if _ then _ else _] => fail
      | _ =>
          let H := fresh in
          first
            [ assert (H : startsWith s t = true) by reflexivity
            | assert (H : startsWith s t = false) by reflexivity
            | assert (H : startsWith s t = false)
                by (apply startsWith_first;
                    apply (plain_first _ _ _ Habs); special)
            | assert (H : startsWith s t = false)
                by (apply startsWith_second;
                    apply (plain_first _ _ _ Habs); special) ];
          rewrite H; clear H
      end
  end;
  rewrite ?andb_false_r;
  cbv iota;
  rewrite ?mid_1, ?mid_2, ?left_without_last_cons.

(** The parser on an anchored line. *)
Lemma parseNetworkRule_anchored (wildcards exception startAnchor endAnchor : bool)
  (p : QString) :
  plainPattern p = true ->
  parseNetworkRule wildcards (anchored exception startAnchor endAnchor p)
  = Some (mkRule (anchored exception startAnchor endAnchor p) exception false
            (match startAnchor, endAnchor with
             | true, true => ExactMatch
             | true, false => StartMatch
             | false, true => EndMatch
             | false, false => ContainsMatch
             end)
            NoOption NoOption [] [],
          p).
Proof.
  intros Hp. destruct (plainPattern_inv p Hp) as [Hne Habs].
  destruct p as [|c p]; [congruence|].
  destruct exception, startAnchor, endAnchor;
    unfold anchored; cbn [qs list_ascii_of_string app]; rewrite ?app_nil_r;
    unfold parseNetworkRule;
    settle_test Habs; cbv zeta; change (0 <=? -1) with false; cbv iota.
  all: repeat settle_test Habs.
  all: reflexivity.
Qed.

Lemma isNetworkLine_anchored (exception startAnchor endAnchor : bool)
  (p : QString) :
  plainPattern p = true ->
  isNetworkLine (anchored exception startAnchor endAnchor p) = true.
Proof.
  intros Hp. destruct (plainPattern_inv p Hp) as [Hne Habs].
  destruct p as [|c p]; [congruence|].
  destruct exception, startAnchor, endAnchor;
    unfold anchored; cbn [qs list_ascii_of_string app]; rewrite ?app_nil_r;
    unfold isNetworkLine; cbn [isEmpty orb];
    repeat settle_test Habs; reflexivity.
Qed.

Lemma plainPattern_literal (p : QString) :
  plainPattern p = true -> isLiteral p = true.
Proof.
  intros Hp. destruct (plainPattern_inv p Hp) as [_ Habs].
  unfold isLiteral. apply forallb_forall. intros c Hc.
  destruct (Ascii.eqb c "*"%char) eqn:E1.
  { apply Ascii.eqb_eq in E1. subst.
    exfalso. apply (Habs "*"%char); [special|exact Hc]. }
  destruct (Ascii.eqb c "^"%char) eqn:E2; [|reflexivity].
  apply Ascii.eqb_eq in E2. subst.
  exfalso. apply (Habs "^"%char); [special|exact Hc].
Qed.

(** A rule without options and without domains applies where its pattern
    matches, except to popups. *)
Lemma checkRuleMatch_bare (raw currentRule : QString) (exception : bool)
  (mode : RuleMatch) (request : Request) :
  checkRuleMatch (mkRule raw exception false mode NoOption NoOption [] [])
    currentRule request
  = if patternMatches
         (mkRule raw exception false mode NoOption NoOption [] [])
         currentRule request
       && negb (ResourceType_eqb (resourceType request) PopupType)
    then CheckResult.mk raw None (negb exception) exception
    else CheckResult.pass.
Proof.
  unfold checkRuleMatch.
  destruct (patternMatches _ currentRule request); [|reflexivity].
  cbn [negb andb needsDomainCheck blockedDomains allowedDomains List.length
       Nat.eqb ruleOptions ruleExceptions isException rule].
  rewrite !hasOption_NoOption. cbn [orb].
  change (NoOption =? NoOption) with true. cbn [negb orb].
  destruct (ResourceType_eqb (resourceType request) PopupType);
    [reflexivity|].
  destruct exception; reflexivity.
Qed.

(** X26.  Anchors, from the line to the verdict.  Let [p] be a pattern
    that is not empty and holds none of the characters $ * ^ | # ! @, and
    let the line be [p], [|p], [p|] or [|p|], with or without [@@] in
    front.  When the line is the only rule of a loaded profile, a request
    with a non-empty address gets the verdict of that line exactly when
    it is no popup and its address contains [p], begins with [p], ends
    with [p] or is [p], in that order of the four forms: a block that
    names the line, or the exception that names it when the line begins
    with [@@]. *)
Theorem anchored_rule_semantics :
  forall (env : Env) (settings : Settings) (profile : Profile)
         (request : Request) (exception startAnchor endAnchor : bool)
         (p : QString),
    plainPattern p = true ->
    m_wasLoaded profile = true ->
    m_root profile = newNode ->
    requestUrl request <> [] ->
    fst (checkUrl env settings
           (parseRuleLine settings
              (anchored exception startAnchor endAnchor p) profile)
           request)
    = if anchorsMatch startAnchor endAnchor (requestUrl request) p
         && negb (ResourceType_eqb (resourceType request) PopupType)
      then CheckResult.mk (anchored exception startAnchor endAnchor p) None
             (negb exception) exception
      else CheckResult.pass.
Proof.
  intros env settings profile request exception startAnchor endAnchor p
    Hp Hl Hroot Hurl.
  rewrite (parseRuleLine_network settings _ _ _ profile
             (isNetworkLine_anchored exception startAnchor endAnchor p Hp)
             (parseNetworkRule_anchored _ exception startAnchor endAnchor p
                Hp)).
  rewrite Hroot.
  match goal with
  | |- context [insertRule newNode p ?d] => set (definition := d)
  end.
  assert (Hl' : m_wasLoaded (set_root (insertRule newNode p definition)
                               profile) = true) by exact Hl.
  rewrite (checkUrl_verdict env settings _ request Hl').
  change (m_root (set_root (insertRule newNode p definition) profile))
    with (insertRule newNode p definition).
  rewrite (verdict_constant definition p request).
  - subst definition. rewrite checkRuleMatch_bare.
    now destruct startAnchor, endAnchor.
  - apply literal_trie_results. now apply plainPattern_literal.
  - destruct (contains (requestUrl request) p) eqn:Ec.
    + left. intros E.
      assert (Hin : In (checkRuleMatch definition p request)
                       (walkResults (insertRule newNode p definition)
                          request)).
      { unfold walkResults. apply in_map_iff. exists (definition, p).
        split; [reflexivity|]. now apply checkUrlVisits_inserted. }
      rewrite E in Hin. contradiction.
    + right. now apply checkRuleMatch_needs_pattern.
Qed.

Lemma anchored_rule_semantics_witness :
  fst (checkUrl quietEnv settingsAll
         (parseRuleLine settingsAll (qs "|http://ads.test/banner.png|")
            loadedProfile)
         (mkRequest (qs "http://ads.test/banner.png") (qs "ads.test")
            (qs "site.test") ImageType))
  = CheckResult.mk (qs "|http://ads.test/banner.png|") None true false.
Proof.
  apply (anchored_rule_semantics quietEnv settingsAll loadedProfile
           (mkRequest (qs "http://ads.test/banner.png") (qs "ads.test")
              (qs "site.test") ImageType)
           false true true (qs "http://ads.test/banner.png"));
    try reflexivity.
  discriminate.
Defined.
